(** * cursor-auto-icloud: a shallow embedding of the provisioning core

  The development follows the Python sources:
  - [src/auth/cursor_auth_manager.py]  (credential persister),
  - [src/auth/reset_machine.py]        (identity generator and store),
  - [src/utils/get_email_code.py]      (mailbox poller),
  - [src/core/cursor_pro_keep_alive.py] (session token, sign-up loop).

  External collaborators (sqlite, the file system, the IMAP server, the
  browser tab, [json], [hashlib], [os.urandom], [time.sleep]) are modelled
  by explicit state, by oracles that give the answer of the n-th call, and
  by fault parameters that say which call raises.  Part I holds the
  definitions, Part II the lemmas and theorems. *)

From Stdlib Require Import List String Ascii ZArith Lia Bool Arith.
From Stdlib Require Import Strings.Byte Numbers.DecimalString.
Import ListNotations.

Local Open Scope string_scope.
Local Open Scope list_scope.

Set Warnings "-register-all".

(* ================================================================== *)
(** * Part I: definitions                                              *)
(* ================================================================== *)

(** ** Python values shared by the components *)

(** The double quote character, for JSON texts. *)
Definition dq : ascii := "034"%char.

(** Truthiness of an optional string: [None] and the empty string are falsy. *)
Definition truthy (v : option string) : bool :=
match v with
| None => false
| Some s => negb (s =? "")
end.

(** ** src/auth/cursor_auth_manager.py *)

Module CursorAuthManager.

(** A row of [itemTable]: the key and the value; [None] is SQL NULL, which
    is what sqlite3 binds for Python's [None]. *)
Definition row : Type := string * option string.
Definition itemTable : Type := list row.

Definition key_cachedSignUpType := "cursorAuth/cachedSignUpType".
Definition key_cachedEmail := "cursorAuth/cachedEmail".
Definition key_accessToken := "cursorAuth/accessToken".
Definition key_refreshToken := "cursorAuth/refreshToken".

(** [SELECT COUNT( * ) FROM itemTable WHERE key = ?] *)
Definition select_count (key : string) (t : itemTable) : nat :=
  List.length (filter (fun r => fst r =? key) t).

(** [SELECT value FROM itemTable WHERE key = ?], every row. *)
Definition select_values (key : string) (t : itemTable) : list (option string) :=
  map snd (filter (fun r => fst r =? key) t).

(** [INSERT INTO itemTable (key, value) VALUES (?, ?)] *)
Definition insert_row (key : string) (value : option string) (t : itemTable)
  : itemTable := t ++ [(key, value)].

(** [UPDATE itemTable SET value = ? WHERE key = ?] *)
Definition update_rows (key : string) (value : option string) (t : itemTable)
  : itemTable :=
  map (fun r => if fst r =? key then (fst r, value) else r) t.

(** The body of the loop over [updates]: count, then insert or update. *)
Definition upsert (kv : row) (t : itemTable) : itemTable :=
  let '(key, value) := kv in
  if (select_count key t =? 0)%nat then insert_row key value t
  else update_rows key value t.

(** Lines 47-56: the list of pairs to write. *)
Definition build_updates (email access_token refresh_token : option string)
  : list row :=
  let updates := [] in
  let updates := updates ++ [(key_cachedSignUpType, Some "Auth_0")] in
  let updates :=
    match email with
    | Some _ => updates ++ [(key_cachedEmail, email)]
    | None => updates
    end in
  let updates :=
    match access_token with
    | Some _ => updates ++ [(key_accessToken, refresh_token)]
    | None => updates
    end in
  let updates :=
    match refresh_token with
    | Some _ => updates ++ [(key_refreshToken, refresh_token)]
    | None => updates
    end in
  updates.

(** The whole loop when no statement raises. *)
Definition run_all (updates : list row) (t : itemTable) : itemTable :=
  fold_left (fun acc kv => upsert kv acc) updates t.

(** Which database call raises [sqlite3.Error]. *)
Inductive db_fault : Type :=
| NoFault
| ConnectFails
| ExecuteFails (i : nat)   (* the statements of the i-th pair *)
| CommitFails.

Definition execute_fails (f : db_fault) (i : nat) : bool :=
  match f with
  | ExecuteFails j => (j =? i)%nat
  | _ => false
  end.

(** The [for key, value in updates] loop; [None] when a statement raises. *)
Fixpoint run_updates (f : db_fault) (i : nat) (updates : list row)
  (t : itemTable) : option itemTable :=
  match updates with
  | [] => Some t
  | kv :: rest =>
      if execute_fails f i then None
      else run_updates f (S i) rest (upsert kv t)
  end.

(** [update_auth]: the returned flag and the committed table.  A call that
    raises closes the connection without commit, which leaves the
    committed table as it was. *)
Definition update_auth (f : db_fault)
  (email access_token refresh_token : option string) (db : itemTable)
  : bool * itemTable :=
  let updates := build_updates email access_token refresh_token in
  match updates with
  | [] => (false, db)
  | _ =>
      match f with
      | ConnectFails => (false, db)
      | _ =>
          match run_updates f 0 updates db with
          | None => (false, db)
          | Some t =>
              match f with
              | CommitFails => (false, db)
              | _ => (true, t)
              end
          end
      end
  end.

End CursorAuthManager.

(** ** src/core/cursor_pro_keep_alive.py: get_cursor_session_token *)

(** [s.startswith(sep)] *)
Fixpoint starts_with (sep s : string) : bool :=
  match sep with
  | EmptyString => true
  | String a sep' =>
      match s with
      | EmptyString => false
      | String b s' => Ascii.eqb a b && starts_with sep' s'
      end
  end.

(** [needle in hay] *)
Fixpoint contains (needle hay : string) : bool :=
  starts_with needle hay ||
  match hay with
  | EmptyString => false
  | String _ hay' => contains needle hay'
  end.

(** Python's [s.split(sep)] for a non-empty separator: the text is cut at
    each occurrence of [sep], found from the left and without overlap.
    [skip] counts the characters of a separator still to be passed over and
    [acc] is the segment read so far. *)
Fixpoint split_go (sep : string) (skip : nat) (acc : string) (s : string)
  : list string :=
  match s with
  | EmptyString => [acc]
  | String c s' =>
      match skip with
      | S k => split_go sep k acc s'
      | O =>
          if starts_with sep s
          then acc :: split_go sep (String.length sep - 1) "" s'
          else split_go sep 0 (acc ++ String c "")%string s'
      end
  end.

Definition str_split (sep s : string) : list string := split_go sep 0 "" s.

(** A cookie as the driver returns it: a dict that may lack either key. *)
Record cookie : Type := mk_cookie {
  cookie_name : option string;
  cookie_value : option string
}.

Definition session_cookie_name := "WorkosCursorSessionToken".
Definition session_delimiter := "%3A%3A".

(** The delimiter without its last character.  In a text
    [a ++ session_delimiter ++ rest], an occurrence of the delimiter that
    starts inside [a] lies within [a ++ delimiter_init]. *)
Definition delimiter_init := "%3A%3".

(** [segment_before_delimiter a]: in a text that starts with
    [a ++ session_delimiter], the delimiter written after [a] is the
    leftmost occurrence of the delimiter, where [split] cuts first. *)
Definition segment_before_delimiter (a : string) : bool :=
  negb (contains session_delimiter (a ++ delimiter_init)).

(** [delimiter_free b]: the delimiter does not occur in [b]. *)
Definition delimiter_free (b : string) : bool :=
  negb (contains session_delimiter b).

(** The outcome of the [for cookie in cookies] loop. *)
Inductive scan_result : Type :=
| Found (token : string)     (* [return cookie[value].split(...)[1]] *)
| ScanRaises                 (* [KeyError] or [IndexError] *)
| NotFound.                  (* the loop ends without a return *)

Definition name_is (c : cookie) (n : string) : bool :=
  match cookie_name c with
  | Some m => m =? n
  | None => false
  end.

Fixpoint scan_cookies (cookies : list cookie) : scan_result :=
  match cookies with
  | [] => NotFound
  | c :: rest =>
      if name_is c session_cookie_name then
        match cookie_value c with
        | None => ScanRaises
        | Some v =>
            match nth_error (str_split session_delimiter v) 1 with
            | Some token => Found token
            | None => ScanRaises
            end
        end
      else scan_cookies rest
  end.

(** The browser tab seen from this function: the number of calls of
    [tab.cookies()] made so far and the log of [time.sleep] durations,
    latest first. *)
Record tab_world : Type := mk_tab_world {
  cookie_calls : nat;
  tab_slept : list nat
}.

Section SessionToken.

(** The answer of the n-th call of [tab.cookies()]; [None] when it raises. *)
Variable tab_cookies : nat -> option (list cookie).

Definition retry_sleep (attempts max_attempts retry_interval : nat)
  (w : tab_world) : tab_world :=
  if (attempts <? max_attempts)%nat
  then mk_tab_world (cookie_calls w) (retry_interval :: tab_slept w)
  else w.

(** The [while attempts < max_attempts] loop.  Every pass that does not
    return adds one to [attempts]; [fuel] bounds the number of passes. *)
Fixpoint token_loop (fuel attempts max_attempts retry_interval : nat)
  (w : tab_world) : option (option string * tab_world) :=
  match fuel with
  | O => None
  | S fuel' =>
      if (attempts <? max_attempts)%nat then
        let answer := tab_cookies (cookie_calls w) in
        let w := mk_tab_world (S (cookie_calls w)) (tab_slept w) in
        match answer with
        | None =>
            let attempts := attempts + 1 in
            token_loop fuel' attempts max_attempts retry_interval
              (retry_sleep attempts max_attempts retry_interval w)
        | Some cookies =>
            match scan_cookies cookies with
            | Found token => Some (Some token, w)
            | ScanRaises =>
                let attempts := attempts + 1 in
                token_loop fuel' attempts max_attempts retry_interval
                  (retry_sleep attempts max_attempts retry_interval w)
            | NotFound =>
                let attempts := attempts + 1 in
                token_loop fuel' attempts max_attempts retry_interval
                  (retry_sleep attempts max_attempts retry_interval w)
            end
        end
      else Some (None, w)
  end.

Definition get_cursor_session_token (max_attempts retry_interval : nat)
  (w : tab_world) : option (option string * tab_world) :=
  token_loop (S max_attempts) 0 max_attempts retry_interval w.

End SessionToken.

(** ** src/core/cursor_pro_keep_alive.py: sign_up_account, lines 283-306 *)

(** What [tab.ele(selector)] gives in a pass. *)
Inductive ele_result : Type :=
| EleFound
| EleAbsent
| EleRaises.

(** What [email_handler.get_verification_code()] gives in a pass. *)
Inductive code_result : Type :=
| CodeReturned (code : option string)
| CodeRaises.

(** The answers the page and the mailbox would give during one pass of the
    [while True] loop; a pass consults them in the order of the fields and
    only as far as it gets. *)
Record page_pass : Type := mk_page_pass {
  account_settings : ele_result;      (* [tab.ele(Account Settings)] *)
  data_index_0 : ele_result;          (* [tab.ele(@data-index=0)] *)
  verification_code : code_result;
  digits_typed : bool                 (* the [for digit in code] loop ends *)
}.

(** How the loop is left. *)
Inductive loop_exit : Type :=
| ExitAccountReady                 (* first [break] *)
| ExitCodeEntered (code : string)  (* second [break] *)
| ExitReturnFalse.                 (* [return False] *)

(** One pass; [None] when the loop goes round again, which is also what the
    [except Exception] clause does after logging. *)
Definition verification_pass (p : page_pass) : option loop_exit :=
  match account_settings p with
  | EleRaises => None
  | EleFound => Some ExitAccountReady
  | EleAbsent =>
      match data_index_0 p with
      | EleRaises => None
      | EleAbsent => None
      | EleFound =>
          match verification_code p with
          | CodeRaises => None
          | CodeReturned code =>
              match code with
              | Some c =>
                  if truthy code
                  then if digits_typed p then Some (ExitCodeEntered c) else None
                  else Some ExitReturnFalse
              | None => Some ExitReturnFalse
              end
          end
      end
  end.

(** The [while True] loop over the passes [pass], [pass + 1], ...; the
    result is the exit and the number of passes made.  [None] means the
    fuel was used up with the loop still running. *)
Fixpoint verification_loop (page : nat -> page_pass) (fuel pass : nat)
  : option (loop_exit * nat) :=
  match fuel with
  | O => None
  | S fuel' =>
      match verification_pass (page pass) with
      | Some e => Some (e, S pass)
      | None => verification_loop page fuel' (S pass)
      end
  end.

(** The two readings of the termination claim: the loop ends on every page,
    and it ends within a number of passes fixed in advance. *)
Definition loop_always_ends : Prop :=
  forall page : nat -> page_pass,
    exists fuel, verification_loop page fuel 0 <> None.

Definition loop_has_cap : Prop :=
  exists cap : nat, forall page : nat -> page_pass,
    verification_loop page cap 0 <> None.

(** A page that shows neither marker. *)
Definition blank_page : nat -> page_pass :=
  fun _ => mk_page_pass EleAbsent EleAbsent (CodeReturned None) true.

(** ** src/utils/get_email_code.py *)

(** *** The pattern [(?<![a-zA-Z@.])\b\d{6}\b]

    The classes below are those of the pattern on ASCII characters, where
    [\d] is [0-9] and [\w] is [a-zA-Z0-9_].  On a [str] with other code
    points Python consults the Unicode tables for [\d], [\w] and [\b];
    these tables are not part of the model.  Every statement that depends
    on what the pattern finds therefore assumes [ascii_text] of the body. *)

Definition is_ascii_char (c : ascii) : bool := (nat_of_ascii c <? 128)%nat.

(** [s.isascii()] *)
Definition ascii_text (s : string) : bool :=
  forallb is_ascii_char (list_ascii_of_string s).

Definition is_letter (c : ascii) : bool :=
  let n := nat_of_ascii c in
  ((65 <=? n) && (n <=? 90) || (97 <=? n) && (n <=? 122))%nat.

(** [\d] on an ASCII character *)
Definition is_digit (c : ascii) : bool :=
  let n := nat_of_ascii c in ((48 <=? n) && (n <=? 57))%nat.

(** [\w] on an ASCII character *)
Definition is_word (c : ascii) : bool :=
  is_letter c || is_digit c || Ascii.eqb c "_".

(** The character class [[a-zA-Z@.]] of the lookbehind. *)
Definition in_lookbehind_class (c : ascii) : bool :=
  is_letter c || Ascii.eqb c "@" || Ascii.eqb c ".".

Definition first_char (s : string) : option ascii :=
  match s with
  | EmptyString => None
  | String c _ => Some c
  end.

(** The last character of [s], or [prev] when [s] is empty. *)
Fixpoint last_char (prev : option ascii) (s : string) : option ascii :=
  match s with
  | EmptyString => prev
  | String c s' => last_char (Some c) s'
  end.

Definition opt_word (c : option ascii) : bool :=
  match c with
  | None => false
  | Some c => is_word c
  end.

(** [\b] between the characters [prev] and [next]; the ends of the text
    count as non-word characters. *)
Definition word_boundary (prev next : option ascii) : bool :=
  xorb (opt_word prev) (opt_word next).

(** [(?<![a-zA-Z@.])] after the character [prev]. *)
Definition lookbehind_ok (prev : option ascii) : bool :=
  match prev with
  | None => true
  | Some c => negb (in_lookbehind_class c)
  end.

(** [\d{n}] at the start of [s]: the digits and the rest of the text. *)
Fixpoint take_digits (n : nat) (s : string) : option (string * string) :=
  match n with
  | O => Some (EmptyString, s)
  | S n' =>
      match s with
      | EmptyString => None
      | String c s' =>
          if is_digit c then
            match take_digits n' s' with
            | Some (tok, rest) => Some (String c tok, rest)
            | None => None
            end
          else None
      end
  end.

(** The pattern tried at one position: [prev] is the character before it
    and [s] the text from it on. *)
Definition match_here (prev : option ascii) (s : string) : option string :=
  if lookbehind_ok prev && word_boundary prev (first_char s) then
    match take_digits 6 s with
    | Some (tok, rest) =>
        if word_boundary (last_char prev tok) (first_char rest)
        then Some tok else None
    | None => None
    end
  else None.

(** [re.search]: the positions are tried from the left. *)
Fixpoint search_from (prev : option ascii) (s : string) : option string :=
  match match_here prev s with
  | Some tok => Some tok
  | None =>
      match s with
      | EmptyString => None
      | String c s' => search_from (Some c) s'
      end
  end.

(** [re.search(pattern, body)] and [group()] of the match, for a body of
    ASCII characters. *)
Definition re_search_code (body : string) : option string :=
  search_from None body.

(** The conditions on a token [tok] found between [pre] and [post]. *)
Definition all_digits (s : string) : bool :=
  forallb is_digit (list_ascii_of_string s).

Definition six_digits (tok : string) : bool :=
  (String.length tok =? 6)%nat && all_digits tok.

(** What the pattern asks of the neighbours: before the token no word
    character, [@] or [.]; after it no word character. *)
Definition left_ok (prev : option ascii) : bool :=
  match prev with
  | None => true
  | Some c => negb (is_word c || Ascii.eqb c "@" || Ascii.eqb c ".")
  end.

Definition right_ok (next : option ascii) : bool :=
  match next with
  | None => true
  | Some c => negb (is_word c)
  end.

Definition accepts (pre tok post : string) : bool :=
  six_digits tok && left_ok (last_char None pre) && right_ok (first_char post).

(** The condition as the specification words it: neither neighbour is a
    letter, [@] or [.]. *)
Definition not_letter_at_dot (c : option ascii) : bool :=
  match c with
  | None => true
  | Some c => negb (in_lookbehind_class c)
  end.

Definition spec_adjacent_ok (pre post : string) : bool :=
  not_letter_at_dot (last_char None pre) && not_letter_at_dot (first_char post).

Definition spec_accepts_only_isolated_tokens : Prop :=
  forall body tok : string,
    re_search_code body = Some tok ->
    exists pre post,
      body = (pre ++ tok ++ post)%string /\ spec_adjacent_ok pre post = true.

(** *** Messages *)

(** [str(x)] of an optional header. *)
Definition str_of_header (h : option string) : string :=
  match h with
  | None => "None"
  | Some s => s
  end.

(** A part as [walk()] yields it; [payload = None] when
    [get_payload(decode=True).decode(...)] raises. *)
Record mime_part : Type := mk_part {
  content_type : string;
  content_disposition : option string;
  payload : option string
}.

(** A parsed message: the two headers, read with the default [''], and
    either the message itself as its only part or the parts of [walk()]. *)
Record email_message : Type := mk_email {
  header_from : string;
  header_to : string;
  is_multipart : bool;
  parts : list mime_part
}.

Fixpoint first_plain_part (ps : list mime_part) : string :=
  match ps with
  | [] => ""
  | p :: rest =>
      if (content_type p =? "text/plain") &&
         negb (contains "attachment" (str_of_header (content_disposition p)))
      then match payload p with
           | Some body => body
           | None => first_plain_part rest
           end
      else first_plain_part rest
  end.

Definition _extract_imap_body (m : email_message) : string :=
  if is_multipart m then first_plain_part (parts m)
  else
    match parts m with
    | p :: _ =>
        if content_type p =? "text/plain" then
          match payload p with
          | Some body => body
          | None => ""
          end
        else ""
    | [] => ""
    end.

(** The answer of [mail.fetch(mail_id, ...)]. *)
Inductive fetch_result : Type :=
| FetchConnectionError           (* EOFError, ConnectionError, socket.error *)
| FetchOtherError                (* any other exception, up to the parse *)
| Fetched (status_ok : bool) (m : email_message).

(** One IMAP session, from the connection to the search. *)
Inductive imap_session : Type :=
| SessionRaises                  (* connect, login, select or search raises *)
| SearchNotOK
| SearchOK (mails : list fetch_result) (* oldest first, as [mail_ids] *)
           (delete_ok : bool).   (* store, expunge and logout do not raise *)

Definition sender_filter := "no-reply_at_cursor_sh".

(** The [for i in range(min(10, len(mail_ids)))] loop over the mails taken
    newest first; the result is the value the function returns. *)
Fixpoint scan_mails (account : string) (delete_ok : bool)
  (mails : list fetch_result) : option string :=
  match mails with
  | [] => None
  | FetchConnectionError :: _ => None
  | FetchOtherError :: _ => None
  | Fetched false _ :: rest => scan_mails account delete_ok rest
  | Fetched true m :: rest =>
      if negb (contains account (header_to m)) then
        scan_mails account delete_ok rest
      else if negb (contains sender_filter (header_from m)) then
        scan_mails account delete_ok rest
      else
        let body := _extract_imap_body m in
        if negb (body =? "") then
          match re_search_code body with
          | Some code => if delete_ok then Some code else None
          | None => scan_mails account delete_ok rest
          end
        else scan_mails account delete_ok rest
  end.

(** The bodies that the scan can search are ASCII text. *)
Definition ascii_bodies (mails : list fetch_result) : bool :=
  forallb (fun r => match r with
                    | Fetched true m => ascii_text (_extract_imap_body m)
                    | _ => true
                    end) mails.

Definition ascii_session (s : imap_session) : bool :=
  match s with
  | SearchOK mails _ => ascii_bodies mails
  | _ => true
  end.

(** Whether the session gives a code: the search answers OK and the scan of
    the ten newest mails returns one. *)
Definition session_finds_code (account : string) (s : imap_session) : bool :=
  match s with
  | SearchOK mails delete_ok =>
      match scan_mails account delete_ok (firstn 10 (rev mails)) with
      | Some _ => true
      | None => false
      end
  | _ => false
  end.

(** Whether the session finds mail in the mailbox. *)
Definition session_has_mail (s : imap_session) : bool :=
  match s with
  | SearchOK (_ :: _) _ => true
  | _ => false
  end.

(** A Python call either returns a value or raises. *)
Inductive py_result (A : Type) : Type :=
| Return (a : A)
| Raise (message : string).
Arguments Return {A} a.
Arguments Raise {A} message.

(** The mailbox seen from the poller: connections made so far and the log
    of [time.sleep] durations, latest first. *)
Record mail_world : Type := mk_mail_world {
  connections : nat;
  mail_slept : list nat
}.

Definition mail_sleep (d : nat) (w : mail_world) : mail_world :=
  mk_mail_world (connections w) (d :: mail_slept w).

(** What [Config().get_icloud_imap()] gives. *)
Inductive config_result : Type :=
| ConfigRaises       (* [Config()] raises *)
| ConfigMissing      (* [get_icloud_imap] returns [False] *)
| ConfigOK.

Section EmailVerificationHandler.

Variable account : string.
Variable config : config_result.
(** The session met by the n-th connection. *)
Variable imap : nat -> imap_session.

(** [_get_mail_code_by_icloud_imap(icloud_config, retry)].  The recursive
    call sits inside the [try], so what it raises is caught by the
    caller's [except Exception] and turned into [return None]. *)
Fixpoint _get_mail_code_by_icloud_imap (fuel retry : nat) (w : mail_world)
  : option (py_result (option string) * mail_world) :=
  match fuel with
  | O => None
  | S fuel' =>
      let w := if (0 <? retry)%nat then mail_sleep 3 w else w in
      if (20 <=? retry)%nat then Some (Raise "verification_code_timeout", w)
      else
        let session := imap (connections w) in
        let w := mk_mail_world (S (connections w)) (mail_slept w) in
        match session with
        | SessionRaises => Some (Return None, w)
        | SearchNotOK => Some (Return None, w)
        | SearchOK mails delete_ok =>
            match mails with
            | [] =>
                match _get_mail_code_by_icloud_imap fuel' (retry + 1) w with
                | None => None
                | Some (Return v, w') => Some (Return v, w')
                | Some (Raise _, w') => Some (Return None, w')
                end
            | _ =>
                Some (Return (scan_mails account delete_ok
                                (firstn 10 (rev mails))), w)
            end
        end
  end.

(** [_get_latest_mail_code()] *)
Definition _get_latest_mail_code (w : mail_world)
  : option (py_result (option string) * mail_world) :=
  match config with
  | ConfigRaises => Some (Raise "config", w)
  | ConfigMissing => Some (Return None, w)
  | ConfigOK =>
      match _get_mail_code_by_icloud_imap 21 0 w with
      | None => None
      | Some (Return verify_code, w') =>
          Some (Return (if truthy verify_code then verify_code else None), w')
      | Some (Raise e, w') => Some (Raise e, w')
      end
  end.

(** The [for attempt in range(max_retries)] loop of
    [get_verification_code], over the attempts still to make. *)
Fixpoint verification_attempts (attempts : list nat)
  (max_retries retry_interval : nat) (w : mail_world)
  : option (py_result (option string) * mail_world) :=
  match attempts with
  | [] => Some (Raise "verification_code_not_found_after_attempts", w)
  | attempt :: rest =>
      match _get_latest_mail_code w with
      | None => None
      | Some (Return verify_code, w) =>
          if (Z.of_nat attempt <? Z.of_nat max_retries - 1)%Z
             && negb (truthy verify_code)
          then verification_attempts rest max_retries retry_interval
                 (mail_sleep retry_interval w)
          else Some (Return verify_code, w)
      | Some (Raise e, w) =>
          if (Z.of_nat attempt <? Z.of_nat max_retries - 1)%Z
          then verification_attempts rest max_retries retry_interval
                 (mail_sleep retry_interval w)
          else Some (Raise "max_retries_reached_with_error", w)
      end
  end.

Definition get_verification_code (max_retries retry_interval : nat)
  (w : mail_world) : option (py_result (option string) * mail_world) :=
  verification_attempts (seq 0 max_retries) max_retries retry_interval w.

End EmailVerificationHandler.

(** *** The scenario of the specification: three messages that do not
    qualify and one whose body is [Your code is 482913]. *)

Definition plain_message (from to body : string) : email_message :=
  mk_email from to false [mk_part "text/plain" None (Some body)].

Definition example_account := "user@icloud.com".

Definition example_mails : list fetch_result :=
  [ Fetched true (plain_message "no-reply_at_cursor_sh_7f@icloud.com"
                    example_account "Your code is 482913");
    Fetched true (plain_message "news@example.com"
                    example_account "Offer 123456");
    Fetched true (plain_message "no-reply_at_cursor_sh_7f@icloud.com"
                    "someone@icloud.com" "Your code is 111111");
    Fetched true (plain_message "no-reply_at_cursor_sh_7f@icloud.com"
                    example_account "Welcome to Cursor") ].

Definition example_mailbox : nat -> imap_session :=
  fun _ => SearchOK example_mails true.

(** A mailbox that never holds a message. *)
Definition empty_mailbox : nat -> imap_session :=
  fun _ => SearchOK [] true.

(** A mailbox that holds mail and no code: the three messages of the
    scenario that do not qualify. *)
Definition codeless_mails : list fetch_result :=
  [ Fetched true (plain_message "news@example.com"
                    example_account "Offer 123456");
    Fetched true (plain_message "no-reply_at_cursor_sh_7f@icloud.com"
                    "someone@icloud.com" "Your code is 111111");
    Fetched true (plain_message "no-reply_at_cursor_sh_7f@icloud.com"
                    example_account "Welcome to Cursor") ].

Definition codeless_mailbox : nat -> imap_session :=
  fun _ => SearchOK codeless_mails true.

(** The log of sleeps, latest first, of a poll that finds the mailbox empty
    throughout: twenty waits of 3 seconds in each outer attempt and one
    wait of [retry_interval] between two attempts. *)
Fixpoint empty_mailbox_log (max_retries retry_interval : nat) : list nat :=
  match max_retries with
  | O => []
  | S n =>
      match n with
      | O => repeat 3 20
      | S _ => empty_mailbox_log n retry_interval
               ++ retry_interval :: repeat 3 20
      end
  end.

(** The reading of the timeout claim: on the empty mailbox the poll with the
    default arguments ends by raising. *)
Definition poll_raises_on_empty_mailbox : Prop :=
  exists (message : string) (w : mail_world),
    get_verification_code example_account ConfigOK empty_mailbox 5 60
      (mk_mail_world 0 []) = Some (Raise message, w).

(** ** src/auth/reset_machine.py: generate_new_ids *)

(** A JSON document as [json.load] returns it; an object keeps its members
    in order, as a Python dict does. *)
Inductive json : Type :=
| JNull
| JBool (b : bool)
| JInt (z : Z)
| JFloat (repr : string)
| JStr (s : string)
| JArr (items : list json)
| JObj (members : list (string * json)).

(** [os.urandom]: an endless source of bytes and the position reached. *)
Record rng : Type := mk_rng {
  rng_source : nat -> byte;
  rng_pos : nat
}.

Definition urandom (n : nat) (g : rng) : list byte * rng :=
  (map (rng_source g) (seq (rng_pos g) n),
   mk_rng (rng_source g) (rng_pos g + n)).

Definition byte_to_Z (b : byte) : Z := Z.of_N (Byte.to_N b).

(** [int.from_bytes(bs, byteorder=big)] *)
Definition int_from_bytes (bs : list byte) : Z :=
  fold_left (fun acc b => acc * 256 + byte_to_Z b)%Z bs 0%Z.

(** [uuid.UUID(bytes=bs, version=4).int]: the variant and version bits are
    forced onto the 128 random bits. *)
Definition uuid4_int (bs : list byte) : Z :=
  let int := int_from_bytes bs in
  let int := Z.land int (Z.lnot (Z.shiftl 0xc000 48)) in
  let int := Z.lor int (Z.shiftl 0x8000 48) in
  let int := Z.land int (Z.lnot (Z.shiftl 0xf000 64)) in
  let int := Z.lor int (Z.shiftl 4 76) in
  int.

Definition hex_char (d : Z) : ascii :=
  match String.get (Z.to_nat d) "0123456789abcdef" with
  | Some c => c
  | None => "0"%char
  end.

(** The digits of [n >= 0] in base 16, most significant first. *)
Fixpoint hex_digits (fuel : nat) (n : Z) : string :=
  match fuel with
  | O => EmptyString
  | S fuel' =>
      if (n <? 16)%Z then String (hex_char n) EmptyString
      else (hex_digits fuel' (n / 16) ++ String (hex_char (n mod 16)) EmptyString)%string
  end.

(** [format(n, x)] *)
Definition format_x (n : Z) : string :=
  hex_digits (S (Z.to_nat (Z.log2 n))) n.

Fixpoint zeros (n : nat) : string :=
  match n with
  | O => EmptyString
  | S n' => String "0" (zeros n')
  end.

(** [%032x % n] *)
Definition format_032x (n : Z) : string :=
  let s := format_x n in (zeros (32 - String.length s) ++ s)%string.

(** [str(uuid.UUID(int=n))] *)
Definition uuid_str (n : Z) : string :=
  let hex := format_032x n in
  (substring 0 8 hex ++ "-" ++ substring 8 4 hex ++ "-" ++
   substring 12 4 hex ++ "-" ++ substring 16 4 hex ++ "-" ++
   substring 20 (String.length hex - 20) hex)%string.

(** [str(uuid.uuid4())], reading 16 random bytes. *)
Definition uuid4_str (g : rng) : string * rng :=
  let (bs, g) := urandom 16 g in (uuid_str (uuid4_int bs), g).

(** [digest.hex()]: two lowercase digits for each byte. *)
Fixpoint hexdigest (digest : list byte) : string :=
  match digest with
  | [] => EmptyString
  | b :: rest =>
      String (hex_char (byte_to_Z b / 16))
        (String (hex_char (byte_to_Z b mod 16)) (hexdigest rest))
  end.

Definition upper_char (c : ascii) : ascii :=
  let n := nat_of_ascii c in
  if ((97 <=? n) && (n <=? 122))%nat then ascii_of_nat (n - 32) else c.

(** [s.upper()] on ASCII text *)
Fixpoint str_upper (s : string) : string :=
  match s with
  | EmptyString => EmptyString
  | String c s' => String (upper_char c) (str_upper s')
  end.

Definition key_devDeviceId := "telemetry.devDeviceId".
Definition key_macMachineId := "telemetry.macMachineId".
Definition key_machineId := "telemetry.machineId".
Definition key_sqmId := "telemetry.sqmId".

Definition identity_keys : list string :=
  [key_devDeviceId; key_macMachineId; key_machineId; key_sqmId].

(** The four values in the order the function computes them. *)
Record machine_ids : Type := mk_machine_ids {
  dev_device_id : string;
  machine_id : string;
  mac_machine_id : string;
  sqm_id : string
}.

(** The dict that [generate_new_ids] returns. *)
Definition ids_dict (ids : machine_ids) : list (string * json) :=
  [ (key_devDeviceId, JStr (dev_device_id ids));
    (key_macMachineId, JStr (mac_machine_id ids));
    (key_machineId, JStr (machine_id ids));
    (key_sqmId, JStr (sqm_id ids)) ].

(** *** Formats *)

Definition is_lower_hex (c : ascii) : bool :=
  let n := nat_of_ascii c in
  (is_digit c || (97 <=? n) && (n <=? 102))%nat.

Definition is_upper_hex (c : ascii) : bool :=
  let n := nat_of_ascii c in
  (is_digit c || (65 <=? n) && (n <=? 70))%nat.

Fixpoint string_forall (p : ascii -> bool) (s : string) : bool :=
  match s with
  | EmptyString => true
  | String c s' => p c && string_forall p s'
  end.

Definition is_hyphen_position (i : nat) : bool :=
  ((i =? 8) || (i =? 13) || (i =? 18) || (i =? 23))%nat.

(** The text from position [i] on of a 36-character UUID: hyphens at the
    positions 8, 13, 18 and 23, digits accepted by [hexp] elsewhere. *)
Fixpoint uuid_shape_from (hexp : ascii -> bool) (i : nat) (s : string) : bool :=
  match s with
  | EmptyString => (i =? 36)%nat
  | String c s' =>
      (if is_hyphen_position i then Ascii.eqb c "-" else hexp c)
      && uuid_shape_from hexp (S i) s'
  end.

Definition is_uuid (s : string) : bool := uuid_shape_from is_lower_hex 0 s.
Definition is_upper_uuid (s : string) : bool := uuid_shape_from is_upper_hex 0 s.

(** [{UPPERCASE-UUID}] *)
Definition is_braced_upper_uuid (s : string) : bool :=
  match s with
  | String "{" rest =>
      (String.length rest =? 37)%nat &&
      is_upper_uuid (substring 0 36 rest) &&
      (substring 36 1 rest =? "}")
  | _ => false
  end.

Definition is_lower_hex_of_length (n : nat) (s : string) : bool :=
  (String.length s =? n)%nat && string_forall is_lower_hex s.

Section IdentityGenerator.

(** [hashlib.sha256(m).digest()] and [hashlib.sha512(m).digest()] *)
Variable sha256 : list byte -> list byte.
Variable sha512 : list byte -> list byte.

Definition generate_new_ids (g : rng) : machine_ids * rng :=
  let (dev_device_id, g) := uuid4_str g in
  let (seed, g) := urandom 32 g in
  let machine_id := hexdigest (sha256 seed) in
  let (seed, g) := urandom 64 g in
  let mac_machine_id := hexdigest (sha512 seed) in
  let (u, g) := uuid4_str g in
  let sqm_id := ("{" ++ str_upper u ++ "}")%string in
  (mk_machine_ids dev_device_id machine_id mac_machine_id sqm_id, g).

End IdentityGenerator.

(** ** src/auth/reset_machine.py: reset_machine_ids *)

(** *** Python dicts as ordered association lists *)

(** [d[k] = v]: the value is replaced where the key is, a new key goes last. *)
Fixpoint dict_set (k : string) (v : json) (d : list (string * json))
  : list (string * json) :=
  match d with
  | [] => [(k, v)]
  | (k', v') :: rest =>
      if k' =? k then (k', v) :: rest else (k', v') :: dict_set k v rest
  end.

(** [d.update(other)] *)
Definition dict_update (d other : list (string * json)) : list (string * json) :=
  fold_left (fun acc kv => dict_set (fst kv) (snd kv) acc) other d.

(** [d.get(k)] *)
Fixpoint dict_get (k : string) (d : list (string * json)) : option json :=
  match d with
  | [] => None
  | (k', v) :: rest => if k' =? k then Some v else dict_get k rest
  end.

(** *** The identity file *)

(** The file at [db_path]: whether it exists, whether [os.access] grants
    reading and writing, and its text. *)
Record storage_file : Type := mk_storage_file {
  file_exists : bool;
  file_access_rw : bool;
  file_content : string
}.

(** Which file operation of the call raises. *)
Inductive file_fault : Type :=
| NoFileFault
| ReadOpenFails                 (* [open(path, r)] raises *)
| WriteOpenFails                (* [open(path, w)] raises, nothing truncated *)
| WriteFailsAfter (written : nat).  (* the dump raises after that many characters *)

Definition set_content (f : storage_file) (text : string) : storage_file :=
  mk_storage_file (file_exists f) (file_access_rw f) text.

Section MachineIDResetter.

(** [json.load] on the text of the file ([None] when it raises) and
    [json.dump(_, indent=4)] as the text it writes. *)
Variable json_load : string -> option json.
Variable json_dump : json -> string.
Variable sha256 : list byte -> list byte.
Variable sha512 : list byte -> list byte.

(** [reset_machine_ids]: the returned flag, the file afterwards and the
    random source afterwards.  [open(path, w)] empties the file before the
    dump starts writing, so a dump that raises leaves what it had written. *)
Definition reset_machine_ids (fault : file_fault) (f : storage_file) (g : rng)
  : bool * storage_file * rng :=
  if negb (file_exists f) then (false, f, g)
  else if negb (file_access_rw f) then (false, f, g)
  else
    match fault with
    | ReadOpenFails => (false, f, g)
    | _ =>
        match json_load (file_content f) with
        | None => (false, f, g)
        | Some config =>
            let (new_ids, g) := generate_new_ids sha256 sha512 g in
            match config with
            | JObj members =>
                let config := JObj (dict_update members (ids_dict new_ids)) in
                match fault with
                | WriteOpenFails => (false, f, g)
                | WriteFailsAfter written =>
                    (false,
                     set_content f (substring 0 written (json_dump config)), g)
                | _ => (true, set_content f (json_dump config), g)
                end
            | _ => (false, f, g)
            end
        end
    end.

End MachineIDResetter.

(** *** A reference codec for the examples

    [json.load] and [json.dump] belong to the Python library.  The closed
    examples below use this codec, which covers objects, arrays, strings,
    integers, booleans and null over ASCII text; it rejects floats. *)

Fixpoint skip_ws (s : string) : string :=
  match s with
  | String c r =>
      if Ascii.eqb c " " || Ascii.eqb c "010" || Ascii.eqb c "013"
         || Ascii.eqb c "009"
      then skip_ws r else s
  | EmptyString => s
  end.

Definition hex_value (c : ascii) : option N :=
  let n := N_of_ascii c in
  if ((48 <=? n) && (n <=? 57))%N then Some (n - 48)%N
  else if ((97 <=? n) && (n <=? 102))%N then Some (n - 87)%N
  else if ((65 <=? n) && (n <=? 70))%N then Some (n - 55)%N
  else None.

(** The characters of a string up to its closing quote, escapes decoded. *)
Fixpoint parse_string_body (s : string) (acc : string) : option (string * string) :=
  match s with
  | EmptyString => None
  | String c r =>
      if Ascii.eqb c dq then Some (acc, r)
      else if Ascii.eqb c "\" then
        match r with
        | String e r' =>
            let plain (d : ascii) :=
              parse_string_body r' (acc ++ String d EmptyString) in
            if Ascii.eqb e dq then plain dq
            else if Ascii.eqb e "\" then plain "\"%char
            else if Ascii.eqb e "/" then plain "/"%char
            else if Ascii.eqb e "n" then plain "010"%char
            else if Ascii.eqb e "r" then plain "013"%char
            else if Ascii.eqb e "t" then plain "009"%char
            else if Ascii.eqb e "b" then plain "008"%char
            else if Ascii.eqb e "f" then plain "012"%char
            else if Ascii.eqb e "u" then
              match r' with
              | String h1 (String h2 (String h3 (String h4 r''))) =>
                  match hex_value h1, hex_value h2, hex_value h3, hex_value h4 with
                  | Some 0%N, Some 0%N, Some a, Some b =>
                      parse_string_body r''
                        (acc ++ String (ascii_of_N (16 * a + b)) EmptyString)
                  | _, _, _, _ => None
                  end
              | _ => None
              end
            else None
        | EmptyString => None
        end
      else parse_string_body r (acc ++ String c EmptyString)
  end.

(** The digits at the start of [s], as a number, and the rest. *)
Fixpoint parse_digits (s : string) (acc : Z) : Z * string :=
  match s with
  | String c r =>
      if is_digit c
      then parse_digits r (acc * 10 + Z.of_nat (nat_of_ascii c - 48))%Z
      else (acc, s)
  | EmptyString => (acc, s)
  end.

Definition starts_number_tail (s : string) : bool :=
  match s with
  | String c _ => Ascii.eqb c "." || Ascii.eqb c "e" || Ascii.eqb c "E"
  | EmptyString => false
  end.

Definition parse_int (s : string) : option (json * string) :=
  let (negative, body) :=
    match s with
    | String c r => if Ascii.eqb c "-" then (true, r) else (false, s)
    | EmptyString => (false, s)
    end in
  match body with
  | String c r =>
      if is_digit c then
        if Ascii.eqb c "0" && opt_word (first_char r) then None
        else
          let (n, rest) := parse_digits body 0%Z in
          if starts_number_tail rest then None
          else Some (JInt (if negative then (- n)%Z else n), rest)
      else None
  | EmptyString => None
  end.

Fixpoint string_drop (n : nat) (s : string) : string :=
  match n, s with
  | S n', String _ r => string_drop n' r
  | _, _ => s
  end.

Fixpoint parse_value (fuel : nat) (s : string) : option (json * string) :=
  match fuel with
  | O => None
  | S fuel' =>
      let s := skip_ws s in
      match s with
      | EmptyString => None
      | String c r =>
          if Ascii.eqb c "{" then
            match skip_ws r with
            | String c' r' =>
                if Ascii.eqb c' "}" then Some (JObj [], r')
                else parse_members fuel' (String c' r') []
            | EmptyString => None
            end
          else if Ascii.eqb c "[" then
            match skip_ws r with
            | String c' r' =>
                if Ascii.eqb c' "]" then Some (JArr [], r')
                else parse_items fuel' (String c' r') []
            | EmptyString => None
            end
          else if Ascii.eqb c dq then
            match parse_string_body r EmptyString with
            | Some (text, rest) => Some (JStr text, rest)
            | None => None
            end
          else if starts_with "true" s then Some (JBool true, string_drop 4 s)
          else if starts_with "false" s then Some (JBool false, string_drop 5 s)
          else if starts_with "null" s then Some (JNull, string_drop 4 s)
          else parse_int s
      end
  end
with parse_items (fuel : nat) (s : string) (acc : list json)
  : option (json * string) :=
  match fuel with
  | O => None
  | S fuel' =>
      match parse_value fuel' s with
      | Some (v, rest) =>
          match skip_ws rest with
          | String c r =>
              if Ascii.eqb c "," then parse_items fuel' r (acc ++ [v])
              else if Ascii.eqb c "]" then Some (JArr (acc ++ [v]), r)
              else None
          | EmptyString => None
          end
      | None => None
      end
  end
with parse_members (fuel : nat) (s : string) (acc : list (string * json))
  : option (json * string) :=
  match fuel with
  | O => None
  | S fuel' =>
      match skip_ws s with
      | String c r =>
          if Ascii.eqb c dq then
            match parse_string_body r EmptyString with
            | Some (key, rest) =>
                match skip_ws rest with
                | String c' r' =>
                    if Ascii.eqb c' ":" then
                      match parse_value fuel' r' with
                      | Some (v, rest') =>
                          match skip_ws rest' with
                          | String c'' r'' =>
                              if Ascii.eqb c'' ","
                              then parse_members fuel' r'' (dict_set key v acc)
                              else if Ascii.eqb c'' "}"
                              then Some (JObj (dict_set key v acc), r'')
                              else None
                          | EmptyString => None
                          end
                      | None => None
                      end
                    else None
                | EmptyString => None
                end
            | None => None
            end
          else None
      | EmptyString => None
      end
  end.

(** [json.loads] of the reference codec. *)
Definition ref_json_load (text : string) : option json :=
  match parse_value (S (String.length text)) text with
  | Some (j, rest) =>
      match skip_ws rest with
      | EmptyString => Some j
      | String _ _ => None
      end
  | None => None
  end.

Definition escape_char (c : ascii) : string :=
  if Ascii.eqb c dq then String "\" (String dq EmptyString)
  else if Ascii.eqb c "\" then "\\"
  else if Ascii.eqb c "010" then "\n"
  else if Ascii.eqb c "013" then "\r"
  else if Ascii.eqb c "009" then "\t"
  else if Ascii.eqb c "008" then "\b"
  else if Ascii.eqb c "012" then "\f"
  else
    let n := nat_of_ascii c in
    if ((32 <=? n) && (n <=? 126))%nat then String c EmptyString
    else ("\u00" ++ String (hex_char (Z.of_nat n / 16))
                      (String (hex_char (Z.of_nat n mod 16)) EmptyString))%string.

Fixpoint escape_string (s : string) : string :=
  match s with
  | EmptyString => EmptyString
  | String c r => (escape_char c ++ escape_string r)%string
  end.

Definition quote_string (s : string) : string :=
  (String dq (escape_string s) ++ String dq EmptyString)%string.

Fixpoint spaces (n : nat) : string :=
  match n with
  | O => EmptyString
  | S n' => String " " (spaces n')
  end.

(** A line break followed by the indentation of nesting [level]. *)
Definition newline_indent (level : nat) : string :=
  String "010" (spaces (4 * level)).

Fixpoint join (sep : string) (l : list string) : string :=
  match l with
  | [] => EmptyString
  | [x] => x
  | x :: rest => (x ++ sep ++ join sep rest)%string
  end.

Definition decimal (z : Z) : string :=
  DecimalString.NilZero.string_of_int (Z.to_int z).

(** [json.dumps(j, indent=4)] of the reference codec at nesting [level]. *)
Fixpoint dump_at (level : nat) (j : json) : string :=
  match j with
  | JNull => "null"
  | JBool true => "true"
  | JBool false => "false"
  | JInt z => decimal z
  | JFloat repr => repr
  | JStr s => quote_string s
  | JArr [] => "[]"
  | JArr items =>
      ("[" ++ newline_indent (S level)
       ++ join ("," ++ newline_indent (S level))
            (map (dump_at (S level)) items)
       ++ newline_indent level ++ "]")%string
  | JObj [] => "{}"
  | JObj members =>
      ("{" ++ newline_indent (S level)
       ++ join ("," ++ newline_indent (S level))
            (map (fun kv => match kv with
                            | (k, v) => (quote_string k ++ ": " ++ dump_at (S level) v)%string
                            end) members)
       ++ newline_indent level ++ "}")%string
  end.

Definition ref_json_dump (j : json) : string := dump_at 0 j.

(** Stand-ins for the hash functions in the examples: any function with
    the digest size of the real one will do. *)
Definition stub_sha256 (m : list byte) : list byte :=
  firstn 32 (m ++ repeat x00 32).
Definition stub_sha512 (m : list byte) : list byte :=
  firstn 64 (m ++ repeat x00 64).

(** A random source for the examples. *)
Definition example_rng : rng :=
  mk_rng (fun i => match Byte.of_N (N.of_nat (i * 37 mod 256)) with
                   | Some b => b
                   | None => x00
                   end) 0.

(** An identity file with one foreign key and an old device id. *)
Definition example_file_text : string :=
  ("{" ++ quote_string "theme" ++ ": " ++ quote_string "dark" ++ ", "
   ++ quote_string "telemetry.devDeviceId" ++ ": " ++ quote_string "old"
   ++ "}")%string.

Definition example_file : storage_file :=
  mk_storage_file true true example_file_text.

(** *** Helpers for the statements about [update_auth] *)

(** The keys that [update_auth] may write. *)
Definition auth_keys : list string :=
  [CursorAuthManager.key_cachedSignUpType; CursorAuthManager.key_cachedEmail;
   CursorAuthManager.key_accessToken; CursorAuthManager.key_refreshToken].

Definition is_auth_key (k : string) : bool :=
  existsb (String.eqb k) auth_keys.

(** The rows of a table whose key is not one of those. *)
Definition foreign_rows (t : CursorAuthManager.itemTable)
  : CursorAuthManager.itemTable :=
  filter (fun r => negb (is_auth_key (fst r))) t.

(** Whether the fault strikes a call that runs [n] pairs. *)
Definition fault_strikes (f : CursorAuthManager.db_fault) (n : nat) : bool :=
  match f with
  | CursorAuthManager.NoFault => false
  | CursorAuthManager.ConnectFails => true
  | CursorAuthManager.ExecuteFails i => (i <? n)%nat
  | CursorAuthManager.CommitFails => true
  end.

(** Whether a read of the cookies yields no token: it raises, holds no
    session cookie, or holds one that cannot be split. *)
Definition read_fails (answer : option (list cookie)) : bool :=
  match answer with
  | None => true
  | Some cookies =>
      match scan_cookies cookies with
      | Found _ => false
      | _ => true
      end
  end.

(** Whether [json.load] gave an object. *)
Definition loads_object (j : option json) : bool :=
  match j with
  | Some (JObj _) => true
  | _ => false
  end.

(** Whether a message passes the recipient and sender tests of the scan. *)
Definition qualifies (account : string) (m : email_message) : bool :=
  contains account (header_to m) && contains sender_filter (header_from m).

(** ** src/core/cursor_pro_keep_alive.py: handle_turnstile *)

Inductive VerificationStatus : Type :=
| PASSWORD_PAGE
| CAPTCHA_PAGE
| ACCOUNT_SETTINGS.

(** What [tab.ele] gives for the selector of each status, in the order of
    the enumeration. *)
Record markers : Type := mk_markers {
  password_marker : ele_result;
  captcha_marker : ele_result;
  settings_marker : ele_result
}.

(** [check_verification_success]: the first status whose marker is on the
    page; a lookup that raises ends the function. *)
Definition check_verification_success (m : markers)
  : py_result (option VerificationStatus) :=
  match password_marker m with
  | EleRaises => Raise "ele"
  | EleFound => Return (Some PASSWORD_PAGE)
  | EleAbsent =>
      match captcha_marker m with
      | EleRaises => Raise "ele"
      | EleFound => Return (Some CAPTCHA_PAGE)
      | EleAbsent =>
          match settings_marker m with
          | EleRaises => Raise "ele"
          | EleFound => Return (Some ACCOUNT_SETTINGS)
          | EleAbsent => Return None
          end
      end
  end.

(** The lookup of the challenge box and the click on it. *)
Inductive challenge_result : Type :=
| ChallengeRaises                 (* a step of the lookup raises *)
| ChallengeAbsent                 (* the lookup gives a falsy element *)
| ChallengeFound (clicked : bool).  (* [false]: the click raises *)

(** What the page shows during one attempt: the challenge box, the markers
    right after the click and the markers at the check that ends the
    attempt. *)
Record turnstile_pass : Type := mk_turnstile_pass {
  challenge : challenge_result;
  after_click : markers;
  at_check : markers
}.

Inductive attempt_outcome : Type :=
| AttemptReturnsTrue
| AttemptRaises      (* leaves the loop for the outer [except] *)
| AttemptContinues.

(** One pass of the [while retry_count < max_retries] loop.  The inner
    [try] swallows what the lookup, the click and the first check raise;
    the check after it is outside that [try]. *)
Definition turnstile_attempt (p : turnstile_pass) : attempt_outcome :=
  let check_again :=
    match check_verification_success (at_check p) with
    | Return (Some _) => AttemptReturnsTrue
    | Return None => AttemptContinues
    | Raise _ => AttemptRaises
    end in
  match challenge p with
  | ChallengeFound true =>
      match check_verification_success (after_click p) with
      | Return (Some _) => AttemptReturnsTrue
      | _ => check_again
      end
  | _ => check_again
  end.

(** The loop; the result is what [handle_turnstile] returns, or the
    [TurnstileError] it raises, and the number of attempts made. *)
Fixpoint turnstile_loop (page : nat -> turnstile_pass)
  (fuel retry_count max_retries : nat) : option (py_result bool * nat) :=
  match fuel with
  | O => None
  | S fuel' =>
      if (retry_count <? max_retries)%nat then
        let retry_count := retry_count + 1 in
        match turnstile_attempt (page (retry_count - 1)) with
        | AttemptReturnsTrue => Some (Return true, retry_count)
        | AttemptRaises => Some (Raise "TurnstileError", retry_count)
        | AttemptContinues =>
            turnstile_loop page fuel' retry_count max_retries
        end
      else Some (Return false, retry_count)
  end.

Definition handle_turnstile (page : nat -> turnstile_pass) (max_retries : nat)
  : option (py_result bool * nat) :=
  turnstile_loop page (S max_retries) 0 max_retries.

(** ** src/core/cursor_pro_keep_alive.py: save_account_to_csv and the end
    of main *)

Definition csv_header : list string :=
  ["created_date"; "email"; "password"; "token"; "first_name"; "last_name"].

(** The account data handed to [save_account_to_csv]. *)
Record account_info : Type := mk_account_info {
  info_email : string;
  info_password : string;
  info_token : string;
  info_first_name : string;
  info_last_name : string
}.

(** The row written, in the order of [fieldnames]. *)
Definition csv_row (created_date : string) (a : account_info) : list string :=
  [created_date; info_email a; info_password a; info_token a;
   info_first_name a; info_last_name a].

(** The CSV file: [None] when it does not exist, else its rows.
    [save_account_to_csv] appends; [failed] says that creating the
    directory or opening the file raises, before anything is written. *)
Definition save_account_to_csv (failed : bool) (created_date : string)
  (a : account_info) (file : option (list (list string)))
  : bool * option (list (list string)) :=
  if failed then (false, file)
  else
    match file with
    | None => (true, Some [csv_header; csv_row created_date a])
    | Some rows => (true, Some (rows ++ [csv_row created_date a]))
    end.

(** The state that the end of a run may change. *)
Record machine : Type := mk_machine {
  accounts_csv : option (list (list string));
  item_table : CursorAuthManager.itemTable;
  storage_json : storage_file;
  random_source : rng;
  tab_state : tab_world
}.

(** The faults met by the three writes. *)
Record run_faults : Type := mk_run_faults {
  csv_failed : bool;
  db_fault_met : CursorAuthManager.db_fault;
  file_fault_met : file_fault
}.

Section MainTail.

Variable json_load : string -> option json.
Variable json_dump : json -> string.
Variable sha256 : list byte -> list byte.
Variable sha512 : list byte -> list byte.
Variable tab_cookies : nat -> option (list cookie).

(** [reset_machine_id(greater_than_0_45)]: for recent versions the script
    of go_cursor_help is run instead, which is outside this model and
    leaves the modelled file alone. *)
Definition reset_machine_id (greater_than_0_45 : bool) (fault : file_fault)
  (m : machine) : machine :=
  if greater_than_0_45 then m
  else
    let '(_, f, g) :=
      reset_machine_ids json_load json_dump sha256 sha512 fault
        (storage_json m) (random_source m) in
    mk_machine (accounts_csv m) (item_table m) f g (tab_state m).

(** Lines 736-760 of [main]: what follows [sign_up_account].  The result is
    [None] only if the token loop ran out of fuel. *)
Definition finish_run (signed_up greater_than_0_45 : bool) (faults : run_faults)
  (created_date account password first_name last_name : string) (m : machine)
  : option machine :=
  if signed_up then
    match get_cursor_session_token tab_cookies 3 2 (tab_state m) with
    | None => None
    | Some (token, tw) =>
        let m := mk_machine (accounts_csv m) (item_table m) (storage_json m)
                   (random_source m) tw in
        match token with
        | Some t =>
            if truthy token then
              let info := mk_account_info account password t
                            first_name last_name in
              let (_, csv) :=
                save_account_to_csv (csv_failed faults) created_date info
                  (accounts_csv m) in
              let (_, db) :=
                CursorAuthManager.update_auth (db_fault_met faults)
                  (Some account) (Some t) (Some t) (item_table m) in
              let m := mk_machine csv db (storage_json m)
                         (random_source m) (tab_state m) in
              Some (reset_machine_id greater_than_0_45
                      (file_fault_met faults) m)
            else Some m
        | None => Some m
        end
    end
  else Some m.

End MainTail.

(** A part that the multipart walk accepts: [text/plain] and no
    [attachment] in its disposition. *)
Definition is_inline_plain (p : mime_part) : bool :=
  (content_type p =? "text/plain") &&
  negb (contains "attachment" (str_of_header (content_disposition p))).

(** The [n] bytes that the random source gives [off] bytes after its
    position. *)
Definition bytes_at (g : rng) (off n : nat) : list byte :=
  map (rng_source g) (seq (rng_pos g + off) n).

(** Whether a key occurs in a dict. *)
Definition has_key (d : list (string * json)) (k : string) : bool :=
  existsb (String.eqb k) (map fst d).

(* ================================================================== *)
(** * Part II: lemmas and theorems                                     *)
(* ================================================================== *)

(** ** Credential persister *)

Section CursorAuthFacts.
Import CursorAuthManager.

Lemma select_count_values (k : string) (t : itemTable) :
  List.length (select_values k t) = select_count k t.
Proof. unfold select_values, select_count. apply length_map. Qed.

Lemma select_values_app (k : string) (t u : itemTable) :
  select_values k (t ++ u) = select_values k t ++ select_values k u.
Proof. unfold select_values. now rewrite filter_app, map_app. Qed.

Lemma select_values_update_rows (k k' : string) (v : option string) (t : itemTable) :
  select_values k' (update_rows k v t) =
  if k' =? k then repeat v (select_count k t) else select_values k' t.
Proof.
  unfold select_values, select_count, update_rows.
  induction t as [|[k0 v0] t IH]; simpl.
  - now destruct (k' =? k).
  - destruct (String.eqb_spec k0 k) as [->|Hk0]; simpl.
    + destruct (String.eqb_spec k k') as [<-|Hk]; simpl.
      * rewrite String.eqb_refl in *. now rewrite IH.
      * rewrite (proj2 (String.eqb_neq k' k)) in * by congruence. exact IH.
    + destruct (String.eqb_spec k0 k') as [<-|Hk]; simpl.
      * rewrite (proj2 (String.eqb_neq k0 k)) in * by congruence.
        now rewrite IH.
      * exact IH.
Qed.

Lemma select_values_none (k : string) (t : itemTable) :
  select_count k t = 0 -> select_values k t = [].
Proof.
  rewrite <- select_count_values. now destruct (select_values k t).
Qed.

(** What one pass of the loop body does to the rows of a key. *)
Lemma select_values_upsert (k k' : string) (v : option string) (t : itemTable) :
  select_values k' (upsert (k, v) t) =
  if k' =? k then repeat v (Nat.max 1 (select_count k t))
  else select_values k' t.
Proof.
  unfold upsert. destruct (Nat.eqb_spec (select_count k t) 0) as [Hz|Hnz].
  - unfold insert_row. rewrite select_values_app, Hz.
    unfold select_values at 2. simpl. rewrite (String.eqb_sym k k').
    destruct (String.eqb_spec k' k) as [->|Hk]; simpl.
    + now rewrite (select_values_none k t Hz).
    + now rewrite app_nil_r.
  - rewrite select_values_update_rows.
    replace (Nat.max 1 (select_count k t)) with (select_count k t) by lia.
    reflexivity.
Qed.

Lemma select_count_upsert (k k' : string) (v : option string) (t : itemTable) :
  select_count k' (upsert (k, v) t) =
  if k' =? k then Nat.max 1 (select_count k t) else select_count k' t.
Proof.
  rewrite <- !select_count_values, select_values_upsert.
  destruct (k' =? k); [now rewrite repeat_length, select_count_values | easy].
Qed.

Lemma run_updates_Some (f : db_fault) (updates : list row) :
  forall i t t', run_updates f i updates t = Some t' -> t' = run_all updates t.
Proof.
  induction updates as [|kv rest IH]; simpl; intros i t t' H.
  - now inversion H.
  - destruct (execute_fails f i); [discriminate|]. exact (IH _ _ _ H).
Qed.

Lemma run_updates_NoFault (updates : list row) :
  forall i t, run_updates NoFault i updates t = Some (run_all updates t).
Proof.
  induction updates as [|kv rest IH]; simpl; intros i t; [reflexivity|].
  apply IH.
Qed.

Lemma update_auth_true (f : db_fault) (e a r : option string) (db t : itemTable) :
  update_auth f e a r db = (true, t) -> t = run_all (build_updates e a r) db.
Proof.
  unfold update_auth.
  destruct (build_updates e a r) as [|kv rest] eqn:Hu; [discriminate|].
  destruct f; try discriminate;
    destruct (run_updates _ 0 (kv :: rest) db) as [t0|] eqn:Hr;
    try discriminate; intros H; inversion H; subst;
    eapply run_updates_Some; eassumption.
Qed.

Lemma update_auth_NoFault (e a r : option string) (db : itemTable) :
  update_auth NoFault e a r db = (true, run_all (build_updates e a r) db).
Proof.
  unfold update_auth.
  destruct (build_updates e a r) as [|kv rest] eqn:Hu.
  - destruct e, a, r; discriminate.
  - now rewrite run_updates_NoFault.
Qed.

Lemma select_values_run_all_other (k : string) (updates : list row) :
  forall t, ~ In k (map fst updates) ->
  select_values k (run_all updates t) = select_values k t.
Proof.
  induction updates as [|[k0 v0] rest IH]; intros t Hn; [reflexivity|].
  simpl in Hn.
  change (run_all ((k0, v0) :: rest) t) with (run_all rest (upsert (k0, v0) t)).
  rewrite IH by tauto.
  rewrite select_values_upsert.
  rewrite (proj2 (String.eqb_neq k k0)); [reflexivity|]. intros ->. tauto.
Qed.

Lemma select_values_run_all_in (k : string) (v : option string) (updates : list row) :
  forall t, NoDup (map fst updates) -> In (k, v) updates ->
  select_values k (run_all updates t) = repeat v (Nat.max 1 (select_count k t)).
Proof.
  induction updates as [|[k0 v0] rest IH]; intros t Hnd Hin; [destruct Hin|].
  simpl in Hnd, Hin.
  inversion Hnd as [|? ? Hnot Hnd']; subst.
  destruct Hin as [Heq|Hin].
  - inversion Heq; subst.
    change (run_all ((k, v) :: rest) t) with (run_all rest (upsert (k, v) t)).
    rewrite select_values_run_all_other by assumption.
    now rewrite select_values_upsert, String.eqb_refl.
  - change (run_all ((k0, v0) :: rest) t) with (run_all rest (upsert (k0, v0) t)).
    rewrite IH by assumption.
    rewrite select_count_upsert.
    rewrite (proj2 (String.eqb_neq k k0)); [reflexivity|].
    intros ->. apply Hnot. change k0 with (fst (k0, v)). now apply in_map.
Qed.

Lemma build_updates_NoDup (e a r : option string) :
  NoDup (map fst (build_updates e a r)).
Proof.
  destruct e, a, r; simpl; repeat constructor; simpl;
    intuition discriminate.
Qed.

Lemma build_updates_marker (e a r : option string) :
  In (key_cachedSignUpType, Some "Auth_0") (build_updates e a r).
Proof. destruct e, a, r; simpl; auto. Qed.

(** C3: when [access_token] is given, the pair appended for
    [cursorAuth/accessToken] carries the value of [refresh_token]; after a
    successful call every row under that key holds the refresh token's value,
    and when the refresh token is given too the rows under
    [cursorAuth/refreshToken] hold the same value. *)
Theorem update_auth_access_token_is_refresh_token :
  forall (f : db_fault) (e r : option string) (a : string) (db t : itemTable),
    update_auth f e (Some a) r db = (true, t) ->
    In (key_accessToken, r) (build_updates e (Some a) r) /\
    select_values key_accessToken t =
      repeat r (Nat.max 1 (select_count key_accessToken db)) /\
    (forall rt, r = Some rt ->
       select_values key_refreshToken t =
         repeat r (Nat.max 1 (select_count key_refreshToken db))).
Proof.
  intros f e r a db t H. apply update_auth_true in H. subst t.
  assert (Hin : In (key_accessToken, r) (build_updates e (Some a) r))
    by (destruct e, r; simpl; auto).
  split; [exact Hin|]. split.
  - apply select_values_run_all_in; [apply build_updates_NoDup | exact Hin].
  - intros rt ->. apply select_values_run_all_in; [apply build_updates_NoDup|].
    destruct e; simpl; auto.
Qed.

Lemma update_auth_access_token_is_refresh_token_witness :
  update_auth NoFault (Some "u@icloud.com") (Some "AAA") (Some "BBB") [] =
    (true, [(key_cachedSignUpType, Some "Auth_0");
            (key_cachedEmail, Some "u@icloud.com");
            (key_accessToken, Some "BBB");
            (key_refreshToken, Some "BBB")]) /\
  select_values key_accessToken
    [(key_cachedSignUpType, Some "Auth_0");
     (key_cachedEmail, Some "u@icloud.com");
     (key_accessToken, Some "BBB");
     (key_refreshToken, Some "BBB")] = [Some "BBB"].
Proof.
  split; [reflexivity|].
  exact (proj1 (proj2 (update_auth_access_token_is_refresh_token
    NoFault (Some "u@icloud.com") (Some "BBB") "AAA" [] _ eq_refl))).
Defined.

(** C6: two successful calls with the same email.  The second call finds the
    row of [cursorAuth/cachedEmail] and updates it: the number of rows under
    that key is the same after the second call as after the first, and a
    table that had at most one such row ends with exactly one, holding the
    email.  After each successful call the rows under
    [cursorAuth/cachedSignUpType] exist and hold [Auth_0]. *)
Theorem update_auth_twice_one_email_row :
  forall (f1 f2 : db_fault) (e : string) (a1 r1 a2 r2 : option string)
         (db t1 t2 : itemTable),
    update_auth f1 (Some e) a1 r1 db = (true, t1) ->
    update_auth f2 (Some e) a2 r2 t1 = (true, t2) ->
    select_count key_cachedEmail db <= 1 ->
    select_values key_cachedEmail t1 = [Some e] /\
    select_values key_cachedEmail t2 = [Some e] /\
    select_count key_cachedEmail t2 = 1 /\
    select_count key_cachedEmail t2 = select_count key_cachedEmail t1 /\
    select_values key_cachedSignUpType t1 =
      repeat (Some "Auth_0") (Nat.max 1 (select_count key_cachedSignUpType db)) /\
    select_values key_cachedSignUpType t2 =
      repeat (Some "Auth_0") (Nat.max 1 (select_count key_cachedSignUpType t1)).
Proof.
  intros f1 f2 e a1 r1 a2 r2 db t1 t2 H1 H2 Hdb.
  apply update_auth_true in H1. apply update_auth_true in H2.
  assert (Hin : forall a r,
    In (key_cachedEmail, Some e) (build_updates (Some e) a r))
    by (intros a r; destruct a, r; simpl; auto).
  assert (E1 : select_values key_cachedEmail t1 = [Some e]).
  { subst t1. rewrite (select_values_run_all_in _ (Some e));
      [|apply build_updates_NoDup|apply Hin].
    now replace (Nat.max 1 (select_count key_cachedEmail db)) with 1 by lia. }
  assert (C1 : select_count key_cachedEmail t1 = 1)
    by (now rewrite <- select_count_values, E1).
  assert (E2 : select_values key_cachedEmail t2 = [Some e]).
  { subst t2. rewrite (select_values_run_all_in _ (Some e));
      [|apply build_updates_NoDup|apply Hin].
    now rewrite C1. }
  assert (C2 : select_count key_cachedEmail t2 = 1)
    by (now rewrite <- select_count_values, E2).
  repeat split; try assumption; try congruence.
  - subst t1. apply select_values_run_all_in;
      [apply build_updates_NoDup | apply build_updates_marker].
  - subst t2. apply select_values_run_all_in;
      [apply build_updates_NoDup | apply build_updates_marker].
Qed.

Lemma update_auth_twice_one_email_row_witness :
  select_values key_cachedEmail
    (snd (update_auth NoFault (Some "u@icloud.com") (Some "T") (Some "T")
       (snd (update_auth NoFault (Some "u@icloud.com") (Some "T") (Some "T") []))))
  = [Some "u@icloud.com"].
Proof.
  refine (proj1 (proj2 (update_auth_twice_one_email_row
    NoFault NoFault "u@icloud.com" (Some "T") (Some "T") (Some "T") (Some "T")
    [] _ _ eq_refl eq_refl _))).
  unfold select_count. simpl. lia.
Defined.

(** C10: the list of updates always starts from the signed-in marker pair, so
    it is never empty and the early [return False] cannot be taken; a call
    with the three arguments [None] that meets no database error writes the
    marker pair only, leaves the rows of every other key as they were, and
    returns [True]. *)
Theorem update_auth_marker_always_present :
  (forall e a r : option string,
     build_updates e a r <> [] /\
     In (key_cachedSignUpType, Some "Auth_0") (build_updates e a r)) /\
  (forall (e a r : option string) (db : itemTable),
     fst (update_auth NoFault e a r db) = true) /\
  (forall db : itemTable,
     build_updates None None None = [(key_cachedSignUpType, Some "Auth_0")] /\
     update_auth NoFault None None None db =
       (true, upsert (key_cachedSignUpType, Some "Auth_0") db) /\
     forall k : string,
       select_values k (snd (update_auth NoFault None None None db)) =
       if k =? key_cachedSignUpType
       then repeat (Some "Auth_0")
              (Nat.max 1 (select_count key_cachedSignUpType db))
       else select_values k db).
Proof.
  split; [|split].
  - intros e a r. split; [destruct e, a, r; discriminate|].
    apply build_updates_marker.
  - intros e a r db. now rewrite update_auth_NoFault.
  - intros db. split; [reflexivity|]. split; [reflexivity|].
    intros k. rewrite update_auth_NoFault.
    change (run_all (build_updates None None None) db)
      with (upsert (key_cachedSignUpType, Some "Auth_0") db).
    cbn [snd]. apply select_values_upsert.
Qed.

End CursorAuthFacts.

(** ** Session token acquirer *)

Section SessionTokenFacts.

Lemma string_app_assoc (a b c : string) :
  ((a ++ b) ++ c = a ++ (b ++ c))%string.
Proof. induction a; simpl; congruence. Qed.

Lemma string_app_nil_r (a : string) : (a ++ "" = a)%string.
Proof. induction a; simpl; congruence. Qed.

Lemma string_length_app (a b : string) :
  String.length (a ++ b) = String.length a + String.length b.
Proof. induction a; simpl; congruence. Qed.

(** [startswith] looks at the first characters only. *)
Lemma starts_with_app_long (d : string) :
  forall s t,
    String.length d <= String.length s ->
    starts_with d (s ++ t) = starts_with d s.
Proof.
  induction d as [|x d IH]; intros s t Hlen; [reflexivity|].
  destruct s as [|y s]; [cbn in Hlen; lia|].
  cbn [append starts_with]. cbn [String.length] in Hlen.
  rewrite IH by lia. reflexivity.
Qed.

Lemma starts_with_split (d : string) :
  forall s, starts_with d s = true -> exists r, s = (d ++ r)%string.
Proof.
  induction d as [|x d IH]; intros s H.
  - exists s. reflexivity.
  - destruct s as [|y s]; [discriminate|]. cbn [starts_with] in H.
    apply andb_true_iff in H. destruct H as [Hxy Hs].
    apply Ascii.eqb_eq in Hxy. subst y.
    destruct (IH s Hs) as [r ->]. exists r. reflexivity.
Qed.

Lemma contains_cons (needle : string) (c : ascii) (hay : string) :
  contains needle (String c hay) =
  starts_with needle (String c hay) || contains needle hay.
Proof. reflexivity. Qed.

Lemma split_go_pass (sep acc : string) (c : ascii) (s : string) :
  starts_with sep (String c s) = false ->
  split_go sep 0 acc (String c s) = split_go sep 0 (acc ++ String c "") s.
Proof. intros H. cbn [split_go]. now rewrite H. Qed.

Lemma split_go_delimiter (acc rest : string) :
  split_go session_delimiter 0 acc (session_delimiter ++ rest)%string =
  acc :: split_go session_delimiter 0 "" rest.
Proof. reflexivity. Qed.

(** No occurrence of the delimiter starts at the head of a non-empty [a]
    followed by the delimiter, when none lies within [a ++ delimiter_init]. *)
Lemma no_delimiter_at_head (c : ascii) (a rest : string) :
  starts_with session_delimiter (String c (a ++ delimiter_init)) = false ->
  starts_with session_delimiter (String c (a ++ session_delimiter ++ rest))
    = false.
Proof.
  intros H.
  assert (E : String c (a ++ session_delimiter ++ rest) =
              (String c (a ++ delimiter_init) ++ String "A" rest)%string).
  { cbn [append]. f_equal. rewrite string_app_assoc. reflexivity. }
  rewrite E, starts_with_app_long; [exact H|].
  cbn [String.length]. rewrite string_length_app. cbn. lia.
Qed.

(** The split reads a segment through to the leftmost delimiter. *)
Lemma split_go_segment (a : string) :
  forall acc rest,
    segment_before_delimiter a = true ->
    split_go session_delimiter 0 acc (a ++ session_delimiter ++ rest)%string =
    (acc ++ a)%string :: split_go session_delimiter 0 "" rest.
Proof.
  unfold segment_before_delimiter.
  induction a as [|c a IH]; intros acc rest Hseg.
  - rewrite string_app_nil_r. apply split_go_delimiter.
  - apply negb_true_iff in Hseg.
    change (String c a ++ delimiter_init)%string
      with (String c (a ++ delimiter_init)) in Hseg.
    rewrite contains_cons in Hseg. apply orb_false_iff in Hseg.
    destruct Hseg as [Hhead Htail].
    change (String c a ++ session_delimiter ++ rest)%string
      with (String c (a ++ session_delimiter ++ rest)).
    rewrite split_go_pass by (apply no_delimiter_at_head; exact Hhead).
    rewrite IH by (now rewrite Htail).
    now rewrite string_app_assoc.
Qed.

(** A text without delimiter is one segment. *)
Lemma split_go_last (b : string) :
  forall acc,
    delimiter_free b = true ->
    split_go session_delimiter 0 acc b = [(acc ++ b)%string].
Proof.
  unfold delimiter_free.
  induction b as [|c b IH]; intros acc Hfree.
  - now rewrite string_app_nil_r.
  - apply negb_true_iff in Hfree. rewrite contains_cons in Hfree.
    apply orb_false_iff in Hfree. destruct Hfree as [Hhead Htail].
    rewrite split_go_pass by exact Hhead.
    rewrite IH by (now rewrite Htail).
    now rewrite string_app_assoc.
Qed.

Lemma str_split_second_segment (a b rest : string) :
  segment_before_delimiter a = true ->
  (rest = "" /\ delimiter_free b = true) \/
  (exists c, rest = (session_delimiter ++ c)%string /\
             segment_before_delimiter b = true) ->
  nth_error (str_split session_delimiter
               (a ++ session_delimiter ++ b ++ rest)%string) 1 = Some b.
Proof.
  intros Ha Hrest. unfold str_split.
  rewrite split_go_segment by assumption.
  destruct Hrest as [[-> Hb]|(c & -> & Hb)].
  - rewrite string_app_nil_r, split_go_last by assumption. reflexivity.
  - rewrite split_go_segment by assumption. reflexivity.
Qed.

(** Every text that holds the delimiter is a segment followed by the
    leftmost delimiter and a rest. *)
Lemma leftmost_delimiter (v : string) :
  contains session_delimiter v = true ->
  exists a r,
    v = (a ++ session_delimiter ++ r)%string /\
    segment_before_delimiter a = true.
Proof.
  unfold segment_before_delimiter.
  induction v as [|c v IH]; intros H; [discriminate|].
  rewrite contains_cons in H.
  destruct (starts_with session_delimiter (String c v)) eqn:Hhead.
  - destruct (starts_with_split _ _ Hhead) as [r Hr].
    exists "", r. split; [exact Hr|reflexivity].
  - cbn [orb] in H. destruct (IH H) as (a & r & -> & Hseg).
    exists (String c a), r. split; [reflexivity|].
    apply negb_true_iff in Hseg. apply negb_true_iff.
    change (String c a ++ delimiter_init)%string
      with (String c (a ++ delimiter_init)).
    rewrite contains_cons, Hseg, orb_false_r.
    destruct (starts_with session_delimiter (String c (a ++ delimiter_init)))
      eqn:Hs; [|reflexivity].
    assert (E : String c (a ++ session_delimiter ++ r) =
                (String c (a ++ delimiter_init) ++ String "A" r)%string).
    { cbn [append]. f_equal. rewrite string_app_assoc. reflexivity. }
    rewrite E, starts_with_app_long, Hs in Hhead; [discriminate|].
    cbn [String.length]. rewrite string_length_app. cbn. lia.
Qed.

(** Every text with a delimiter splits into a first segment, a second
    segment and what follows it. *)
Lemma two_segments (v : string) :
  contains session_delimiter v = true ->
  exists a b rest,
    v = (a ++ session_delimiter ++ b ++ rest)%string /\
    segment_before_delimiter a = true /\
    ((rest = "" /\ delimiter_free b = true) \/
     (exists c, rest = (session_delimiter ++ c)%string /\
                segment_before_delimiter b = true)).
Proof.
  intros H. destruct (leftmost_delimiter v H) as (a & r & -> & Ha).
  destruct (contains session_delimiter r) eqn:Hr.
  - destruct (leftmost_delimiter r Hr) as (b & c & -> & Hb).
    exists a, b, (session_delimiter ++ c)%string.
    split; [reflexivity|]. split; [exact Ha|]. right. eauto.
  - exists a, r, "". rewrite string_app_nil_r.
    split; [reflexivity|]. split; [exact Ha|]. left.
    split; [reflexivity|]. unfold delimiter_free. now rewrite Hr.
Qed.

Lemma scan_cookies_skip (pre : list cookie) (rest : list cookie) :
  forallb (fun c => negb (name_is c session_cookie_name)) pre = true ->
  scan_cookies (pre ++ rest) = scan_cookies rest.
Proof.
  induction pre as [|c pre IH]; simpl; intros H; [reflexivity|].
  apply andb_true_iff in H. destruct H as [Hc Hpre].
  apply negb_true_iff in Hc. rewrite Hc. now apply IH.
Qed.

Variable tab_cookies : nat -> option (list cookie).

(** The loop returns for every [max_attempts]: the fuel given by
    [get_cursor_session_token] is never used up. *)
Lemma token_loop_total (retry_interval : nat) :
  forall fuel attempts max_attempts w,
    max_attempts - attempts < fuel ->
    exists r, token_loop tab_cookies fuel attempts max_attempts retry_interval w
              = Some r.
Proof.
  induction fuel as [|fuel IH]; intros attempts max_attempts w Hf; [lia|].
  simpl. destruct (Nat.ltb_spec attempts max_attempts) as [Hlt|Hge].
  - destruct (tab_cookies (cookie_calls w)) as [cookies|].
    + destruct (scan_cookies cookies); [eauto| |]; apply IH; lia.
    + apply IH; lia.
  - eauto.
Qed.

Lemma get_cursor_session_token_total (max_attempts retry_interval : nat)
  (w : tab_world) :
  exists r, get_cursor_session_token tab_cookies max_attempts retry_interval w
            = Some r.
Proof. apply token_loop_total. lia. Qed.

Lemma session_token_of_segments (max_attempts retry_interval : nat)
  (w : tab_world) (pre post : list cookie) (a b rest : string) :
  0 < max_attempts ->
  tab_cookies (cookie_calls w) =
    Some (pre ++
          mk_cookie (Some session_cookie_name)
            (Some (a ++ session_delimiter ++ b ++ rest)%string) :: post) ->
  forallb (fun c => negb (name_is c session_cookie_name)) pre = true ->
  segment_before_delimiter a = true ->
  (rest = "" /\ delimiter_free b = true) \/
  (exists c, rest = (session_delimiter ++ c)%string /\
             segment_before_delimiter b = true) ->
  get_cursor_session_token tab_cookies max_attempts retry_interval w =
    Some (Some b, mk_tab_world (S (cookie_calls w)) (tab_slept w)).
Proof.
  intros Hmax Hread Hpre Ha Hrest.
  unfold get_cursor_session_token. cbn [token_loop].
  destruct (Nat.ltb_spec 0 max_attempts) as [_|]; [|lia].
  rewrite Hread, scan_cookies_skip by assumption.
  cbn [scan_cookies name_is cookie_name cookie_value].
  rewrite String.eqb_refl.
  now rewrite str_split_second_segment.
Qed.

(** C9: the value of the first cookie named [WorkosCursorSessionToken] is
    split on the fixed delimiter [%3A%3A] and the segment after the first
    delimiter is returned, the cookies being read once.  For a value
    [a %3A%3A b] or [a %3A%3A b %3A%3A c], where each delimiter written is
    the leftmost one of what it starts, the token is [b]; every value that
    holds the delimiter is of that form and gives its [b], and a value
    without delimiter gives no token.  A [%] that does not start a
    delimiter is an ordinary character.  For the value [AAA%3A%3ABBB] the
    split gives [BBB] at index 1. *)
Theorem session_token_is_second_segment :
  (forall (max_attempts retry_interval : nat) (w : tab_world)
          (pre post : list cookie) (a b rest : string),
     0 < max_attempts ->
     tab_cookies (cookie_calls w) =
       Some (pre ++
             mk_cookie (Some session_cookie_name)
               (Some (a ++ session_delimiter ++ b ++ rest)%string) :: post) ->
     forallb (fun c => negb (name_is c session_cookie_name)) pre = true ->
     segment_before_delimiter a = true ->
     (rest = "" /\ delimiter_free b = true) \/
     (exists c, rest = (session_delimiter ++ c)%string /\
                segment_before_delimiter b = true) ->
     get_cursor_session_token tab_cookies max_attempts retry_interval w =
       Some (Some b, mk_tab_world (S (cookie_calls w)) (tab_slept w))) /\
  (forall (max_attempts retry_interval : nat) (w : tab_world)
          (pre post : list cookie) (v : string),
     0 < max_attempts ->
     tab_cookies (cookie_calls w) =
       Some (pre ++
             mk_cookie (Some session_cookie_name) (Some v) :: post) ->
     forallb (fun c => negb (name_is c session_cookie_name)) pre = true ->
     contains session_delimiter v = true ->
     exists a b rest,
       v = (a ++ session_delimiter ++ b ++ rest)%string /\
       segment_before_delimiter a = true /\
       ((rest = "" /\ delimiter_free b = true) \/
        (exists c, rest = (session_delimiter ++ c)%string /\
                   segment_before_delimiter b = true)) /\
       get_cursor_session_token tab_cookies max_attempts retry_interval w =
         Some (Some b, mk_tab_world (S (cookie_calls w)) (tab_slept w))) /\
  (forall (v : string) (post : list cookie),
     contains session_delimiter v = false ->
     str_split session_delimiter v = [v] /\
     scan_cookies (mk_cookie (Some session_cookie_name) (Some v) :: post)
       = ScanRaises) /\
  str_split session_delimiter "AAA%3A%3ABBB" = ["AAA"; "BBB"] /\
  scan_cookies [mk_cookie (Some session_cookie_name) (Some "AAA%3A%3ABBB")]
    = Found "BBB".
Proof.
  split; [|split; [|split; [|split; reflexivity]]].
  - intros. now apply session_token_of_segments with (pre := pre) (post := post)
                                                      (a := a) (rest := rest).
  - intros max_attempts retry_interval w pre post v Hmax Hread Hpre Hv.
    destruct (two_segments v Hv) as (a & b & rest & -> & Ha & Hrest).
    exists a, b, rest. repeat split; try assumption.
    now apply session_token_of_segments with (pre := pre) (post := post)
                                             (a := a) (rest := rest).
  - intros v post Hv.
    assert (E : str_split session_delimiter v = [v]).
    { unfold str_split. rewrite split_go_last; [reflexivity|].
      unfold delimiter_free. now rewrite Hv. }
    split; [exact E|].
    cbn [scan_cookies name_is cookie_name cookie_value].
    rewrite String.eqb_refl, E. reflexivity.
Qed.

End SessionTokenFacts.

Lemma session_token_is_second_segment_witness :
  get_cursor_session_token
    (fun _ => Some [mk_cookie (Some "other") (Some "x");
                    mk_cookie (Some session_cookie_name)
                      (Some "a%20b%3A%3Atok%3A%3Ax")])
    3 2 (mk_tab_world 0 []) =
  Some (Some "tok", mk_tab_world 1 []).
Proof.
  refine (proj1 (session_token_is_second_segment _)
            3 2 (mk_tab_world 0 []) [mk_cookie (Some "other") (Some "x")] []
            "a%20b" "tok" "%3A%3Ax" _ _ _ _ _).
  - lia.
  - reflexivity.
  - reflexivity.
  - reflexivity.
  - right. exists "x". split; reflexivity.
Defined.

(** ** Registration state machine: the email verification loop *)

Section VerificationLoopFacts.

Variable page : nat -> page_pass.

Lemma verification_loop_exit_at (n : nat) (e : loop_exit) :
  forall fuel pass,
    (forall i, i < n -> verification_pass (page (pass + i)) = None) ->
    verification_pass (page (pass + n)) = Some e ->
    n < fuel ->
    verification_loop page fuel pass = Some (e, S (pass + n)).
Proof.
  induction n as [|n IH]; intros fuel pass Hbefore Hat Hfuel.
  - destruct fuel as [|fuel]; [lia|]. simpl.
    rewrite Nat.add_0_r in Hat. rewrite Hat. now rewrite Nat.add_0_r.
  - destruct fuel as [|fuel]; [lia|]. simpl.
    assert (H0 : verification_pass (page pass) = None).
    { specialize (Hbefore 0). rewrite Nat.add_0_r in Hbefore.
      apply Hbefore. lia. }
    rewrite H0.
    replace (S (pass + S n)) with (S (S pass + n)) by lia.
    apply IH.
    + intros i Hi. replace (S pass + i) with (pass + S i) by lia.
      apply Hbefore. lia.
    + now replace (S pass + n) with (pass + S n) by lia.
    + lia.
Qed.

Lemma verification_loop_spins :
  (forall i, verification_pass (page i) = None) ->
  forall fuel pass, verification_loop page fuel pass = None.
Proof.
  intros Hnone. induction fuel as [|fuel IH]; intros pass; [reflexivity|].
  simpl. rewrite Hnone. apply IH.
Qed.

End VerificationLoopFacts.

(** C2 as stated fails: on a page that never shows either marker the loop
    is still running after any number of passes, so it neither always ends
    nor has an iteration cap. *)
Lemma verification_loop_unbounded :
  (forall fuel, verification_loop blank_page fuel 0 = None) /\
  ~ loop_always_ends /\ ~ loop_has_cap.
Proof.
  assert (Hspin : forall fuel, verification_loop blank_page fuel 0 = None).
  { intros fuel. now apply verification_loop_spins. }
  split; [exact Hspin|]. split.
  - intros H. destruct (H blank_page) as [fuel Hfuel]. now apply Hfuel.
  - intros [cap H]. now apply (H blank_page).
Qed.

(** C2, amended: the loop is left at the first pass that is decisive, and
    only there.  A pass is decisive when it finds the account-ready marker
    (exit through the first [break]), or finds the code-input marker and
    gets a code that it types in (second [break]) or gets no code
    ([return False]).  While every pass finds no marker or raises, the loop
    keeps running whatever the number of passes: there is no cap. *)
Theorem verification_loop_ends_at_first_decisive_pass :
  forall (page : nat -> page_pass),
    (forall (n : nat) (e : loop_exit),
       (forall i, i < n -> verification_pass (page i) = None) ->
       verification_pass (page n) = Some e ->
       forall fuel, n < fuel ->
         verification_loop page fuel 0 = Some (e, S n)) /\
    ((forall i, verification_pass (page i) = None) ->
     forall fuel, verification_loop page fuel 0 = None) /\
    (forall p : page_pass,
       (verification_pass p = Some ExitAccountReady <->
        account_settings p = EleFound) /\
       (verification_pass p = Some ExitReturnFalse <->
        account_settings p = EleAbsent /\ data_index_0 p = EleFound /\
        exists code, verification_code p = CodeReturned code /\
                     truthy code = false) /\
       (forall c, verification_pass p = Some (ExitCodeEntered c) <->
        account_settings p = EleAbsent /\ data_index_0 p = EleFound /\
        verification_code p = CodeReturned (Some c) /\
        truthy (Some c) = true /\ digits_typed p = true)).
Proof.
  intros page. split; [|split].
  - intros n e Hbefore Hat fuel Hfuel.
    apply (verification_loop_exit_at page n e fuel 0); auto.
  - intros Hnone fuel. now apply verification_loop_spins.
  - intros [a d v t]. unfold verification_pass. cbn.
    destruct a, d; try destruct v as [[c|]|]; try destruct t;
      try destruct (truthy (Some c)) eqn:Hc;
      repeat split; intros; try discriminate; try reflexivity;
      repeat match goal with
             | H : _ /\ _ |- _ => destruct H
             | H : exists _, _ |- _ => destruct H
             | H : Some _ = Some _ |- _ => inversion H; clear H; subst
             | H : CodeReturned _ = CodeReturned _ |- _ =>
                 inversion H; clear H; subst
             end;
      try discriminate; try congruence; eauto;
      unfold truthy in *; congruence.
Qed.

Lemma verification_loop_ends_at_first_decisive_pass_witness :
  verification_loop
    (fun i => match i with
              | 2 => mk_page_pass EleAbsent EleFound
                       (CodeReturned (Some "482913")) true
              | _ => mk_page_pass EleAbsent EleAbsent (CodeReturned None) true
              end) 5 0 = Some (ExitCodeEntered "482913", 3).
Proof.
  refine (proj1 (verification_loop_ends_at_first_decisive_pass _)
            2 (ExitCodeEntered "482913") _ _ 5 _).
  - intros i Hi. destruct i as [|[|i]]; [reflexivity|reflexivity|lia].
  - reflexivity.
  - lia.
Defined.

(** ** Mailbox poller: the code pattern *)

Section CodePatternFacts.

Lemma is_digit_word (c : ascii) : is_digit c = true -> is_word c = true.
Proof. unfold is_word. intros ->. now rewrite orb_true_r. Qed.

Lemma take_digits_sound (n : nat) :
  forall s tok rest,
    take_digits n s = Some (tok, rest) ->
    s = (tok ++ rest)%string /\ String.length tok = n /\ all_digits tok = true.
Proof.
  induction n as [|n IH]; intros s tok rest H.
  - inversion H; subst. auto.
  - destruct s as [|c s]; [discriminate|]. cbn [take_digits] in H.
    destruct (is_digit c) eqn:Hc; [|discriminate].
    destruct (take_digits n s) as [[tok' rest']|] eqn:Ht; [|discriminate].
    inversion H; subst. destruct (IH _ _ _ Ht) as (-> & Hlen & Hall).
    repeat split; [now rewrite <- Hlen|].
    unfold all_digits in *. cbn. now rewrite Hc.
Qed.

Lemma take_digits_complete (tok : string) :
  forall rest,
    all_digits tok = true ->
    take_digits (String.length tok) (tok ++ rest) = Some (tok, rest).
Proof.
  induction tok as [|c tok IH]; intros rest Hall; [reflexivity|].
  unfold all_digits in Hall. cbn in Hall. apply andb_true_iff in Hall.
  destruct Hall as [Hc Hall]. cbn [String.length append take_digits].
  now rewrite Hc, IH.
Qed.

(** The ends of a non-empty run of digits are word characters. *)
Lemma first_char_digits (tok rest : string) :
  all_digits tok = true -> tok <> EmptyString ->
  opt_word (first_char (tok ++ rest)) = true.
Proof.
  destruct tok as [|c tok]; [congruence|]. intros Hall _.
  unfold all_digits in Hall. cbn in Hall. apply andb_true_iff in Hall.
  cbn. apply is_digit_word, Hall.
Qed.

Lemma last_char_digits (tok : string) :
  forall prev,
    all_digits tok = true -> opt_word prev = true ->
    opt_word (last_char prev tok) = true.
Proof.
  induction tok as [|c tok IH]; intros prev Hall Hprev; [exact Hprev|].
  unfold all_digits in Hall. cbn in Hall. apply andb_true_iff in Hall.
  destruct Hall as [Hc Hall]. cbn [last_char]. apply IH; [exact Hall|].
  cbn. now apply is_digit_word.
Qed.

Lemma last_char_digits_nonempty (tok : string) (prev : option ascii) :
  all_digits tok = true -> tok <> EmptyString ->
  opt_word (last_char prev tok) = true.
Proof.
  destruct tok as [|c tok]; [congruence|]. intros Hall _.
  unfold all_digits in Hall. cbn in Hall. apply andb_true_iff in Hall.
  destruct Hall as [Hc Hall]. cbn [last_char].
  apply last_char_digits; [exact Hall|]. cbn. now apply is_digit_word.
Qed.

Lemma left_ok_split (prev : option ascii) :
  left_ok prev = lookbehind_ok prev && negb (opt_word prev).
Proof.
  destruct prev as [c|]; [|reflexivity]. cbn.
  unfold in_lookbehind_class, is_word.
  destruct (is_letter c), (is_digit c), (Ascii.eqb c "_"),
    (Ascii.eqb c "@"), (Ascii.eqb c "."); reflexivity.
Qed.

Lemma six_digits_nonempty (tok : string) :
  six_digits tok = true ->
  String.length tok = 6 /\ all_digits tok = true /\ tok <> EmptyString.
Proof.
  unfold six_digits. intros H. apply andb_true_iff in H.
  destruct H as [Hlen Hall]. apply Nat.eqb_eq in Hlen.
  repeat split; try assumption. intros ->. discriminate.
Qed.

(** The pattern at one position, in terms of the token and its neighbours. *)
Lemma match_here_sound (prev : option ascii) (s tok : string) :
  match_here prev s = Some tok ->
  exists post,
    s = (tok ++ post)%string /\ six_digits tok = true /\
    left_ok prev = true /\ right_ok (first_char post) = true.
Proof.
  unfold match_here. intros H.
  destruct (lookbehind_ok prev && word_boundary prev (first_char s)) eqn:Hl;
    [|discriminate].
  destruct (take_digits 6 s) as [[tok' rest]|] eqn:Ht; [|discriminate].
  destruct (word_boundary (last_char prev tok') (first_char rest)) eqn:Hr;
    [|discriminate].
  inversion H; subst tok'. clear H.
  destruct (take_digits_sound _ _ _ _ Ht) as (-> & Hlen & Hall).
  assert (Hne : tok <> EmptyString) by (intros ->; discriminate).
  exists rest. split; [reflexivity|].
  apply andb_true_iff in Hl. destruct Hl as [Hlb Hwb].
  unfold word_boundary in Hwb, Hr.
  rewrite first_char_digits in Hwb by assumption.
  rewrite last_char_digits_nonempty in Hr by assumption.
  repeat split.
  - unfold six_digits. now rewrite Hlen, Hall.
  - rewrite left_ok_split, Hlb.
    destruct (opt_word prev); [discriminate|reflexivity].
  - destruct (first_char rest) as [c|]; [|reflexivity]. cbn in *.
    destruct (is_word c); [discriminate|reflexivity].
Qed.

Lemma match_here_complete (prev : option ascii) (tok post : string) :
  six_digits tok = true -> left_ok prev = true ->
  right_ok (first_char post) = true ->
  match_here prev (tok ++ post) = Some tok.
Proof.
  intros Hsix Hleft Hright.
  destruct (six_digits_nonempty _ Hsix) as (Hlen & Hall & Hne).
  rewrite left_ok_split in Hleft. apply andb_true_iff in Hleft.
  destruct Hleft as [Hlb Hw]. apply negb_true_iff in Hw.
  unfold match_here, word_boundary.
  rewrite Hlb, Hw, first_char_digits by assumption. cbn [xorb andb].
  rewrite <- Hlen, take_digits_complete by assumption.
  rewrite last_char_digits_nonempty by assumption.
  destruct (first_char post) as [c|]; [|reflexivity]. cbn in *.
  apply negb_true_iff in Hright. now rewrite Hright.
Qed.

Lemma string_app_empty (a b : string) :
  (a ++ b)%string = EmptyString -> a = EmptyString /\ b = EmptyString.
Proof. destruct a; [auto|discriminate]. Qed.

(** [re.search] returns the leftmost token that the pattern accepts. *)
Lemma search_from_spec (s : string) :
  forall prev,
    match search_from prev s with
    | Some tok =>
        exists pre post,
          s = (pre ++ tok ++ post)%string /\ six_digits tok = true /\
          left_ok (last_char prev pre) = true /\
          right_ok (first_char post) = true /\
          forall pre' tok' post',
            s = (pre' ++ tok' ++ post')%string -> six_digits tok' = true ->
            left_ok (last_char prev pre') = true ->
            right_ok (first_char post') = true ->
            String.length pre <= String.length pre'
    | None =>
        forall pre tok post,
          s = (pre ++ tok ++ post)%string -> six_digits tok = true ->
          left_ok (last_char prev pre) = true ->
          right_ok (first_char post) = true -> False
    end.
Proof.
  induction s as [|c s IH]; intros prev.
  - cbn [search_from]. destruct (match_here prev "") as [tok|] eqn:Hm.
    + destruct (match_here_sound _ _ _ Hm) as (post & Hs & Hsix & _).
      symmetry in Hs. apply string_app_empty in Hs. destruct Hs as [-> _].
      discriminate.
    + intros pre tok post Hs Hsix _ _. symmetry in Hs.
      apply string_app_empty in Hs. destruct Hs as [_ Hs].
      apply string_app_empty in Hs. destruct Hs as [-> _]. discriminate.
  - cbn [search_from]. destruct (match_here prev (String c s)) as [tok|] eqn:Hm.
    + destruct (match_here_sound _ _ _ Hm) as (post & Hs & Hsix & Hl & Hr).
      exists EmptyString, post. cbn [append last_char String.length].
      repeat split; try assumption. intros. lia.
    + specialize (IH (Some c)).
      assert (Hhead : forall pre tok post,
        String c s = (pre ++ tok ++ post)%string -> six_digits tok = true ->
        left_ok (last_char prev pre) = true ->
        right_ok (first_char post) = true ->
        exists pre0, pre = String c pre0 /\ s = (pre0 ++ tok ++ post)%string).
      { intros pre tok post Hs Hsix Hl Hr. destruct pre as [|c' pre0].
        - cbn in Hs, Hl. rewrite Hs in Hm.
          rewrite match_here_complete in Hm by assumption. discriminate.
        - cbn in Hs. inversion Hs; subst. eauto. }
      destruct (search_from (Some c) s) as [tok|].
      * destruct IH as (pre & post & Hs & Hsix & Hl & Hr & Hmin).
        exists (String c pre), post. cbn [append last_char].
        repeat split; try assumption; [now rewrite Hs|].
        intros pre' tok' post' Hs' Hsix' Hl' Hr'.
        destruct (Hhead _ _ _ Hs' Hsix' Hl' Hr') as (pre0 & -> & Hs0).
        cbn [String.length]. apply le_n_S.
        apply (Hmin pre0 tok' post'); assumption.
      * intros pre tok post Hs Hsix Hl Hr.
        destruct (Hhead _ _ _ Hs Hsix Hl Hr) as (pre0 & -> & Hs0).
        apply (IH pre0 tok post); assumption.
Qed.

End CodePatternFacts.

(** C4 as stated fails: the lookbehind guards the left neighbour only.  A
    token followed by [.] or [@] is accepted, as in [482913.]. *)
Lemma code_pattern_accepts_token_before_dot :
  re_search_code "482913." = Some "482913" /\
  re_search_code "123456@icloud.com" = Some "123456" /\
  ~ spec_accepts_only_isolated_tokens.
Proof.
  split; [reflexivity|]. split; [reflexivity|].
  intros H. destruct (H "482913." "482913" eq_refl) as (pre & post & Hs & Hok).
  assert (Hlen : String.length pre + (6 + String.length post) = 7).
  { apply (f_equal String.length) in Hs.
    rewrite !string_length_app in Hs. cbn in Hs. lia. }
  destruct pre as [|c [|c' pre]].
  - cbn in Hs. inversion Hs; subst. vm_compute in Hok. discriminate.
  - cbn in Hs. inversion Hs.
  - cbn in Hlen. lia.
Qed.

(** C4, amended: on a body of ASCII characters the body search returns the
    leftmost run of six digits whose left neighbour is not a letter, digit,
    underscore, [@] or [.] and whose right neighbour is not a letter, digit
    or underscore (a [@] or [.] after the token does not matter), and
    returns nothing when no run qualifies.  Nothing is stated of a body
    with other characters, where the Unicode classes of the pattern apply.
    For the mailbox with three messages that do not qualify and one
    matching message with the body [Your code is 482913] the poll returns
    [482913] on its first connection. *)
Theorem code_pattern_returns_leftmost_accepted_token :
  (forall body : string,
     ascii_text body = true ->
     match re_search_code body with
     | Some tok =>
         exists pre post,
           body = (pre ++ tok ++ post)%string /\
           accepts pre tok post = true /\
           forall pre' tok' post',
             body = (pre' ++ tok' ++ post')%string ->
             accepts pre' tok' post' = true ->
             String.length pre <= String.length pre'
     | None =>
         forall pre tok post,
           body = (pre ++ tok ++ post)%string -> accepts pre tok post = false
     end) /\
  re_search_code "Your code is 482913" = Some "482913" /\
  get_verification_code example_account ConfigOK example_mailbox 5 60
    (mk_mail_world 0 []) = Some (Return (Some "482913"), mk_mail_world 1 []).
Proof.
  split; [|split; reflexivity].
  intros body _. unfold re_search_code, accepts.
  pose proof (search_from_spec body None) as H.
  destruct (search_from None body) as [tok|].
  - destruct H as (pre & post & Hs & Hsix & Hl & Hr & Hmin).
    exists pre, post. split; [exact Hs|]. split; [now rewrite Hsix, Hl, Hr|].
    intros pre' tok' post' Hs' Hacc.
    apply andb_true_iff in Hacc. destruct Hacc as [Hacc Hr'].
    apply andb_true_iff in Hacc. destruct Hacc as [Hsix' Hl'].
    now apply (Hmin pre' tok' post').
  - intros pre tok post Hs.
    destruct (six_digits tok) eqn:Hsix; [|reflexivity].
    destruct (left_ok (last_char None pre)) eqn:Hl; [|reflexivity].
    destruct (right_ok (first_char post)) eqn:Hr; [|reflexivity].
    exfalso. now apply (H pre tok post).
Qed.

Lemma code_pattern_returns_leftmost_accepted_token_witness :
  exists pre post,
    "Code: 482913." = (pre ++ "482913" ++ post)%string /\
    accepts pre "482913" post = true.
Proof.
  generalize (proj1 code_pattern_returns_leftmost_accepted_token
                "Code: 482913." eq_refl).
  change (re_search_code "Code: 482913.") with (Some "482913").
  intros (pre & post & Hs & Hacc & _). exists pre, post. split; assumption.
Defined.

(** ** Mailbox poller: the two levels of retry on an empty mailbox *)

Section EmptyMailboxFacts.

Variable account : string.
Variable imap : nat -> imap_session.
Hypothesis imap_empty : forall n, exists d, imap n = SearchOK [] d.

Lemma repeat_snoc_cons (d k : nat) (l : list nat) :
  repeat d k ++ d :: l = repeat d (S k) ++ l.
Proof. induction k as [|k IH]; simpl in *; congruence. Qed.

(** The inner recursion from [retry], with [k = 20 - retry] sessions still
    to open: the call at [retry = 20] raises, every earlier call returns
    [None], having caught what its own recursive call raised. *)
Lemma inner_retries_empty (k : nat) :
  forall fuel retry w,
    retry + k = 20 -> k < fuel ->
    _get_mail_code_by_icloud_imap account imap fuel retry w =
    Some (match k with
          | O => Raise "verification_code_timeout"
          | S _ => Return None
          end,
          mk_mail_world (connections w + k)
            (repeat 3 (k + if (0 <? retry)%nat then 1 else 0)
             ++ mail_slept w)).
Proof.
  induction k as [|k IH]; intros fuel retry w Hk Hfuel;
    (destruct fuel as [|fuel]; [lia|]); cbn [_get_mail_code_by_icloud_imap].
  - assert (retry = 20) by lia. subst retry. cbn.
    now rewrite Nat.add_0_r.
  - destruct (Nat.leb_spec 20 retry) as [|_]; [lia|].
    set (w1 := if (0 <? retry)%nat then mail_sleep 3 w else w).
    destruct (imap_empty (connections w1)) as [d ->].
    rewrite (IH fuel (retry + 1)) by lia.
    cbn [connections mail_slept].
    replace (0 <? retry + 1)%nat with true
      by (symmetry; apply Nat.ltb_lt; lia).
    assert (Hw : Some (@Return (option string) None,
                  mk_mail_world (S (connections w1) + k)
                    (repeat 3 (k + 1) ++ mail_slept w1)) =
                 Some (Return None,
                  mk_mail_world (connections w + S k)
                    (repeat 3 (S k + if (0 <? retry)%nat then 1 else 0)
                     ++ mail_slept w))).
    { subst w1. destruct (0 <? retry)%nat; cbn [mail_sleep connections mail_slept].
      - rewrite repeat_snoc_cons.
        replace (S (connections w) + k) with (connections w + S k) by lia.
        now replace (S (k + 1)) with (S k + 1) by lia.
      - replace (S (connections w) + k) with (connections w + S k) by lia.
        now replace (k + 1) with (S k + 0) by lia. }
    destruct k; exact Hw.
Qed.

Lemma latest_mail_code_empty (w : mail_world) :
  _get_latest_mail_code account ConfigOK imap w =
  Some (Return None,
        mk_mail_world (connections w + 20) (repeat 3 20 ++ mail_slept w)).
Proof.
  unfold _get_latest_mail_code.
  now rewrite (inner_retries_empty 20 21 0 w) by lia.
Qed.

Lemma seq_cons_eq (a n : nat) : seq a (S n) = a :: seq (S a) n.
Proof. reflexivity. Qed.

Lemma verification_attempts_cons (attempt : nat) (rest : list nat)
  (max_retries retry_interval : nat) (w : mail_world) :
  verification_attempts account ConfigOK imap (attempt :: rest)
    max_retries retry_interval w =
  match _get_latest_mail_code account ConfigOK imap w with
  | None => None
  | Some (Return verify_code, w) =>
      if (Z.of_nat attempt <? Z.of_nat max_retries - 1)%Z
         && negb (truthy verify_code)
      then verification_attempts account ConfigOK imap rest
             max_retries retry_interval (mail_sleep retry_interval w)
      else Some (Return verify_code, w)
  | Some (Raise e, w) =>
      if (Z.of_nat attempt <? Z.of_nat max_retries - 1)%Z
      then verification_attempts account ConfigOK imap rest
             max_retries retry_interval (mail_sleep retry_interval w)
      else Some (Raise "max_retries_reached_with_error", w)
  end.
Proof. reflexivity. Qed.

Lemma attempt_sleeps_again (rest : list nat) (max_retries retry_interval : nat)
  (w : mail_world) :
  (if true && negb (truthy None)
   then verification_attempts account ConfigOK imap rest
          max_retries retry_interval (mail_sleep retry_interval w)
   else Some (Return None, w)) =
  verification_attempts account ConfigOK imap rest
    max_retries retry_interval (mail_sleep retry_interval w).
Proof. reflexivity. Qed.

Lemma empty_mailbox_log_step (n retry_interval : nat) :
  empty_mailbox_log (S (S n)) retry_interval =
  empty_mailbox_log (S n) retry_interval ++ retry_interval :: repeat 3 20.
Proof. reflexivity. Qed.

Lemma mail_sleep_connections (d : nat) (w : mail_world) :
  connections (mail_sleep d w) = connections w.
Proof. reflexivity. Qed.

Lemma mail_sleep_slept (d : nat) (w : mail_world) :
  mail_slept (mail_sleep d w) = d :: mail_slept w.
Proof. reflexivity. Qed.

Lemma verification_attempts_empty (retry_interval max_retries : nat) :
  forall n attempt w,
    attempt + S n = max_retries ->
    verification_attempts account ConfigOK imap (seq attempt (S n))
      max_retries retry_interval w =
    Some (Return None,
          mk_mail_world (connections w + 20 * S n)
            (empty_mailbox_log (S n) retry_interval ++ mail_slept w)).
Proof.
  induction n as [|n IH]; intros attempt w Hmax.
  - rewrite (seq_cons_eq attempt 0), verification_attempts_cons.
    rewrite latest_mail_code_empty.
    rewrite (proj2 (Z.ltb_ge _ _)) by lia.
    rewrite Nat.mul_1_r. reflexivity.
  - rewrite (seq_cons_eq attempt (S n)), verification_attempts_cons.
    rewrite latest_mail_code_empty.
    rewrite (proj2 (Z.ltb_lt _ _)) by lia.
    rewrite attempt_sleeps_again, IH by lia.
    rewrite (empty_mailbox_log_step n retry_interval).
    rewrite mail_sleep_connections, mail_sleep_slept.
    cbn [connections mail_slept].
    rewrite <- app_assoc, <- app_comm_cons.
    do 3 f_equal. lia.
Qed.

Lemma empty_mailbox_log_length (retry_interval n : nat) :
  List.length (empty_mailbox_log (S n) retry_interval) = 20 * S n + n.
Proof.
  induction n as [|n IH]; [reflexivity|].
  change (empty_mailbox_log (S (S n)) retry_interval)
    with (empty_mailbox_log (S n) retry_interval
          ++ retry_interval :: repeat 3 20).
  rewrite length_app, IH. cbn [List.length]. rewrite repeat_length. lia.
Qed.

End EmptyMailboxFacts.

Section CodelessMailboxFacts.

Variable account : string.
Variable imap : nat -> imap_session.
Hypothesis no_code : forall n, session_finds_code account (imap n) = false.

Lemma scan_without_code (n : nat) (mails : list fetch_result) (d : bool) :
  imap n = SearchOK mails d ->
  scan_mails account d (firstn 10 (rev mails)) = None.
Proof.
  intros E. pose proof (no_code n) as H. rewrite E in H.
  cbn [session_finds_code] in H.
  destruct (scan_mails account d (firstn 10 (rev mails)));
    [discriminate|reflexivity].
Qed.

(** The call at [retry = 20] sleeps and raises. *)
Lemma inner_retry_20 (fuel : nat) (w : mail_world) :
  _get_mail_code_by_icloud_imap account imap (S fuel) 20 w =
  Some (Raise "verification_code_timeout", mail_sleep 3 w).
Proof. reflexivity. Qed.

(** From [retry < 20], with [S k = 20 - retry] sessions still allowed, the
    call returns [None]: a session that raises or whose search fails, the
    scan of a mailbox with mail, and the timeout of the recursive call on an
    empty mailbox all end in [return None]. *)
Lemma inner_retries_codeless (k : nat) :
  forall fuel retry w,
    retry + S k = 20 -> S k < fuel ->
    exists w',
      _get_mail_code_by_icloud_imap account imap fuel retry w
        = Some (Return None, w') /\
      connections w + 1 <= connections w' <= connections w + S k.
Proof.
  induction k as [|k IH]; intros fuel retry w Hk Hfuel;
    (destruct fuel as [|fuel]; [lia|]); cbn [_get_mail_code_by_icloud_imap];
    (destruct (Nat.leb_spec 20 retry) as [|_]; [lia|]);
    set (w1 := if (0 <? retry)%nat then mail_sleep 3 w else w);
    (assert (Hc1 : connections w1 = connections w)
       by (subst w1; now destruct (0 <? retry)%nat));
    destruct (imap (connections w1)) as [| |mails d] eqn:Hs;
    try (eexists; split; [reflexivity|]; cbn [connections]; lia);
    (destruct mails as [|m ms];
     [|rewrite (scan_without_code _ _ _ Hs);
       eexists; split; [reflexivity|]; cbn [connections]; lia]).
  - replace (retry + 1) with 20 by lia.
    destruct fuel as [|fuel]; [lia|]. rewrite inner_retry_20.
    eexists. split; [reflexivity|].
    rewrite mail_sleep_connections. cbn [connections]. lia.
  - destruct (IH fuel (retry + 1)
                (mk_mail_world (S (connections w1)) (mail_slept w1))
                ltac:(lia) ltac:(lia)) as (w' & -> & Hconn).
    cbn [connections] in Hconn.
    exists w'. split; [reflexivity|lia].
Qed.

Lemma latest_mail_code_codeless (w : mail_world) :
  exists w',
    _get_latest_mail_code account ConfigOK imap w = Some (Return None, w') /\
    connections w + 1 <= connections w' <= connections w + 20.
Proof.
  unfold _get_latest_mail_code.
  destruct (inner_retries_codeless 19 21 0 w ltac:(lia) ltac:(lia))
    as (w' & -> & Hconn).
  exists w'. split; [reflexivity|exact Hconn].
Qed.

Lemma verification_attempts_codeless (retry_interval max_retries : nat) :
  forall n attempt w,
    attempt + S n = max_retries ->
    exists w',
      verification_attempts account ConfigOK imap (seq attempt (S n))
        max_retries retry_interval w = Some (Return None, w') /\
      connections w + S n <= connections w' <= connections w + 20 * S n.
Proof.
  induction n as [|n IH]; intros attempt w Hmax.
  - rewrite (seq_cons_eq attempt 0), verification_attempts_cons.
    destruct (latest_mail_code_codeless w) as (w' & -> & Hconn).
    rewrite (proj2 (Z.ltb_ge _ _)) by lia. cbn [andb].
    exists w'. split; [reflexivity|lia].
  - rewrite (seq_cons_eq attempt (S n)), verification_attempts_cons.
    destruct (latest_mail_code_codeless w) as (w' & -> & Hconn).
    rewrite (proj2 (Z.ltb_lt _ _)) by lia.
    rewrite attempt_sleeps_again.
    destruct (IH (S attempt) (mail_sleep retry_interval w') ltac:(lia))
      as (w2 & -> & Hconn2).
    rewrite mail_sleep_connections in Hconn2.
    exists w2. split; [reflexivity|lia].
Qed.

Hypothesis has_mail : forall n, session_has_mail (imap n) = true.

(** With mail in the mailbox there is no inner retry: one session, no wait
    of 3 seconds. *)
Lemma inner_with_mail (fuel : nat) (w : mail_world) :
  _get_mail_code_by_icloud_imap account imap (S fuel) 0 w =
  Some (Return None, mk_mail_world (S (connections w)) (mail_slept w)).
Proof.
  cbn [_get_mail_code_by_icloud_imap Nat.ltb Nat.leb].
  pose proof (has_mail (connections w)) as Hm.
  destruct (imap (connections w)) as [| |mails d] eqn:Hs;
    try discriminate.
  destruct mails as [|m ms]; [discriminate|].
  rewrite (scan_without_code _ _ _ Hs). reflexivity.
Qed.

Lemma latest_mail_code_with_mail (w : mail_world) :
  _get_latest_mail_code account ConfigOK imap w =
  Some (Return None, mk_mail_world (S (connections w)) (mail_slept w)).
Proof.
  unfold _get_latest_mail_code. now rewrite (inner_with_mail 20 w).
Qed.

Lemma verification_attempts_with_mail (retry_interval max_retries : nat) :
  forall n attempt w,
    attempt + S n = max_retries ->
    verification_attempts account ConfigOK imap (seq attempt (S n))
      max_retries retry_interval w =
    Some (Return None,
          mk_mail_world (connections w + S n)
            (repeat retry_interval n ++ mail_slept w)).
Proof.
  induction n as [|n IH]; intros attempt w Hmax.
  - rewrite (seq_cons_eq attempt 0), verification_attempts_cons.
    rewrite latest_mail_code_with_mail.
    rewrite (proj2 (Z.ltb_ge _ _)) by lia. cbn [andb repeat app].
    do 3 f_equal. lia.
  - rewrite (seq_cons_eq attempt (S n)), verification_attempts_cons.
    rewrite latest_mail_code_with_mail.
    rewrite (proj2 (Z.ltb_lt _ _)) by lia.
    rewrite attempt_sleeps_again, IH by lia.
    rewrite mail_sleep_connections, mail_sleep_slept.
    cbn [connections mail_slept].
    rewrite repeat_snoc_cons. do 3 f_equal. lia.
Qed.

End CodelessMailboxFacts.

(** The poll on a mailbox that every session finds empty: [20 * max_retries]
    sessions, twenty waits of 3 seconds in each outer attempt and one wait
    of [retry_interval] between two attempts, and [None] returned. *)
Lemma empty_mailbox_poll :
  forall (account : string) (imap : nat -> imap_session)
         (max_retries retry_interval : nat) (w : mail_world),
    (forall n, exists d, imap n = SearchOK [] d) ->
    1 <= max_retries ->
    get_verification_code account ConfigOK imap max_retries retry_interval w =
      Some (Return None,
            mk_mail_world (connections w + 20 * max_retries)
              (empty_mailbox_log max_retries retry_interval ++ mail_slept w)) /\
    List.length (empty_mailbox_log max_retries retry_interval) =
      20 * max_retries + (max_retries - 1) /\
    (retry_interval <> 3 ->
     count_occ Nat.eq_dec (empty_mailbox_log max_retries retry_interval) 3 =
       20 * max_retries /\
     count_occ Nat.eq_dec (empty_mailbox_log max_retries retry_interval)
       retry_interval = max_retries - 1).
Proof.
  intros account imap max_retries retry_interval w Hempty Hmax.
  destruct max_retries as [|n]; [lia|]. split; [|split].
  - unfold get_verification_code.
    now apply verification_attempts_empty.
  - rewrite empty_mailbox_log_length. lia.
  - intros Hne. clear Hmax. induction n as [|n IH].
    + split.
      * reflexivity.
      * cbn [empty_mailbox_log]. rewrite count_occ_repeat_neq by congruence.
        reflexivity.
    + change (empty_mailbox_log (S (S n)) retry_interval)
        with (empty_mailbox_log (S n) retry_interval
              ++ retry_interval :: repeat 3 20).
      rewrite !count_occ_app. destruct IH as [IH3 IHr]. rewrite IH3, IHr.
      rewrite count_occ_cons_neq by assumption.
      rewrite count_occ_cons_eq by reflexivity.
      rewrite count_occ_repeat_eq by reflexivity.
      rewrite count_occ_repeat_neq by congruence. lia.
Qed.

(** C5 on the code: when no session ever gives a code, the poll with the
    iCloud configuration and [max_retries >= 1] goes through its outer
    attempts and then returns [None]; it raises no timeout error.  The
    timeout raised at the twentieth inner retry is caught by the [except]
    of the calling frame, and the raise that follows the outer loop is
    never reached.  Every outer attempt opens between 1 and 20 sessions.
    On a mailbox that is always empty there are 20 sessions and 20 waits of
    3 seconds in each outer attempt and a wait of [retry_interval] between
    two attempts (100 and 4 with the defaults); on a mailbox that holds
    mail and no code there is one session for each outer attempt and no
    wait of 3 seconds. *)
Theorem poll_without_code_returns_none :
  (forall (account : string) (imap : nat -> imap_session)
          (max_retries retry_interval : nat) (w : mail_world),
     1 <= max_retries ->
     (forall n, session_finds_code account (imap n) = false) ->
     exists w',
       get_verification_code account ConfigOK imap max_retries retry_interval w
         = Some (Return None, w') /\
       connections w + max_retries <= connections w'
         <= connections w + 20 * max_retries) /\
  (forall (account : string) (imap : nat -> imap_session)
          (max_retries retry_interval : nat) (w : mail_world),
     1 <= max_retries ->
     (forall n, exists d, imap n = SearchOK [] d) ->
     get_verification_code account ConfigOK imap max_retries retry_interval w =
       Some (Return None,
             mk_mail_world (connections w + 20 * max_retries)
               (empty_mailbox_log max_retries retry_interval ++ mail_slept w)) /\
     List.length (empty_mailbox_log max_retries retry_interval) =
       20 * max_retries + (max_retries - 1) /\
     (retry_interval <> 3 ->
      count_occ Nat.eq_dec (empty_mailbox_log max_retries retry_interval) 3 =
        20 * max_retries /\
      count_occ Nat.eq_dec (empty_mailbox_log max_retries retry_interval)
        retry_interval = max_retries - 1)) /\
  (forall (account : string) (imap : nat -> imap_session)
          (max_retries retry_interval : nat) (w : mail_world),
     1 <= max_retries ->
     (forall n, session_has_mail (imap n) = true) ->
     (forall n, session_finds_code account (imap n) = false) ->
     get_verification_code account ConfigOK imap max_retries retry_interval w =
       Some (Return None,
             mk_mail_world (connections w + max_retries)
               (repeat retry_interval (max_retries - 1) ++ mail_slept w))) /\
  get_verification_code example_account ConfigOK empty_mailbox 5 60
    (mk_mail_world 0 []) =
    Some (Return None, mk_mail_world 100 (empty_mailbox_log 5 60)) /\
  ~ poll_raises_on_empty_mailbox.
Proof.
  assert (Hrun : get_verification_code example_account ConfigOK empty_mailbox
                   5 60 (mk_mail_world 0 []) =
                 Some (Return None, mk_mail_world 100 (empty_mailbox_log 5 60)))
    by (vm_compute; reflexivity).
  split; [|split; [|split; [|split]]].
  - intros account imap max_retries retry_interval w Hmax Hno.
    destruct max_retries as [|n]; [lia|]. unfold get_verification_code.
    now apply verification_attempts_codeless.
  - intros account imap max_retries retry_interval w Hmax Hempty.
    now apply empty_mailbox_poll.
  - intros account imap max_retries retry_interval w Hmax Hmail Hno.
    destruct max_retries as [|n]; [lia|]. unfold get_verification_code.
    rewrite verification_attempts_with_mail by (assumption || lia).
    cbn [Nat.sub]. now rewrite Nat.sub_0_r.
  - exact Hrun.
  - intros (message & w & Hraise). rewrite Hrun in Hraise. discriminate.
Qed.

Lemma poll_without_code_returns_none_witness :
  get_verification_code example_account ConfigOK codeless_mailbox 5 60
    (mk_mail_world 0 []) =
  Some (Return None, mk_mail_world (0 + 5) (repeat 60 (5 - 1) ++ [])).
Proof.
  refine (proj1 (proj2 (proj2 poll_without_code_returns_none))
            example_account codeless_mailbox 5 60 (mk_mail_world 0 []) _ _ _).
  - lia.
  - intros n. reflexivity.
  - intros n. reflexivity.
Defined.

(** ** Identity generator *)

Section HexFacts.

Local Open Scope Z_scope.

Lemma string_forall_app (p : ascii -> bool) (a b : string) :
  string_forall p (a ++ b) = string_forall p a && string_forall p b.
Proof.
  induction a as [|c a IH]; [reflexivity|].
  cbn [append string_forall]. now rewrite IH, andb_assoc.
Qed.

Lemma hex_char_lower (d : Z) :
  0 <= d < 16 -> is_lower_hex (hex_char d) = true.
Proof.
  intros Hd.
  assert (H : exists n, (n < 16)%nat /\ d = Z.of_nat n)
    by (exists (Z.to_nat d); lia).
  destruct H as (n & Hn & ->).
  do 16 (destruct n as [|n]; [reflexivity|]). lia.
Qed.

Lemma hex_digits_lower (fuel : nat) :
  forall n, 0 <= n ->
    string_forall is_lower_hex (hex_digits fuel n) = true.
Proof.
  induction fuel as [|fuel IH]; intros n Hn; [reflexivity|].
  cbn [hex_digits]. destruct (Z.ltb_spec n 16) as [Hlt|Hge].
  - cbn [string_forall]. rewrite hex_char_lower by lia. reflexivity.
  - rewrite string_forall_app, IH by (apply Z.div_pos; lia).
    cbn [string_forall].
    rewrite hex_char_lower by (apply Z.mod_pos_bound; lia). reflexivity.
Qed.

Lemma hex_digits_length (fuel : nat) :
  forall (k : nat) n,
    0 <= n < 16 ^ Z.of_nat (S k) ->
    (String.length (hex_digits fuel n) <= S k)%nat.
Proof.
  induction fuel as [|fuel IH]; intros k n Hn; [cbn; lia|].
  cbn [hex_digits]. destruct (Z.ltb_spec n 16) as [Hlt|Hge].
  - cbn. lia.
  - rewrite string_length_app. cbn [String.length].
    destruct k as [|k]; [cbn in Hn; lia|].
    assert (Hdiv : 0 <= n / 16 < 16 ^ Z.of_nat (S k)).
    { split; [apply Z.div_pos; lia|].
      apply Z.div_lt_upper_bound; [lia|].
      replace (Z.of_nat (S (S k))) with (Z.succ (Z.of_nat (S k))) in Hn by lia.
      rewrite Z.pow_succ_r in Hn by lia. lia. }
    specialize (IH k (n / 16) Hdiv). lia.
Qed.

Lemma zeros_length (n : nat) : String.length (zeros n) = n.
Proof. induction n; cbn; congruence. Qed.

Lemma zeros_lower (n : nat) : string_forall is_lower_hex (zeros n) = true.
Proof. induction n as [|n IH]; [reflexivity|]. cbn [zeros string_forall]. now rewrite IH. Qed.

(** [%032x] of a 128-bit number is 32 lowercase hexadecimal digits. *)
Lemma format_032x_shape (n : Z) :
  0 <= n < 2 ^ 128 ->
  String.length (format_032x n) = 32%nat /\
  string_forall is_lower_hex (format_032x n) = true.
Proof.
  intros Hn. unfold format_032x, format_x.
  set (s := hex_digits _ n).
  assert (Hlen : (String.length s <= 32)%nat).
  { apply (hex_digits_length _ 31 n). change (16 ^ Z.of_nat 32) with (2 ^ 128).
    exact Hn. }
  split.
  - rewrite string_length_app, zeros_length. lia.
  - rewrite string_forall_app, zeros_lower. apply hex_digits_lower. lia.
Qed.

Lemma byte_to_Z_range (b : byte) : 0 <= byte_to_Z b < 256.
Proof.
  unfold byte_to_Z. pose proof (Byte.to_N_bounded b). lia.
Qed.

Lemma int_from_bytes_range (bs : list byte) :
  0 <= int_from_bytes bs < 256 ^ Z.of_nat (List.length bs).
Proof.
  unfold int_from_bytes.
  assert (H : forall acc, 0 <= acc ->
    0 <= fold_left (fun a b => a * 256 + byte_to_Z b) bs acc
      < (acc + 1) * 256 ^ Z.of_nat (List.length bs)).
  { induction bs as [|b bs IH]; intros acc Hacc.
    - cbn. lia.
    - cbn [fold_left List.length]. pose proof (byte_to_Z_range b) as Hb.
      specialize (IH (acc * 256 + byte_to_Z b) ltac:(lia)).
      replace (Z.of_nat (S (List.length bs)))
        with (Z.succ (Z.of_nat (List.length bs))) by lia.
      rewrite Z.pow_succ_r by lia.
      assert (0 < 256 ^ Z.of_nat (List.length bs))
        by (apply Z.pow_pos_nonneg; lia).
      nia. }
  specialize (H 0 ltac:(lia)). lia.
Qed.

End HexFacts.

Section UuidFacts.

Local Open Scope Z_scope.

Lemma high_bits_clear (n a : Z) :
  0 <= a < 2 ^ n -> forall i, n <= i -> Z.testbit a i = false.
Proof.
  intros [Ha Hlt] i Hi.
  destruct (Z.eq_dec a 0) as [->|Hne]; [apply Z.bits_0|].
  apply Z.bits_above_log2; [exact Ha|].
  assert (Z.log2 a < n) by (apply Z.log2_lt_pow2; lia). lia.
Qed.

Lemma below_pow2_of_bits (n a : Z) :
  0 <= n -> 0 <= a -> (forall i, n <= i -> Z.testbit a i = false) ->
  a < 2 ^ n.
Proof.
  intros Hn Ha Hbits.
  destruct (Z.eq_dec a 0) as [->|Hne]; [apply Z.pow_pos_nonneg; lia|].
  destruct (Z.lt_ge_cases a (2 ^ n)) as [Hlt|Hge]; [exact Hlt|].
  assert (Hlog : n <= Z.log2 a) by (apply Z.log2_le_pow2; lia).
  specialize (Hbits (Z.log2 a) Hlog).
  rewrite Z.bit_log2 in Hbits by lia. discriminate.
Qed.

(** Forcing the variant and version bits keeps the number within 128 bits. *)
Lemma uuid4_int_range (bs : list byte) :
  List.length bs = 16%nat -> 0 <= uuid4_int bs < 2 ^ 128.
Proof.
  intros Hlen. pose proof (int_from_bytes_range bs) as Hr.
  rewrite Hlen in Hr. change (256 ^ Z.of_nat 16) with (2 ^ 128) in Hr.
  unfold uuid4_int. set (a := int_from_bytes bs) in *.
  split.
  - apply Z.lor_nonneg. split; [|vm_compute; congruence].
    apply Z.land_nonneg. left.
    apply Z.lor_nonneg. split; [|vm_compute; congruence].
    apply Z.land_nonneg. left. lia.
  - apply below_pow2_of_bits; [lia| |].
    + apply Z.lor_nonneg. split; [|vm_compute; congruence].
      apply Z.land_nonneg. left.
      apply Z.lor_nonneg. split; [|vm_compute; congruence].
      apply Z.land_nonneg. left. lia.
    + intros i Hi.
      rewrite Z.lor_spec, Z.land_spec, Z.lor_spec, Z.land_spec.
      rewrite (high_bits_clear 128 a Hr i Hi).
      rewrite (high_bits_clear 128 (Z.shiftl 0x8000 48)) by (first [exact Hi | split; vm_compute; congruence]).
      rewrite (high_bits_clear 128 (Z.shiftl 4 76)) by (first [exact Hi | split; vm_compute; congruence]).
      reflexivity.
Qed.

End UuidFacts.

Section IdentityFormatFacts.

(** The 8-4-4-4-12 layout of thirty-two digits. *)
Lemma uuid_layout_shape (hexp : ascii -> bool) (hex : string) :
  String.length hex = 32 -> string_forall hexp hex = true ->
  uuid_shape_from hexp 0
    (substring 0 8 hex ++ "-" ++ substring 8 4 hex ++ "-" ++
     substring 12 4 hex ++ "-" ++ substring 16 4 hex ++ "-" ++
     substring 20 (String.length hex - 20) hex)%string = true.
Proof.
  intros Hlen Hall.
  do 32 (destruct hex as [|? hex]; [discriminate|]).
  destruct hex; [|discriminate]. clear Hlen.
  cbn [string_forall] in Hall.
  repeat match type of Hall with
         | (_ && _)%bool = true =>
             apply andb_true_iff in Hall;
             let H := fresh "Hc" in destruct Hall as [H Hall]
         end.
  cbn -[Ascii.eqb].
  repeat match goal with
         | H : hexp _ = true |- _ => rewrite H; clear H
         end.
  reflexivity.
Qed.

Lemma uuid_str_is_uuid (n : Z) :
  (0 <= n < 2 ^ 128)%Z -> is_uuid (uuid_str n) = true.
Proof.
  intros Hn. destruct (format_032x_shape n Hn) as [Hlen Hall].
  unfold is_uuid, uuid_str. now apply uuid_layout_shape.
Qed.

Lemma urandom_length (n : nat) (g : rng) :
  List.length (fst (urandom n g)) = n.
Proof. unfold urandom. cbn [fst]. now rewrite length_map, length_seq. Qed.

Lemma uuid4_str_is_uuid (g : rng) : is_uuid (fst (uuid4_str g)) = true.
Proof.
  unfold uuid4_str. pose proof (urandom_length 16 g) as Hlen.
  destruct (urandom 16 g) as [bs g']. cbn [fst] in *.
  apply uuid_str_is_uuid, uuid4_int_range, Hlen.
Qed.

Lemma hexdigest_length (digest : list byte) :
  String.length (hexdigest digest) = 2 * List.length digest.
Proof.
  induction digest as [|b rest IH]; [reflexivity|].
  cbn [hexdigest String.length List.length]. rewrite IH. lia.
Qed.

Lemma hexdigest_lower (digest : list byte) :
  string_forall is_lower_hex (hexdigest digest) = true.
Proof.
  induction digest as [|b rest IH]; [reflexivity|].
  cbn [hexdigest string_forall]. pose proof (byte_to_Z_range b) as Hb.
  rewrite !hex_char_lower, IH.
  - reflexivity.
  - apply Z.mod_pos_bound. lia.
  - split; [apply Z.div_pos; lia|apply Z.div_lt_upper_bound; lia].
Qed.

Lemma upper_char_hex (c : ascii) :
  is_lower_hex c = true -> is_upper_hex (upper_char c) = true.
Proof.
  destruct c as [[] [] [] [] [] [] [] []]; vm_compute;
    intros H; solve [reflexivity | discriminate H].
Qed.

Lemma str_upper_shape (s : string) :
  forall i,
    uuid_shape_from is_lower_hex i s = true ->
    uuid_shape_from is_upper_hex i (str_upper s) = true.
Proof.
  induction s as [|c s IH]; intros i H; [exact H|].
  cbn [str_upper uuid_shape_from] in *.
  apply andb_true_iff in H. destruct H as [Hc Hs].
  rewrite (IH _ Hs), andb_true_r.
  destruct (is_hyphen_position i).
  - apply Ascii.eqb_eq in Hc. subst c. reflexivity.
  - now apply upper_char_hex.
Qed.

Lemma uuid_shape_length (hexp : ascii -> bool) (s : string) :
  forall i, uuid_shape_from hexp i s = true -> i + String.length s = 36.
Proof.
  induction s as [|c s IH]; intros i H; cbn [uuid_shape_from] in H.
  - apply Nat.eqb_eq in H. cbn. lia.
  - apply andb_true_iff in H. destruct H as [_ H].
    specialize (IH _ H). cbn [String.length]. lia.
Qed.

Lemma substring_all (s : string) :
  substring 0 (String.length s) s = s.
Proof. induction s as [|c s IH]; [reflexivity|]. cbn. now rewrite IH. Qed.

Lemma substring_app_l (a b : string) :
  substring 0 (String.length a) (a ++ b) = a.
Proof.
  induction a as [|c a IH]; cbn.
  - now destruct b.
  - now rewrite IH.
Qed.

Lemma substring_app_r (a b : string) :
  substring (String.length a) (String.length b) (a ++ b) = b.
Proof.
  induction a as [|c a IH]; cbn; [apply substring_all|exact IH].
Qed.

Lemma braced_upper_uuid (u : string) :
  is_uuid u = true ->
  is_braced_upper_uuid ("{" ++ str_upper u ++ "}") = true.
Proof.
  intros Hu. unfold is_uuid in Hu.
  pose proof (str_upper_shape u 0 Hu) as Hup.
  pose proof (uuid_shape_length _ _ _ Hup) as Hlen. cbn [Nat.add] in Hlen.
  assert (E1 : substring 0 36 (str_upper u ++ "}") = str_upper u)
    by (rewrite <- Hlen; apply substring_app_l).
  assert (E2 : substring 36 1 (str_upper u ++ "}") = "}")
    by (rewrite <- Hlen; apply (substring_app_r (str_upper u) "}")).
  cbn [append is_braced_upper_uuid].
  rewrite E1, E2, string_length_app, Hlen.
  unfold is_upper_uuid. rewrite Hup. reflexivity.
Qed.

Variable sha256 : list byte -> list byte.
Variable sha512 : list byte -> list byte.
Hypothesis sha256_size : forall m, List.length (sha256 m) = 32.
Hypothesis sha512_size : forall m, List.length (sha512 m) = 64.

Lemma generate_new_ids_formats (g : rng) :
  let ids := fst (generate_new_ids sha256 sha512 g) in
  is_uuid (dev_device_id ids) = true /\
  is_lower_hex_of_length 64 (machine_id ids) = true /\
  is_lower_hex_of_length 128 (mac_machine_id ids) = true /\
  is_braced_upper_uuid (sqm_id ids) = true.
Proof.
  unfold generate_new_ids.
  pose proof (uuid4_str_is_uuid g) as H1.
  destruct (uuid4_str g) as [d g1]. cbn [fst] in H1.
  destruct (urandom 32 g1) as [s1 g2].
  destruct (urandom 64 g2) as [s2 g3].
  pose proof (uuid4_str_is_uuid g3) as H4.
  destruct (uuid4_str g3) as [u g4]. cbn [fst] in H4.
  cbn [fst dev_device_id machine_id mac_machine_id sqm_id].
  unfold is_lower_hex_of_length.
  rewrite !hexdigest_length, !hexdigest_lower, sha256_size, sha512_size.
  repeat split; try assumption. now apply braced_upper_uuid.
Qed.

End IdentityFormatFacts.

(** C8: every identity that [generate_new_ids] produces has the four
    formats: [devDeviceId] is a UUID in the 8-4-4-4-12 lowercase layout,
    [machineId] is 64 lowercase hexadecimal characters, [macMachineId] is
    128 of them and [sqmId] is an uppercase UUID between braces.  The hash
    functions are the library's; what is used of them is the size of their
    digests, 32 and 64 bytes. *)
Theorem generate_new_ids_format :
  forall (sha256 sha512 : list byte -> list byte) (g : rng),
    (forall m, List.length (sha256 m) = 32) ->
    (forall m, List.length (sha512 m) = 64) ->
    let ids := fst (generate_new_ids sha256 sha512 g) in
    is_uuid (dev_device_id ids) = true /\
    is_lower_hex_of_length 64 (machine_id ids) = true /\
    is_lower_hex_of_length 128 (mac_machine_id ids) = true /\
    is_braced_upper_uuid (sqm_id ids) = true /\
    ids_dict ids =
      [ (key_devDeviceId, JStr (dev_device_id ids));
        (key_macMachineId, JStr (mac_machine_id ids));
        (key_machineId, JStr (machine_id ids));
        (key_sqmId, JStr (sqm_id ids)) ].
Proof.
  intros sha256 sha512 g H256 H512 ids.
  destruct (generate_new_ids_formats sha256 sha512 H256 H512 g)
    as (H1 & H2 & H3 & H4).
  repeat split; assumption.
Qed.

Lemma generate_new_ids_format_witness :
  is_uuid (dev_device_id (fst (generate_new_ids
    (fun m => firstn 32 (m ++ repeat x00 32))
    (fun m => firstn 64 (m ++ repeat x00 64))
    (mk_rng (fun i => match of_N (N.of_nat (i * 37 mod 256)) with
                      | Some b => b
                      | None => x00
                      end) 0)))) = true.
Proof.
  refine (proj1 (generate_new_ids_format _ _ _ _ _)).
  - intros m. rewrite firstn_length_le; [reflexivity|].
    rewrite length_app, repeat_length. lia.
  - intros m. rewrite firstn_length_le; [reflexivity|].
    rewrite length_app, repeat_length. lia.
Defined.

(** ** Machine identity store *)

Section DictFacts.

Lemma dict_get_set (k k' : string) (v : json) (d : list (string * json)) :
  dict_get k' (dict_set k v d) =
  if k' =? k then Some v else dict_get k' d.
Proof.
  induction d as [|[k0 v0] d IH]; cbn [dict_set dict_get].
  - rewrite (String.eqb_sym k k'). reflexivity.
  - destruct (String.eqb_spec k0 k) as [->|Hk0]; cbn [dict_get].
    + rewrite (String.eqb_sym k k'). now destruct (k' =? k).
    + destruct (String.eqb_spec k0 k') as [<-|Hk'].
      * now rewrite (proj2 (String.eqb_neq k0 k)).
      * exact IH.
Qed.

Lemma dict_get_update_other (k : string) (other : list (string * json)) :
  forall d, ~ In k (map fst other) ->
  dict_get k (dict_update d other) = dict_get k d.
Proof.
  unfold dict_update.
  induction other as [|[k0 v0] other IH]; intros d Hn; [reflexivity|].
  cbn [fold_left fst snd]. cbn [map fst In] in Hn.
  rewrite IH by tauto. rewrite dict_get_set.
  rewrite (proj2 (String.eqb_neq k k0)); [reflexivity|].
  intros ->. tauto.
Qed.

Lemma dict_get_update_in (k : string) (v : json) (other : list (string * json)) :
  forall d, NoDup (map fst other) -> In (k, v) other ->
  dict_get k (dict_update d other) = Some v.
Proof.
  unfold dict_update.
  induction other as [|[k0 v0] other IH]; intros d Hnd Hin; [destruct Hin|].
  cbn [fold_left fst snd]. cbn [map fst] in Hnd.
  inversion Hnd as [|? ? Hnot Hnd']; subst.
  destruct Hin as [Heq|Hin].
  - inversion Heq; subst.
    fold (dict_update (dict_set k v d) other).
    rewrite dict_get_update_other by assumption.
    now rewrite dict_get_set, String.eqb_refl.
  - now apply IH.
Qed.

Lemma ids_dict_keys (ids : machine_ids) :
  map fst (ids_dict ids) = identity_keys.
Proof. reflexivity. Qed.

Lemma identity_keys_NoDup : NoDup identity_keys.
Proof.
  unfold identity_keys. repeat constructor; cbn [In];
    intuition discriminate.
Qed.

End DictFacts.

Section ResetFacts.

Variable json_load : string -> option json.
Variable json_dump : json -> string.
Variable sha256 : list byte -> list byte.
Variable sha512 : list byte -> list byte.

(** What a successful call did. *)
Lemma reset_machine_ids_true (fault : file_fault) (f f' : storage_file)
  (g g' : rng) :
  reset_machine_ids json_load json_dump sha256 sha512 fault f g = (true, f', g') ->
  exists members,
    json_load (file_content f) = Some (JObj members) /\
    f' = set_content f
           (json_dump (JObj (dict_update members
              (ids_dict (fst (generate_new_ids sha256 sha512 g)))))) /\
    g' = snd (generate_new_ids sha256 sha512 g).
Proof.
  unfold reset_machine_ids.
  destruct (file_exists f); cbn [negb]; [|discriminate].
  destruct (file_access_rw f); cbn [negb]; [|discriminate].
  destruct (json_load (file_content f)) as [config|];
    [|destruct fault; discriminate].
  destruct (generate_new_ids sha256 sha512 g) as [ids g1]. cbn [fst snd].
  destruct config; try (destruct fault; discriminate).
  destruct fault; try discriminate;
    intros H; inversion H; subst; eauto.
Qed.

End ResetFacts.

(** C7: a successful reset touches the four identity keys only.  The file
    read held an object; the text written is the dump of that object
    updated with the four new pairs; in the updated object every other key
    has the value it had, and each identity key has its new value.  When
    the library reads back what it wrote, the file after the reset holds an
    object that agrees with the one before on every other key. *)
Theorem reset_machine_ids_preserves_other_keys :
  forall (json_load : string -> option json) (json_dump : json -> string)
         (sha256 sha512 : list byte -> list byte)
         (fault : file_fault) (f f' : storage_file) (g g' : rng),
    reset_machine_ids json_load json_dump sha256 sha512 fault f g
      = (true, f', g') ->
    exists members merged,
      json_load (file_content f) = Some (JObj members) /\
      merged = dict_update members
                 (ids_dict (fst (generate_new_ids sha256 sha512 g))) /\
      file_content f' = json_dump (JObj merged) /\
      (forall k, ~ In k identity_keys ->
         dict_get k merged = dict_get k members) /\
      (forall k v,
         In (k, v) (ids_dict (fst (generate_new_ids sha256 sha512 g))) ->
         dict_get k merged = Some v) /\
      (json_load (json_dump (JObj merged)) = Some (JObj merged) ->
       exists members',
         json_load (file_content f') = Some (JObj members') /\
         forall k, ~ In k identity_keys ->
           dict_get k members' = dict_get k members).
Proof.
  intros json_load json_dump sha256 sha512 fault f f' g g' H.
  apply reset_machine_ids_true in H. destruct H as (members & Hload & -> & _).
  set (ids := fst (generate_new_ids sha256 sha512 g)).
  assert (Hother : forall k, ~ In k identity_keys ->
            dict_get k (dict_update members (ids_dict ids)) = dict_get k members).
  { intros k Hk. apply dict_get_update_other. now rewrite ids_dict_keys. }
  exists members, (dict_update members (ids_dict ids)).
  split; [exact Hload|]. split; [reflexivity|]. split; [reflexivity|].
  split; [exact Hother|]. split.
  - intros k v Hin. apply dict_get_update_in; [|exact Hin].
    rewrite ids_dict_keys. apply identity_keys_NoDup.
  - intros Hback. exists (dict_update members (ids_dict ids)).
    split; [exact Hback|exact Hother].
Qed.

Lemma reset_result_eta (r : bool * storage_file * rng) :
  fst (fst r) = true -> r = (true, snd (fst r), snd r).
Proof. destruct r as [[b f] g]. cbn. now intros ->. Qed.

Lemma reset_machine_ids_preserves_other_keys_witness :
  exists members merged,
    ref_json_load example_file_text = Some (JObj members) /\
    file_content (snd (fst (reset_machine_ids ref_json_load ref_json_dump
       stub_sha256 stub_sha512 NoFileFault example_file example_rng)))
      = ref_json_dump (JObj merged) /\
    dict_get "theme" merged = dict_get "theme" members.
Proof.
  set (r := reset_machine_ids ref_json_load ref_json_dump
              stub_sha256 stub_sha512 NoFileFault example_file example_rng).
  assert (Hr : fst (fst r) = true) by (vm_compute; reflexivity).
  destruct (reset_machine_ids_preserves_other_keys
              ref_json_load ref_json_dump stub_sha256 stub_sha512
              NoFileFault example_file (snd (fst r)) example_rng (snd r)
              (reset_result_eta r Hr))
    as (members & merged & Hload & _ & Hfile & Hother & _).
  exists members, merged. split; [exact Hload|]. split; [exact Hfile|].
  apply Hother. unfold identity_keys. cbn [In]. intuition discriminate.
Defined.

(** C1 on the code: the write step fails after the read and the merge.  The
    call returns [False] and the file, which [open(path, w)] had emptied, is
    left empty: its content is not what it was before the call. *)
Theorem reset_write_failure_truncates_file :
  ref_json_load example_file_text =
    Some (JObj [("theme", JStr "dark"); (key_devDeviceId, JStr "old")]) /\
  fst (fst (reset_machine_ids ref_json_load ref_json_dump
              stub_sha256 stub_sha512 (WriteFailsAfter 0)
              example_file example_rng)) = false /\
  file_content (snd (fst (reset_machine_ids ref_json_load ref_json_dump
              stub_sha256 stub_sha512 (WriteFailsAfter 0)
              example_file example_rng))) = EmptyString /\
  file_content (snd (fst (reset_machine_ids ref_json_load ref_json_dump
              stub_sha256 stub_sha512 (WriteFailsAfter 0)
              example_file example_rng))) <> file_content example_file.
Proof.
  split; [vm_compute; reflexivity|].
  split; [vm_compute; reflexivity|].
  assert (E : file_content (snd (fst (reset_machine_ids ref_json_load
              ref_json_dump stub_sha256 stub_sha512 (WriteFailsAfter 0)
              example_file example_rng))) = EmptyString)
    by (vm_compute; reflexivity).
  split; [exact E|]. rewrite E. vm_compute. discriminate.
Qed.

(** ** Further properties of the credential persister *)

Section CursorAuthMoreFacts.
Import CursorAuthManager.

Lemma run_updates_fault (f : db_fault) (updates : list row) :
  forall i t,
    run_updates f i updates t =
    match f with
    | ExecuteFails j =>
        if ((i <=? j) && (j <? i + List.length updates))%nat then None
        else Some (run_all updates t)
    | _ => Some (run_all updates t)
    end.
Proof.
  induction updates as [|kv rest IH]; intros i t.
  - cbn [run_updates List.length]. destruct f; try reflexivity.
    destruct (Nat.leb_spec i i0), (Nat.ltb_spec i0 (i + 0)); try reflexivity; lia.
  - cbn [run_updates List.length]. rewrite IH.
    change (run_all (kv :: rest) t) with (run_all rest (upsert kv t)).
    destruct f; cbn [execute_fails]; try reflexivity.
    destruct (Nat.eqb_spec i0 i) as [->|Hne].
    + destruct (Nat.leb_spec i i), (Nat.ltb_spec i (i + S (List.length rest)));
        try reflexivity; lia.
    + destruct (Nat.leb_spec (S i) i0), (Nat.ltb_spec i0 (S i + List.length rest)),
        (Nat.leb_spec i i0), (Nat.ltb_spec i0 (i + S (List.length rest)));
        cbn [andb]; try reflexivity; lia.
Qed.

(** The call as a whole: it fails exactly when the fault strikes, and then
    the committed table is the one it started from. *)
Theorem update_auth_all_or_nothing :
  forall (f : db_fault) (e a r : option string) (db : itemTable),
    update_auth f e a r db =
    if fault_strikes f (List.length (build_updates e a r))
    then (false, db)
    else (true, run_all (build_updates e a r) db).
Proof.
  intros f e a r db. unfold update_auth.
  destruct (build_updates e a r) as [|kv rest] eqn:Hu.
  - destruct e, a, r; discriminate.
  - rewrite run_updates_fault. destruct f; cbn [fault_strikes]; try reflexivity.
    cbn [Nat.leb andb Nat.add].
    now destruct (i <? List.length (kv :: rest))%nat.
Qed.

Lemma foreign_rows_upsert (k : string) (v : option string) (t : itemTable) :
  is_auth_key k = true -> foreign_rows (upsert (k, v) t) = foreign_rows t.
Proof.
  intros Hk. unfold upsert, foreign_rows.
  destruct (select_count k t =? 0)%nat.
  - unfold insert_row. rewrite filter_app. cbn [filter fst].
    rewrite Hk. cbn [negb]. apply app_nil_r.
  - unfold update_rows. induction t as [|[k0 v0] t IH]; [reflexivity|].
    cbn [map filter fst].
    destruct (String.eqb_spec k0 k) as [->|Hne]; cbn [fst].
    + rewrite Hk. cbn [negb]. exact IH.
    + destruct (negb (is_auth_key k0)); [now rewrite IH|exact IH].
Qed.

Lemma build_updates_keys (e a r : option string) :
  Forall (fun kv => is_auth_key (fst kv) = true) (build_updates e a r).
Proof. destruct e, a, r; repeat constructor. Qed.

Lemma foreign_rows_run_all (updates : list row) :
  Forall (fun kv => is_auth_key (fst kv) = true) updates ->
  forall t, foreign_rows (run_all updates t) = foreign_rows t.
Proof.
  induction 1 as [|[k v] rest Hk _ IH]; intros t; [reflexivity|].
  change (run_all ((k, v) :: rest) t) with (run_all rest (upsert (k, v) t)).
  rewrite IH. now apply foreign_rows_upsert.
Qed.

(** Whatever the arguments and whether or not the call succeeds, the rows
    whose key is not one of the four [cursorAuth/...] keys are left as they
    were, values and order. *)
Theorem update_auth_leaves_foreign_rows :
  forall (f : db_fault) (e a r : option string) (db : itemTable),
    foreign_rows (snd (update_auth f e a r db)) = foreign_rows db.
Proof.
  intros f e a r db. rewrite update_auth_all_or_nothing.
  destruct (fault_strikes f _); cbn [snd]; [reflexivity|].
  apply foreign_rows_run_all, build_updates_keys.
Qed.

Lemma update_rows_same (k : string) (v : option string) (t : itemTable) :
  Forall (eq v) (select_values k t) -> update_rows k v t = t.
Proof.
  unfold select_values, update_rows.
  induction t as [|[k0 v0] t IH]; intros H; [reflexivity|].
  cbn [map filter fst] in *.
  destruct (String.eqb_spec k0 k) as [->|Hne].
  - cbn [map snd] in H. inversion H as [|? ? Hv Hrest]; subst.
    now rewrite IH.
  - now rewrite IH.
Qed.

Lemma upsert_settled (k : string) (v : option string) (t : itemTable) :
  select_values k t <> [] -> Forall (eq v) (select_values k t) ->
  upsert (k, v) t = t.
Proof.
  intros Hne Hall. unfold upsert.
  destruct (Nat.eqb_spec (select_count k t) 0) as [Hz|_].
  - apply select_values_none in Hz. contradiction.
  - now apply update_rows_same.
Qed.

Lemma run_all_settled (updates : list row) (t : itemTable) :
  Forall (fun kv => select_values (fst kv) t <> [] /\
                    Forall (eq (snd kv)) (select_values (fst kv) t)) updates ->
  run_all updates t = t.
Proof.
  induction 1 as [|[k v] rest [Hne Hall] _ IH]; [reflexivity|].
  change (run_all ((k, v) :: rest) t) with (run_all rest (upsert (k, v) t)).
  cbn [fst snd] in *. now rewrite upsert_settled.
Qed.

Lemma Forall_eq_repeat (A : Type) (x : A) (n : nat) : Forall (eq x) (repeat x n).
Proof. induction n; cbn; constructor; auto. Qed.

(** A successful call repeated with the same arguments writes the same
    values again: the table does not change a second time. *)
Theorem update_auth_idempotent :
  forall (e a r : option string) (db : itemTable),
    update_auth NoFault e a r (snd (update_auth NoFault e a r db)) =
    update_auth NoFault e a r db.
Proof.
  intros e a r db. rewrite !update_auth_NoFault. cbn [snd]. f_equal.
  apply run_all_settled. apply Forall_forall. intros [k v] Hin. cbn [fst snd].
  rewrite (select_values_run_all_in k v) by
    (first [apply build_updates_NoDup | exact Hin]).
  split.
  - destruct (Nat.max 1 (select_count k db)) eqn:Hm; [lia|]. discriminate.
  - apply Forall_eq_repeat.
Qed.

End CursorAuthMoreFacts.

(** ** Further properties of the session token acquirer *)

Section SessionTokenMoreFacts.

Variable tab_cookies : nat -> option (list cookie).

Lemma retry_sleep_calls (attempts max_attempts retry_interval : nat)
  (w : tab_world) :
  cookie_calls (retry_sleep attempts max_attempts retry_interval w)
  = cookie_calls w.
Proof. unfold retry_sleep. now destruct (attempts <? max_attempts)%nat. Qed.

Lemma token_loop_failed_pass (fuel attempts max_attempts retry_interval : nat)
  (w : tab_world) :
  (attempts < max_attempts)%nat ->
  read_fails (tab_cookies (cookie_calls w)) = true ->
  token_loop tab_cookies (S fuel) attempts max_attempts retry_interval w =
  token_loop tab_cookies fuel (attempts + 1) max_attempts retry_interval
    (retry_sleep (attempts + 1) max_attempts retry_interval
       (mk_tab_world (S (cookie_calls w)) (tab_slept w))).
Proof.
  intros Hlt Hfail. cbn [token_loop].
  rewrite (proj2 (Nat.ltb_lt _ _) Hlt). unfold read_fails in Hfail.
  destruct (tab_cookies (cookie_calls w)) as [cookies|]; [|reflexivity].
  destruct (scan_cookies cookies); [discriminate|reflexivity|reflexivity].
Qed.

(** [k] failing reads in a row, starting from [attempts]. *)
Lemma token_loop_failing_reads (retry_interval max_attempts : nat) :
  forall k fuel attempts w,
    (attempts + k <= max_attempts)%nat ->
    (forall i, (i < k)%nat ->
       read_fails (tab_cookies (cookie_calls w + i)) = true) ->
    token_loop tab_cookies (k + fuel) attempts max_attempts retry_interval w =
    token_loop tab_cookies fuel (attempts + k) max_attempts retry_interval
      (mk_tab_world (cookie_calls w + k)
         (repeat retry_interval
            (if (attempts + k <? max_attempts)%nat then k else k - 1)
          ++ tab_slept w)).
Proof.
  induction k as [|k IH]; intros fuel attempts w Hle Hfail.
  - rewrite !Nat.add_0_r. destruct w as [c l].
    cbn [Nat.add cookie_calls tab_slept].
    destruct (attempts <? max_attempts)%nat; reflexivity.
  - cbn [Nat.add]. rewrite token_loop_failed_pass.
    + rewrite IH.
      * rewrite retry_sleep_calls. cbn [cookie_calls].
        replace (attempts + 1 + k)%nat with (attempts + S k)%nat by lia.
        replace (S (cookie_calls w) + k)%nat
          with (cookie_calls w + S k)%nat by lia.
        f_equal. f_equal. unfold retry_sleep.
        destruct (Nat.ltb_spec (attempts + S k) max_attempts) as [Hlt|Hge].
        -- rewrite (proj2 (Nat.ltb_lt (attempts + 1) max_attempts)) by lia.
           cbn [tab_slept]. apply repeat_snoc_cons.
        -- destruct k as [|k].
           ++ rewrite (proj2 (Nat.ltb_ge (attempts + 1) max_attempts)) by lia.
              reflexivity.
           ++ rewrite (proj2 (Nat.ltb_lt (attempts + 1) max_attempts)) by lia.
              cbn [tab_slept Nat.sub]. rewrite Nat.sub_0_r.
              apply repeat_snoc_cons.
      * lia.
      * intros i Hi. rewrite retry_sleep_calls. cbn [cookie_calls].
        replace (S (cookie_calls w) + i)%nat
          with (cookie_calls w + S i)%nat by lia.
        apply Hfail. lia.
    + lia.
    + specialize (Hfail 0%nat). rewrite Nat.add_0_r in Hfail.
      apply Hfail. lia.
Qed.

End SessionTokenMoreFacts.

(** When no read of the cookies yields a token (the read raises, there is no
    session cookie, or its value cannot be split), the function gives up
    with [None] after exactly [max_attempts] reads and [max_attempts - 1]
    sleeps of [retry_interval]: it does not sleep after the last attempt. *)
Theorem session_token_gives_up :
  forall (tab_cookies : nat -> option (list cookie))
         (max_attempts retry_interval : nat) (w : tab_world),
    (forall i, i < max_attempts ->
       read_fails (tab_cookies (cookie_calls w + i)) = true) ->
    get_cursor_session_token tab_cookies max_attempts retry_interval w =
    Some (None,
          mk_tab_world (cookie_calls w + max_attempts)
            (repeat retry_interval (max_attempts - 1) ++ tab_slept w)).
Proof.
  intros tab_cookies max_attempts retry_interval w Hfail.
  unfold get_cursor_session_token.
  replace (S max_attempts) with (max_attempts + 1) by lia.
  rewrite token_loop_failing_reads by (assumption || lia).
  cbn [Nat.add token_loop]. rewrite Nat.ltb_irrefl. reflexivity.
Qed.

Lemma session_token_gives_up_witness :
  get_cursor_session_token
    (fun i => match i with
              | 0 => None
              | 1 => Some [mk_cookie (Some "other") (Some "x")]
              | _ => Some [mk_cookie (Some session_cookie_name) (Some "AAA")]
              end) 3 2 (mk_tab_world 0 []) =
  Some (None, mk_tab_world 3 [2; 2]).
Proof.
  refine (session_token_gives_up _ 3 2 (mk_tab_world 0 []) _).
  intros i Hi. destruct i as [|[|[|i]]]; [reflexivity|reflexivity|reflexivity|lia].
Defined.

(** When the first [n] reads fail and the next one holds a session cookie
    that splits, with [n < max_attempts], the token is returned after
    [n + 1] reads and [n] sleeps. *)
Theorem session_token_found_after_retries :
  forall (tab_cookies : nat -> option (list cookie))
         (max_attempts retry_interval n : nat) (w : tab_world)
         (cookies : list cookie) (token : string),
    n < max_attempts ->
    (forall i, i < n ->
       read_fails (tab_cookies (cookie_calls w + i)) = true) ->
    tab_cookies (cookie_calls w + n) = Some cookies ->
    scan_cookies cookies = Found token ->
    get_cursor_session_token tab_cookies max_attempts retry_interval w =
    Some (Some token,
          mk_tab_world (S (cookie_calls w + n))
            (repeat retry_interval n ++ tab_slept w)).
Proof.
  intros tab_cookies max_attempts retry_interval n w cookies token
    Hn Hfail Hread Hscan.
  unfold get_cursor_session_token.
  replace (S max_attempts) with (n + S (max_attempts - n)) by lia.
  rewrite token_loop_failing_reads by (assumption || lia).
  cbn [Nat.add token_loop cookie_calls tab_slept].
  rewrite (proj2 (Nat.ltb_lt n max_attempts) Hn).
  now rewrite Hread, Hscan.
Qed.

Lemma session_token_found_after_retries_witness :
  get_cursor_session_token
    (fun i => match i with
              | 0 => None
              | _ => Some [mk_cookie (Some session_cookie_name)
                             (Some "AAA%3A%3ABBB")]
              end) 3 2 (mk_tab_world 0 []) =
  Some (Some "BBB", mk_tab_world 2 [2]).
Proof.
  refine (session_token_found_after_retries _ 3 2 1 (mk_tab_world 0 [])
            [mk_cookie (Some session_cookie_name) (Some "AAA%3A%3ABBB")]
            "BBB" _ _ _ _).
  - lia.
  - intros i Hi. destruct i; [reflexivity|lia].
  - reflexivity.
  - reflexivity.
Defined.

(** Only the first cookie named [WorkosCursorSessionToken] counts: what
    follows it in the list has no influence, so a session cookie that cannot
    be split makes the read fail even when a well-formed one comes later. *)
Theorem scan_cookies_first_session_cookie :
  forall (pre post : list cookie) (c : cookie),
    forallb (fun c => negb (name_is c session_cookie_name)) pre = true ->
    name_is c session_cookie_name = true ->
    scan_cookies (pre ++ c :: post) = scan_cookies [c] /\
    scan_cookies [c] <> NotFound.
Proof.
  intros pre post c Hpre Hc. rewrite scan_cookies_skip by assumption.
  cbn [scan_cookies]. rewrite Hc. split; [reflexivity|].
  destruct (cookie_value c) as [v|]; [|discriminate].
  destruct (nth_error (str_split session_delimiter v) 1); discriminate.
Qed.

Lemma scan_cookies_first_session_cookie_witness :
  scan_cookies
    ([mk_cookie (Some "other") (Some "x")]
     ++ mk_cookie (Some session_cookie_name) (Some "AAA")
     :: [mk_cookie (Some session_cookie_name) (Some "AAA%3A%3ABBB")])
  = ScanRaises.
Proof.
  exact (proj1 (scan_cookies_first_session_cookie
                  [mk_cookie (Some "other") (Some "x")]
                  [mk_cookie (Some session_cookie_name) (Some "AAA%3A%3ABBB")]
                  (mk_cookie (Some session_cookie_name) (Some "AAA"))
                  eq_refl eq_refl)).
Defined.

(** ** Further properties of the machine identity store *)

Section ResetMoreFacts.

Variable json_load : string -> option json.
Variable json_dump : json -> string.
Variable sha256 : list byte -> list byte.
Variable sha512 : list byte -> list byte.

Lemma reset_no_fault_flag (f : storage_file) (g : rng) :
  fst (fst (reset_machine_ids json_load json_dump sha256 sha512
              NoFileFault f g)) =
  file_exists f && file_access_rw f
  && loads_object (json_load (file_content f)).
Proof.
  unfold reset_machine_ids.
  destruct (file_exists f), (file_access_rw f); cbn [negb andb];
    try reflexivity.
  destruct (json_load (file_content f)) as [config|]; [|reflexivity].
  destruct (generate_new_ids sha256 sha512 g) as [ids g1].
  destruct config; reflexivity.
Qed.

Lemma reset_failure_file (fault : file_fault) (f : storage_file) (g : rng) :
  fst (fst (reset_machine_ids json_load json_dump sha256 sha512 fault f g))
    = false ->
  (forall n, fault <> WriteFailsAfter n) ->
  snd (fst (reset_machine_ids json_load json_dump sha256 sha512 fault f g)) = f.
Proof.
  unfold reset_machine_ids. intros Hflag Hfault.
  destruct (file_exists f); cbn [negb] in *; [|reflexivity].
  destruct (file_access_rw f); cbn [negb] in *; [|reflexivity].
  destruct (json_load (file_content f)) as [config|];
    [|destruct fault; reflexivity].
  destruct (generate_new_ids sha256 sha512 g) as [ids g1].
  destruct config; try (destruct fault; reflexivity).
  destruct fault; try reflexivity.
  - discriminate Hflag.
  - now elim (Hfault written).
Qed.

Lemma reset_write_failure (n : nat) (f : storage_file) (g : rng)
  (members : list (string * json)) :
  file_exists f = true -> file_access_rw f = true ->
  json_load (file_content f) = Some (JObj members) ->
  reset_machine_ids json_load json_dump sha256 sha512 (WriteFailsAfter n) f g =
  (false,
   set_content f
     (substring 0 n
        (json_dump (JObj (dict_update members
           (ids_dict (fst (generate_new_ids sha256 sha512 g))))))),
   snd (generate_new_ids sha256 sha512 g)).
Proof.
  intros He Ha Hl. unfold reset_machine_ids. rewrite He, Ha, Hl. cbn [negb].
  now destruct (generate_new_ids sha256 sha512 g).
Qed.

End ResetMoreFacts.

(** Without a fault of the file system, [reset_machine_ids] returns [True]
    exactly when the file exists, is readable and writable, and holds JSON
    whose top level is an object; a list or a number at the top level makes
    it return [False]. *)
Theorem reset_machine_ids_succeeds_iff :
  forall (json_load : string -> option json) (json_dump : json -> string)
         (sha256 sha512 : list byte -> list byte) (f : storage_file) (g : rng),
    fst (fst (reset_machine_ids json_load json_dump sha256 sha512
                NoFileFault f g)) =
    file_exists f && file_access_rw f
    && loads_object (json_load (file_content f)).
Proof. intros. apply reset_no_fault_flag. Qed.

(** A call that returns [False] for any reason other than a failure of the
    dump itself (missing file, no permission, the read raising, text that is
    not JSON, JSON that is not an object, the open for writing raising)
    leaves the file as it was. *)
Theorem reset_machine_ids_failure_keeps_file :
  forall (json_load : string -> option json) (json_dump : json -> string)
         (sha256 sha512 : list byte -> list byte)
         (fault : file_fault) (f : storage_file) (g : rng),
    fst (fst (reset_machine_ids json_load json_dump sha256 sha512 fault f g))
      = false ->
    (forall n, fault <> WriteFailsAfter n) ->
    snd (fst (reset_machine_ids json_load json_dump sha256 sha512 fault f g))
      = f.
Proof. intros. now apply reset_failure_file. Qed.

Lemma reset_machine_ids_failure_keeps_file_witness :
  snd (fst (reset_machine_ids ref_json_load ref_json_dump
              stub_sha256 stub_sha512 NoFileFault
              (mk_storage_file true true "[1, 2]") example_rng))
  = mk_storage_file true true "[1, 2]".
Proof.
  refine (reset_machine_ids_failure_keeps_file _ _ _ _ NoFileFault _ _ _ _).
  - vm_compute. reflexivity.
  - intros n. discriminate.
Defined.

(** When the dump raises after [n] characters, the call returns [False] and
    the file holds the first [n] characters of the new text, nothing of the
    old one. *)
Theorem reset_machine_ids_write_failure_leaves_prefix :
  forall (json_load : string -> option json) (json_dump : json -> string)
         (sha256 sha512 : list byte -> list byte)
         (n : nat) (f : storage_file) (g : rng)
         (members : list (string * json)),
    file_exists f = true -> file_access_rw f = true ->
    json_load (file_content f) = Some (JObj members) ->
    reset_machine_ids json_load json_dump sha256 sha512 (WriteFailsAfter n) f g =
    (false,
     set_content f
       (substring 0 n
          (json_dump (JObj (dict_update members
             (ids_dict (fst (generate_new_ids sha256 sha512 g))))))),
     snd (generate_new_ids sha256 sha512 g)).
Proof. intros. now apply reset_write_failure. Qed.

Lemma reset_machine_ids_write_failure_leaves_prefix_witness :
  file_content (snd (fst (reset_machine_ids ref_json_load ref_json_dump
     stub_sha256 stub_sha512 (WriteFailsAfter 14) example_file example_rng)))
  = substring 0 14
      (ref_json_dump (JObj (dict_update
         [("theme", JStr "dark"); (key_devDeviceId, JStr "old")]
         (ids_dict (fst (generate_new_ids stub_sha256 stub_sha512
                           example_rng)))))).
Proof.
  rewrite (reset_machine_ids_write_failure_leaves_prefix
             ref_json_load ref_json_dump stub_sha256 stub_sha512 14
             example_file example_rng
             [("theme", JStr "dark"); (key_devDeviceId, JStr "old")]
             eq_refl eq_refl ltac:(vm_compute; reflexivity)).
  reflexivity.
Defined.

(** ** Further properties of the mailbox poller *)

Section PollerMoreFacts.

Variable account : string.
Variable imap : nat -> imap_session.

(** The recursion from [retry] with [k = 20 - retry] sessions still allowed:
    it ends within the fuel, raises only at [retry = 20], opens at most [k]
    sessions and only ever sleeps 3 seconds. *)
Lemma inner_retries_bounded (k : nat) :
  forall fuel retry w,
    retry + k = 20 -> k < fuel ->
    exists res w',
      _get_mail_code_by_icloud_imap account imap fuel retry w = Some (res, w') /\
      (retry < 20 -> exists v, res = Return v) /\
      connections w <= connections w' <= connections w + k /\
      exists j, j <= k + 1 /\ mail_slept w' = repeat 3 j ++ mail_slept w.
Proof.
  induction k as [|k IH]; intros fuel retry w Hk Hfuel;
    (destruct fuel as [|fuel]; [lia|]); cbn [_get_mail_code_by_icloud_imap].
  - assert (retry = 20) by lia. subst retry. cbn [Nat.ltb Nat.leb].
    eexists _, _. split; [reflexivity|]. split; [lia|].
    cbn [mail_sleep connections mail_slept]. split; [lia|].
    exists 1. split; [lia|reflexivity].
  - destruct (Nat.leb_spec 20 retry) as [|_]; [lia|].
    set (w1 := if (0 <? retry)%nat then mail_sleep 3 w else w).
    assert (Hw1 : connections w1 = connections w /\
                  exists j, j <= 1 /\ mail_slept w1 = repeat 3 j ++ mail_slept w).
    { subst w1. destruct (0 <? retry)%nat; cbn; split; try reflexivity.
      - exists 1. split; [lia|reflexivity].
      - exists 0. split; [lia|reflexivity]. }
    destruct Hw1 as (Hc1 & j1 & Hj1 & Hs1).
    set (w2 := mk_mail_world (S (connections w1)) (mail_slept w1)).
    assert (Hdirect : forall v,
      exists res w',
        Some (@Return (option string) v, w2) = Some (res, w') /\
        (retry < 20 -> exists v0, res = Return v0) /\
        connections w <= connections w' <= connections w + S k /\
        exists j, j <= S k + 1 /\ mail_slept w' = repeat 3 j ++ mail_slept w).
    { intros v. exists (Return v), w2. split; [reflexivity|].
      split; [eauto|]. subst w2. cbn [connections mail_slept].
      split; [lia|]. exists j1. split; [lia|exact Hs1]. }
    destruct (imap (connections w1)) as [| |mails delete_ok];
      [apply Hdirect|apply Hdirect|].
    destruct mails as [|m mails]; [|apply Hdirect].
    destruct (IH fuel (retry + 1) w2 ltac:(lia) ltac:(lia))
      as (res & w' & Hrun & Hres & Hconn & j & Hj & Hslept).
    rewrite Hrun. subst w2. cbn [connections mail_slept] in *.
    assert (Hfinal : connections w <= connections w' <= connections w + S k /\
              exists j0, j0 <= S k + 1 /\
                mail_slept w' = repeat 3 j0 ++ mail_slept w).
    { split; [lia|]. exists (j + j1). split; [lia|].
      rewrite Hslept, Hs1, app_assoc, <- repeat_app. reflexivity. }
    destruct res as [v|e]; eexists _, _;
      (split; [reflexivity|]); (split; [eauto|exact Hfinal]).
Qed.

Lemma latest_mail_code_returns (w : mail_world) :
  exists v w',
    _get_latest_mail_code account ConfigOK imap w = Some (Return v, w') /\
    (forall c, v = Some c -> c <> EmptyString) /\
    connections w <= connections w' <= connections w + 20.
Proof.
  unfold _get_latest_mail_code.
  destruct (inner_retries_bounded 20 21 0 w ltac:(lia) ltac:(lia))
    as (res & w' & Hrun & Hres & Hconn & _).
  rewrite Hrun. destruct (Hres ltac:(lia)) as [v ->].
  eexists _, w'. split; [reflexivity|]. split; [|exact Hconn].
  intros c Hc. destruct v as [s|]; cbn [truthy] in Hc.
  - destruct (String.eqb_spec s ""); cbn [negb] in Hc; [discriminate|].
    inversion Hc; subst. assumption.
  - discriminate.
Qed.

Lemma verification_attempts_returns (retry_interval max_retries : nat) :
  forall n attempt w,
    attempt + S n = max_retries ->
    exists v w',
      verification_attempts account ConfigOK imap (seq attempt (S n))
        max_retries retry_interval w = Some (Return v, w') /\
      connections w <= connections w' <= connections w + 20 * S n.
Proof.
  induction n as [|n IH]; intros attempt w Hmax.
  - rewrite (seq_cons_eq attempt 0), verification_attempts_cons.
    destruct (latest_mail_code_returns w) as (v & w' & -> & _ & Hconn).
    rewrite (proj2 (Z.ltb_ge _ _)) by lia. cbn [andb].
    exists v, w'. split; [reflexivity|lia].
  - rewrite (seq_cons_eq attempt (S n)), verification_attempts_cons.
    destruct (latest_mail_code_returns w) as (v & w' & -> & _ & Hconn).
    destruct ((Z.of_nat attempt <? Z.of_nat max_retries - 1)%Z
              && negb (truthy v)).
    + destruct (IH (S attempt) (mail_sleep retry_interval w') ltac:(lia))
        as (v2 & w2 & -> & Hconn2).
      rewrite mail_sleep_connections in Hconn2.
      exists v2, w2. split; [reflexivity|lia].
    + exists v, w'. split; [reflexivity|lia].
Qed.

Lemma verification_attempts_no_config (retry_interval max_retries : nat)
  (config : config_result) :
  config <> ConfigOK ->
  forall n attempt w,
    attempt + S n = max_retries ->
    verification_attempts account config imap (seq attempt (S n))
      max_retries retry_interval w =
    Some (match config with
          | ConfigRaises => Raise "max_retries_reached_with_error"
          | _ => Return None
          end,
          mk_mail_world (connections w)
            (repeat retry_interval n ++ mail_slept w)).
Proof.
  intros Hcfg. induction n as [|n IH]; intros attempt w Hmax.
  - change (seq attempt 1) with [attempt]. cbn [verification_attempts].
    unfold _get_latest_mail_code.
    destruct config; [| |congruence];
      rewrite (proj2 (Z.ltb_ge _ _)) by lia; cbn [andb]; now destruct w.
  - rewrite (seq_cons_eq attempt (S n)). cbn [verification_attempts].
    unfold _get_latest_mail_code.
    destruct config; [| |congruence];
      rewrite (proj2 (Z.ltb_lt _ _)) by lia; cbn [andb truthy negb];
      fold (_get_latest_mail_code account ConfigRaises imap);
      fold (_get_latest_mail_code account ConfigMissing imap).
    + rewrite (IH (S attempt)) by lia.
      rewrite mail_sleep_connections, mail_sleep_slept.
      now rewrite repeat_snoc_cons.
    + rewrite (IH (S attempt)) by lia.
      rewrite mail_sleep_connections, mail_sleep_slept.
      now rewrite repeat_snoc_cons.
Qed.

(** What the scan of the mails returns is a code found in a message that
    was fetched with status OK and passes the recipient and sender tests. *)
Lemma scan_mails_sound (delete_ok : bool) (mails : list fetch_result) (code : string) :
  scan_mails account delete_ok mails = Some code ->
  six_digits code = true /\
  exists m,
    In (Fetched true m) mails /\ qualifies account m = true /\
    re_search_code (_extract_imap_body m) = Some code.
Proof.
  induction mails as [|r mails IH]; cbn [scan_mails]; [discriminate|].
  intros H.
  assert (Hrest : scan_mails account delete_ok mails = Some code ->
    six_digits code = true /\
    exists m, In (Fetched true m) (r :: mails) /\ qualifies account m = true /\
              re_search_code (_extract_imap_body m) = Some code).
  { intros Hs. destruct (IH Hs) as (H6 & m & Hin & Hq & Hre).
    split; [exact H6|]. exists m. cbn [In]. auto. }
  destruct r as [| |[|] m]; try discriminate; [|now apply Hrest].
  destruct (contains account (header_to m)) eqn:Hto; cbn [negb] in H;
    [|now apply Hrest].
  destruct (contains sender_filter (header_from m)) eqn:Hfrom; cbn [negb] in H;
    [|now apply Hrest].
  destruct (_extract_imap_body m =? "") eqn:Hbody; cbn [negb] in H;
    [now apply Hrest|].
  destruct (re_search_code (_extract_imap_body m)) as [c|] eqn:Hre;
    [|now apply Hrest].
  destruct delete_ok; [|discriminate]. inversion H; subst c.
  split.
  - pose proof (search_from_spec (_extract_imap_body m) None) as Hspec.
    unfold re_search_code in Hre. rewrite Hre in Hspec.
    destruct Hspec as (pre & post & _ & Hsix & _). exact Hsix.
  - exists m. cbn [In]. unfold qualifies. rewrite Hto, Hfrom. auto.
Qed.

Lemma inner_code_six_digits (fuel : nat) :
  forall retry w c w',
    _get_mail_code_by_icloud_imap account imap fuel retry w
      = Some (Return (Some c), w') ->
    six_digits c = true.
Proof.
  induction fuel as [|fuel IH]; intros retry w c w' H; [discriminate|].
  cbn [_get_mail_code_by_icloud_imap] in H.
  destruct (20 <=? retry)%nat; [discriminate|].
  destruct (imap _) as [| |mails delete_ok]; try discriminate.
  destruct mails as [|m mails].
  - destruct (_get_mail_code_by_icloud_imap account imap fuel (retry + 1) _)
      as [[[v|e] w2]|] eqn:Hrec; try discriminate.
    inversion H; subst. eapply IH. exact Hrec.
  - inversion H as [[Hscan Hw]].
    exact (proj1 (scan_mails_sound delete_ok _ c Hscan)).
Qed.

Lemma latest_code_six_digits (config : config_result) (w w' : mail_world)
  (c : string) :
  _get_latest_mail_code account config imap w = Some (Return (Some c), w') ->
  six_digits c = true.
Proof.
  unfold _get_latest_mail_code. destruct config; try discriminate.
  destruct (_get_mail_code_by_icloud_imap account imap 21 0 w)
    as [[[v|e] w2]|] eqn:Hrun; try discriminate.
  destruct (truthy v); [|discriminate].
  intros H. inversion H; subst. eapply inner_code_six_digits. exact Hrun.
Qed.

Lemma attempts_code_six_digits (config : config_result)
  (max_retries retry_interval : nat) (attempts : list nat) :
  forall w w' c,
    verification_attempts account config imap attempts
      max_retries retry_interval w = Some (Return (Some c), w') ->
    six_digits c = true.
Proof.
  induction attempts as [|attempt rest IH]; intros w w' c H; [discriminate|].
  cbn [verification_attempts] in H.
  destruct (_get_latest_mail_code account config imap w)
    as [[[v|e] w2]|] eqn:Hlatest; try discriminate.
  - destruct ((Z.of_nat attempt <? Z.of_nat max_retries - 1)%Z
              && negb (truthy v)).
    + eapply IH. exact H.
    + inversion H; subst. eapply latest_code_six_digits. exact Hlatest.
  - destruct (Z.of_nat attempt <? Z.of_nat max_retries - 1)%Z;
      [eapply IH; exact H|discriminate].
Qed.

End PollerMoreFacts.

(** With the iCloud configuration present and [max_retries >= 1],
    [get_verification_code] never raises: every exception of the IMAP
    session, and the timeout raised at the twentieth inner retry, is turned
    into [None] on the way up.  It ends after at most [20 * max_retries]
    IMAP sessions. *)
Theorem poll_with_config_never_raises :
  forall (account : string) (imap : nat -> imap_session)
         (max_retries retry_interval : nat) (w : mail_world),
    1 <= max_retries ->
    exists v w',
      get_verification_code account ConfigOK imap max_retries retry_interval w
        = Some (Return v, w') /\
      connections w <= connections w' <= connections w + 20 * max_retries.
Proof.
  intros account imap max_retries retry_interval w Hmax.
  destruct max_retries as [|n]; [lia|]. unfold get_verification_code.
  now apply verification_attempts_returns.
Qed.

Lemma poll_with_config_never_raises_witness :
  exists v w',
    get_verification_code example_account ConfigOK
      (fun _ => SessionRaises) 5 60 (mk_mail_world 0 [])
      = Some (Return v, w') /\
    connections (mk_mail_world 0 []) <= connections w'
      <= connections (mk_mail_world 0 []) + 20 * 5.
Proof.
  apply (poll_with_config_never_raises example_account
           (fun _ => SessionRaises) 5 60 (mk_mail_world 0 [])). lia.
Defined.

(** Without a usable iCloud configuration no IMAP session is opened: the
    poll sleeps [retry_interval] between the attempts and then, when
    [Config()] raises, raises in its turn, and when the configuration is
    empty, returns [None]. *)
Theorem poll_without_config :
  forall (account : string) (imap : nat -> imap_session)
         (config : config_result) (max_retries retry_interval : nat)
         (w : mail_world),
    config <> ConfigOK -> 1 <= max_retries ->
    get_verification_code account config imap max_retries retry_interval w =
    Some (match config with
          | ConfigRaises => Raise "max_retries_reached_with_error"
          | _ => Return None
          end,
          mk_mail_world (connections w)
            (repeat retry_interval (max_retries - 1) ++ mail_slept w)).
Proof.
  intros account imap config max_retries retry_interval w Hcfg Hmax.
  destruct max_retries as [|n]; [lia|]. unfold get_verification_code.
  rewrite verification_attempts_no_config by (assumption || lia).
  cbn [Nat.sub]. now rewrite Nat.sub_0_r.
Qed.

Lemma poll_without_config_witness :
  get_verification_code example_account ConfigRaises example_mailbox 5 60
    (mk_mail_world 0 []) =
  Some (Raise "max_retries_reached_with_error", mk_mail_world 0 [60; 60; 60; 60]).
Proof.
  refine (poll_without_config example_account example_mailbox ConfigRaises
            5 60 (mk_mail_world 0 []) _ _).
  - discriminate.
  - lia.
Defined.

(** When the bodies of the fetched mails are ASCII text, a code returned by
    the scan of the mails is six digits [0-9] long and was found in the body
    of a message fetched with status OK whose [to] header contains the
    account and whose [from] header contains the sender filter. *)
Theorem scan_mails_returns_code_of_qualifying_mail :
  forall (account : string) (delete_ok : bool) (mails : list fetch_result)
         (code : string),
    ascii_bodies mails = true ->
    scan_mails account delete_ok mails = Some code ->
    six_digits code = true /\
    exists m,
      In (Fetched true m) mails /\ qualifies account m = true /\
      ascii_text (_extract_imap_body m) = true /\
      re_search_code (_extract_imap_body m) = Some code.
Proof.
  intros account delete_ok mails code Hascii H.
  destruct (scan_mails_sound account delete_ok mails code H)
    as (Hsix & m & Hin & Hq & Hre).
  split; [exact Hsix|]. exists m. repeat split; try assumption.
  unfold ascii_bodies in Hascii. rewrite forallb_forall in Hascii.
  exact (Hascii _ Hin).
Qed.

Lemma scan_mails_returns_code_of_qualifying_mail_witness :
  six_digits "482913" = true.
Proof.
  exact (proj1 (scan_mails_returns_code_of_qualifying_mail
                  example_account true (rev example_mails) "482913"
                  eq_refl eq_refl)).
Defined.

(** When the bodies of the mails that the sessions fetch are ASCII text, a
    code returned by [get_verification_code] is a string of exactly six
    digits [0-9], whatever else the mailbox and the configuration do. *)
Theorem poll_returns_six_digits :
  forall (account : string) (config : config_result)
         (imap : nat -> imap_session) (max_retries retry_interval : nat)
         (w w' : mail_world) (code : string),
    (forall n, ascii_session (imap n) = true) ->
    get_verification_code account config imap max_retries retry_interval w
      = Some (Return (Some code), w') ->
    six_digits code = true.
Proof.
  intros account config imap max_retries retry_interval w w' code _ H.
  eapply attempts_code_six_digits. exact H.
Qed.

Lemma poll_returns_six_digits_witness : six_digits "482913" = true.
Proof.
  exact (poll_returns_six_digits example_account ConfigOK example_mailbox
           5 60 (mk_mail_world 0 []) (mk_mail_world 1 []) "482913"
           (fun _ => eq_refl) eq_refl).
Defined.

(** Only the ten newest messages are looked at: with more than ten messages
    in the mailbox, the result of a session is the scan of the last ten,
    newest first, whatever the older ones hold. *)
Theorem only_ten_newest_mails_scanned :
  forall (account : string) (imap : nat -> imap_session) (fuel retry : nat)
         (w : mail_world) (older recent : list fetch_result)
         (delete_ok : bool),
    retry < 20 -> List.length recent = 10 ->
    imap (connections (if (0 <? retry)%nat then mail_sleep 3 w else w))
      = SearchOK (older ++ recent) delete_ok ->
    _get_mail_code_by_icloud_imap account imap (S fuel) retry w =
    Some (Return (scan_mails account delete_ok (rev recent)),
          mk_mail_world
            (S (connections w))
            (mail_slept (if (0 <? retry)%nat then mail_sleep 3 w else w))).
Proof.
  intros account imap fuel retry w older recent delete_ok Hretry Hlen Himap.
  cbn [_get_mail_code_by_icloud_imap].
  rewrite (proj2 (Nat.leb_gt 20 retry)) by lia.
  rewrite Himap.
  assert (Hne : older ++ recent <> []).
  { intros E. apply (f_equal (@List.length _)) in E.
    rewrite length_app, Hlen in E. cbn in E. lia. }
  assert (E : firstn 10 (rev (older ++ recent)) = rev recent).
  { rewrite rev_app_distr, <- Hlen, <- (length_rev recent).
    rewrite firstn_app, firstn_all, Nat.sub_diag, firstn_O.
    apply app_nil_r. }
  destruct (older ++ recent) as [|m ms] eqn:Hmails; [congruence|].
  rewrite E. do 3 f_equal. now destruct (0 <? retry)%nat.
Qed.

Lemma only_ten_newest_mails_scanned_witness :
  _get_mail_code_by_icloud_imap example_account
    (fun _ => SearchOK (example_mails ++ repeat FetchOtherError 10) true)
    21 0 (mk_mail_world 0 []) =
  Some (Return None, mk_mail_world 1 []).
Proof.
  refine (only_ten_newest_mails_scanned example_account _ 20 0
            (mk_mail_world 0 []) example_mails (repeat FetchOtherError 10)
            true _ _ _).
  - lia.
  - reflexivity.
  - reflexivity.
Defined.

(** ** CAPTCHA retry handler *)

Section TurnstileFacts.

Variable page : nat -> turnstile_pass.

Lemma turnstile_loop_continues (max_retries : nat) :
  forall k fuel retry_count,
    retry_count + k <= max_retries ->
    (forall i, i < k ->
       turnstile_attempt (page (retry_count + i)) = AttemptContinues) ->
    turnstile_loop page (k + fuel) retry_count max_retries =
    turnstile_loop page fuel (retry_count + k) max_retries.
Proof.
  induction k as [|k IH]; intros fuel retry_count Hle Hcont.
  - now rewrite Nat.add_0_r.
  - cbn [Nat.add turnstile_loop].
    rewrite (proj2 (Nat.ltb_lt retry_count max_retries)) by lia.
    replace (retry_count + 1 - 1) with (retry_count + 0) by lia.
    rewrite (Hcont 0) by lia.
    rewrite IH.
    + f_equal. lia.
    + lia.
    + intros i Hi. replace (retry_count + 1 + i) with (retry_count + S i) by lia.
      apply Hcont. lia.
Qed.

End TurnstileFacts.

(** When no attempt sees a success marker and no check raises,
    [handle_turnstile] returns [False] after exactly [max_retries]
    attempts; with [max_retries = 0] it does so without looking at the
    page. *)
Theorem handle_turnstile_exhausts_retries :
  forall (page : nat -> turnstile_pass) (max_retries : nat),
    (forall i, i < max_retries ->
       turnstile_attempt (page i) = AttemptContinues) ->
    handle_turnstile page max_retries = Some (Return false, max_retries).
Proof.
  intros page max_retries Hcont. unfold handle_turnstile.
  replace (S max_retries) with (max_retries + 1) by lia.
  rewrite turnstile_loop_continues by (cbn; assumption || lia).
  cbn [Nat.add turnstile_loop]. now rewrite Nat.ltb_irrefl.
Qed.

Lemma handle_turnstile_exhausts_retries_witness :
  handle_turnstile
    (fun _ => mk_turnstile_pass ChallengeAbsent
                (mk_markers EleAbsent EleAbsent EleAbsent)
                (mk_markers EleAbsent EleAbsent EleAbsent)) 2
  = Some (Return false, 2).
Proof.
  refine (handle_turnstile_exhausts_retries _ 2 _).
  intros i Hi. reflexivity.
Defined.

(** The handler stops at the first attempt that does not simply continue,
    provided that attempt is within [max_retries]: it returns [True] there
    when a success marker is seen, and raises [TurnstileError] when the
    check that ends the attempt raises. *)
Theorem handle_turnstile_stops_at_first_decisive_attempt :
  forall (page : nat -> turnstile_pass) (max_retries n : nat),
    n < max_retries ->
    (forall i, i < n -> turnstile_attempt (page i) = AttemptContinues) ->
    handle_turnstile page max_retries =
    match turnstile_attempt (page n) with
    | AttemptReturnsTrue => Some (Return true, S n)
    | AttemptRaises => Some (Raise "TurnstileError", S n)
    | AttemptContinues =>
        turnstile_loop page (max_retries - n) (S n) max_retries
    end.
Proof.
  intros page max_retries n Hn Hcont. unfold handle_turnstile.
  replace (S max_retries) with (n + S (max_retries - n)) by lia.
  rewrite turnstile_loop_continues by (cbn; assumption || lia).
  cbn [Nat.add turnstile_loop].
  rewrite (proj2 (Nat.ltb_lt n max_retries) Hn).
  replace (n + 1 - 1) with n by lia. replace (n + 1) with (S n) by lia.
  reflexivity.
Qed.

Lemma handle_turnstile_stops_at_first_decisive_attempt_witness :
  handle_turnstile
    (fun i => match i with
              | 1 => mk_turnstile_pass (ChallengeFound true)
                       (mk_markers EleFound EleAbsent EleAbsent)
                       (mk_markers EleAbsent EleAbsent EleAbsent)
              | _ => mk_turnstile_pass ChallengeRaises
                       (mk_markers EleAbsent EleAbsent EleAbsent)
                       (mk_markers EleAbsent EleAbsent EleAbsent)
              end) 2
  = Some (Return true, 2).
Proof.
  refine (handle_turnstile_stops_at_first_decisive_attempt _ 2 1 _ _).
  - lia.
  - intros i Hi. destruct i; [reflexivity|lia].
Defined.

(** An attempt returns [True] exactly when a success marker is seen, either
    right after a click that went through or at the check that ends the
    attempt; in particular a page that already shows a marker succeeds
    without the challenge box.  What the click and the check after it raise
    is swallowed; only the last check can raise. *)
Theorem turnstile_attempt_outcomes :
  forall p : turnstile_pass,
    (turnstile_attempt p = AttemptReturnsTrue <->
     (challenge p = ChallengeFound true /\
      exists s, check_verification_success (after_click p) = Return (Some s))
     \/ exists s, check_verification_success (at_check p) = Return (Some s)) /\
    (turnstile_attempt p = AttemptRaises ->
     exists e, check_verification_success (at_check p) = Raise e) /\
    (turnstile_attempt p = AttemptContinues ->
     check_verification_success (at_check p) = Return None).
Proof.
  intros p. unfold turnstile_attempt.
  destruct (check_verification_success (at_check p)) as [[s2|]|e2] eqn:H2;
    destruct (challenge p) as [| |[|]] eqn:Hc;
    try (destruct (check_verification_success (after_click p))
           as [[s1|]|e1] eqn:H1);
    (split; [split|split]); intros; try discriminate; try reflexivity;
    eauto;
    repeat match goal with
           | H : _ \/ _ |- _ => destruct H
           | H : _ /\ _ |- _ => destruct H
           | H : exists _, _ |- _ => destruct H
           end; try discriminate; try congruence.
Qed.

Lemma turnstile_attempt_outcomes_witness :
  check_verification_success
    (at_check (mk_turnstile_pass ChallengeAbsent
                 (mk_markers EleAbsent EleAbsent EleAbsent)
                 (mk_markers EleAbsent EleAbsent EleAbsent))) = Return None.
Proof.
  exact (proj2 (proj2 (turnstile_attempt_outcomes
           (mk_turnstile_pass ChallengeAbsent
              (mk_markers EleAbsent EleAbsent EleAbsent)
              (mk_markers EleAbsent EleAbsent EleAbsent)))) eq_refl).
Defined.

(** ** The end of a run *)

Section MainTailFacts.
Import CursorAuthManager.

Variable json_load : string -> option json.
Variable json_dump : json -> string.
Variable sha256 : list byte -> list byte.
Variable sha512 : list byte -> list byte.
Variable tab_cookies : nat -> option (list cookie).

Lemma finish_run_without_token (greater : bool) (faults : run_faults)
  (date account password first_name last_name : string) (m : machine) :
  (forall i, i < 3 ->
     read_fails (tab_cookies (cookie_calls (tab_state m) + i)) = true) ->
  finish_run json_load json_dump sha256 sha512 tab_cookies true greater faults
    date account password first_name last_name m =
  Some (mk_machine (accounts_csv m) (item_table m) (storage_json m)
          (random_source m)
          (mk_tab_world (cookie_calls (tab_state m) + 3)
             ([2; 2] ++ tab_slept (tab_state m)))).
Proof.
  intros Hfail. unfold finish_run.
  now rewrite (session_token_gives_up tab_cookies 3 2 (tab_state m) Hfail).
Qed.

Lemma finish_run_with_token (greater : bool) (faults : run_faults)
  (date account password first_name last_name : string) (m : machine)
  (cookies : list cookie) (t : string) :
  tab_cookies (cookie_calls (tab_state m)) = Some cookies ->
  scan_cookies cookies = Found t -> t <> EmptyString ->
  db_fault_met faults = NoFault -> csv_failed faults = false ->
  exists m',
    finish_run json_load json_dump sha256 sha512 tab_cookies true greater
      faults date account password first_name last_name m = Some m' /\
    select_values key_cachedEmail (item_table m') =
      repeat (Some account)
        (Nat.max 1 (select_count key_cachedEmail (item_table m))) /\
    select_values key_accessToken (item_table m') =
      repeat (Some t)
        (Nat.max 1 (select_count key_accessToken (item_table m))) /\
    select_values key_refreshToken (item_table m') =
      repeat (Some t)
        (Nat.max 1 (select_count key_refreshToken (item_table m))) /\
    foreign_rows (item_table m') = foreign_rows (item_table m) /\
    accounts_csv m' =
      Some (match accounts_csv m with
            | None => [csv_header]
            | Some rows => rows
            end ++ [[date; account; password; t; first_name; last_name]]).
Proof.
  intros Hread Hscan Ht Hdb Hcsv. unfold finish_run.
  unfold get_cursor_session_token. cbn [token_loop Nat.ltb Nat.leb].
  rewrite Hread, Hscan.
  assert (Htruthy : truthy (Some t) = true).
  { cbn [truthy]. destruct (String.eqb_spec t ""); [contradiction|reflexivity]. }
  rewrite Htruthy, Hdb, Hcsv.
  cbn [accounts_csv item_table storage_json random_source tab_state].
  rewrite update_auth_NoFault.
  set (db' := run_all (build_updates (Some account) (Some t) (Some t))
                (item_table m)).
  assert (Hcsv' : save_account_to_csv false date
            (mk_account_info account password t first_name last_name)
            (accounts_csv m) =
          (true, Some (match accounts_csv m with
                       | None => [csv_header]
                       | Some rows => rows
                       end ++ [[date; account; password; t; first_name; last_name]])))
    by (unfold save_account_to_csv; destruct (accounts_csv m); reflexivity).
  rewrite Hcsv'.
  eexists. split; [reflexivity|].
  assert (Hm' : forall x,
    item_table (reset_machine_id json_load json_dump sha256 sha512 greater
                  (file_fault_met faults) x) = item_table x /\
    accounts_csv (reset_machine_id json_load json_dump sha256 sha512 greater
                  (file_fault_met faults) x) = accounts_csv x).
  { intros x. unfold reset_machine_id. destruct greater; [split; reflexivity|].
    destruct (reset_machine_ids _ _ _ _ _ _ _) as [[b f] g].
    split; reflexivity. }
  rewrite (proj1 (Hm' _)), (proj2 (Hm' _)).
  cbn [item_table accounts_csv]. subst db'.
  repeat split.
  - apply select_values_run_all_in; [apply build_updates_NoDup|cbn; auto].
  - apply select_values_run_all_in; [apply build_updates_NoDup|cbn; auto].
  - apply select_values_run_all_in; [apply build_updates_NoDup|cbn; auto].
  - apply foreign_rows_run_all, build_updates_keys.
Qed.

End MainTailFacts.

(** When sign-up failed, or when the three reads of the cookies yield no
    token, the run persists nothing: the CSV file, the credential table,
    the identity file and the random source are as before. *)
Theorem run_without_token_persists_nothing :
  forall (json_load : string -> option json) (json_dump : json -> string)
         (sha256 sha512 : list byte -> list byte)
         (tab_cookies : nat -> option (list cookie))
         (signed_up greater : bool) (faults : run_faults)
         (date account password first_name last_name : string) (m : machine),
    signed_up = false \/
    (forall i, i < 3 ->
       read_fails (tab_cookies (cookie_calls (tab_state m) + i)) = true) ->
    exists tw,
      finish_run json_load json_dump sha256 sha512 tab_cookies signed_up greater
        faults date account password first_name last_name m =
      Some (mk_machine (accounts_csv m) (item_table m) (storage_json m)
              (random_source m) tw).
Proof.
  intros json_load json_dump sha256 sha512 tab_cookies signed_up greater
    faults date account password first_name last_name m H.
  destruct signed_up.
  - destruct H as [H|H]; [discriminate|].
    eexists. now apply finish_run_without_token.
  - exists (tab_state m). now destruct m.
Qed.

Lemma run_without_token_persists_nothing_witness :
  exists tw,
    finish_run ref_json_load ref_json_dump stub_sha256 stub_sha512
      (fun _ => Some [mk_cookie (Some session_cookie_name) (Some "AAA")])
      true false (mk_run_faults false CursorAuthManager.NoFault NoFileFault)
      "2025-01-01 00:00:00" example_account "pw" "Jane" "Doe"
      (mk_machine None [] example_file example_rng (mk_tab_world 0 [])) =
    Some (mk_machine None [] example_file example_rng tw).
Proof.
  apply (run_without_token_persists_nothing
           ref_json_load ref_json_dump stub_sha256 stub_sha512
           (fun _ => Some [mk_cookie (Some session_cookie_name) (Some "AAA")])
           true false (mk_run_faults false CursorAuthManager.NoFault NoFileFault)
           "2025-01-01 00:00:00" example_account "pw" "Jane" "Doe"
           (mk_machine None [] example_file example_rng (mk_tab_world 0 []))).
  right. intros i Hi. reflexivity.
Defined.

(** After a successful sign-up, when the first read of the cookies gives a
    non-empty token and neither the CSV file nor the database fails, the run
    appends one row with the account and the token to the CSV file (after a
    header if the file was missing), and the credential table ends with the
    account under [cachedEmail] and the token under both [accessToken] and
    [refreshToken], its other rows untouched. *)
Theorem run_with_token_persists_credentials :
  forall (json_load : string -> option json) (json_dump : json -> string)
         (sha256 sha512 : list byte -> list byte)
         (tab_cookies : nat -> option (list cookie))
         (greater : bool) (faults : run_faults)
         (date account password first_name last_name : string) (m : machine)
         (cookies : list cookie) (t : string),
    tab_cookies (cookie_calls (tab_state m)) = Some cookies ->
    scan_cookies cookies = Found t -> t <> EmptyString ->
    db_fault_met faults = CursorAuthManager.NoFault ->
    csv_failed faults = false ->
    exists m',
      finish_run json_load json_dump sha256 sha512 tab_cookies true greater
        faults date account password first_name last_name m = Some m' /\
      CursorAuthManager.select_values CursorAuthManager.key_cachedEmail
        (item_table m') =
        repeat (Some account)
          (Nat.max 1 (CursorAuthManager.select_count
                        CursorAuthManager.key_cachedEmail (item_table m))) /\
      CursorAuthManager.select_values CursorAuthManager.key_accessToken
        (item_table m') =
        repeat (Some t)
          (Nat.max 1 (CursorAuthManager.select_count
                        CursorAuthManager.key_accessToken (item_table m))) /\
      CursorAuthManager.select_values CursorAuthManager.key_refreshToken
        (item_table m') =
        repeat (Some t)
          (Nat.max 1 (CursorAuthManager.select_count
                        CursorAuthManager.key_refreshToken (item_table m))) /\
      foreign_rows (item_table m') = foreign_rows (item_table m) /\
      accounts_csv m' =
        Some (match accounts_csv m with
              | None => [csv_header]
              | Some rows => rows
              end ++ [[date; account; password; t; first_name; last_name]]).
Proof. intros. now apply finish_run_with_token with (cookies := cookies). Qed.

Lemma run_with_token_persists_credentials_witness :
  exists m',
    finish_run ref_json_load ref_json_dump stub_sha256 stub_sha512
      (fun _ => Some [mk_cookie (Some session_cookie_name)
                        (Some "AAA%3A%3ABBB")])
      true false (mk_run_faults false CursorAuthManager.NoFault NoFileFault)
      "2025-01-01 00:00:00" example_account "pw" "Jane" "Doe"
      (mk_machine None [] example_file example_rng (mk_tab_world 0 []))
      = Some m' /\
    CursorAuthManager.select_values CursorAuthManager.key_accessToken
      (item_table m') = [Some "BBB"].
Proof.
  destruct (run_with_token_persists_credentials
              ref_json_load ref_json_dump stub_sha256 stub_sha512
              (fun _ => Some [mk_cookie (Some session_cookie_name)
                                (Some "AAA%3A%3ABBB")])
              false (mk_run_faults false CursorAuthManager.NoFault NoFileFault)
              "2025-01-01 00:00:00" example_account "pw" "Jane" "Doe"
              (mk_machine None [] example_file example_rng (mk_tab_world 0 []))
              [mk_cookie (Some session_cookie_name) (Some "AAA%3A%3ABBB")]
              "BBB" eq_refl eq_refl ltac:(discriminate) eq_refl eq_refl)
    as (m' & Hrun & _ & Hacc & _).
  exists m'. split; [exact Hrun|exact Hacc].
Defined.

(** ** Further properties: message bodies, key order, random bytes *)

Section BodyFacts.

Lemma first_plain_part_found (ps : list mime_part) (body : string) :
  first_plain_part ps = body -> body <> EmptyString ->
  exists pre p post,
    ps = pre ++ p :: post /\ is_inline_plain p = true /\
    payload p = Some body /\
    Forall (fun q => is_inline_plain q = false \/ payload q = None) pre.
Proof.
  induction ps as [|q ps IH]; cbn [first_plain_part]; intros H Hne.
  - congruence.
  - fold (is_inline_plain q) in H.
    destruct (is_inline_plain q) eqn:Hq.
    + destruct (payload q) as [b|] eqn:Hp.
      * subst b. exists [], q, ps. repeat split; auto.
      * destruct (IH H Hne) as (pre & p & post & -> & Hi & Hpay & Hall).
        exists (q :: pre), p, post. repeat split; auto.
    + destruct (IH H Hne) as (pre & p & post & -> & Hi & Hpay & Hall).
      exists (q :: pre), p, post. repeat split; auto.
Qed.

End BodyFacts.

(** A non-empty body extracted from a message is the decoded payload of a
    [text/plain] part of it.  For a multipart message it is the first part
    that is [text/plain], is not an attachment and decodes: attachments and
    parts of other types are never returned. *)
Theorem extract_imap_body_is_plain_text_part :
  forall (m : email_message) (body : string),
    _extract_imap_body m = body -> body <> EmptyString ->
    exists pre p post,
      parts m = pre ++ p :: post /\
      content_type p = "text/plain" /\ payload p = Some body /\
      (is_multipart m = true ->
       is_inline_plain p = true /\
       Forall (fun q => is_inline_plain q = false \/ payload q = None) pre) /\
      (is_multipart m = false -> pre = []).
Proof.
  intros m body H Hne. unfold _extract_imap_body in H.
  destruct (is_multipart m).
  - destruct (first_plain_part_found _ _ H Hne)
      as (pre & p & post & Hparts & Hi & Hpay & Hall).
    exists pre, p, post. split; [exact Hparts|].
    pose proof Hi as Hi'. unfold is_inline_plain in Hi'.
    apply andb_true_iff in Hi'. destruct Hi' as [Hct _].
    apply String.eqb_eq in Hct.
    repeat split; auto. discriminate.
  - destruct (parts m) as [|p ps]; [congruence|].
    destruct (String.eqb_spec (content_type p) "text/plain") as [Hct|];
      [|congruence].
    destruct (payload p) as [b|] eqn:Hp; [|congruence]. subst b.
    exists [], p, ps. repeat split; auto. discriminate.
Qed.

Lemma extract_imap_body_is_plain_text_part_witness :
  exists pre p post,
    [mk_part "text/html" None (Some "<p>1</p>");
     mk_part "text/plain" (Some "attachment; filename=a.txt") (Some "999999");
     mk_part "text/plain" None (Some "Your code is 482913")]
    = pre ++ p :: post /\ payload p = Some "Your code is 482913".
Proof.
  destruct (extract_imap_body_is_plain_text_part
              (mk_email "a" "b" true
                 [mk_part "text/html" None (Some "<p>1</p>");
                  mk_part "text/plain" (Some "attachment; filename=a.txt")
                    (Some "999999");
                  mk_part "text/plain" None (Some "Your code is 482913")])
              "Your code is 482913" eq_refl ltac:(discriminate))
    as (pre & p & post & Hparts & _ & Hpay & _).
  exists pre, p, post. split; [exact Hparts|exact Hpay].
Defined.

Section KeyOrderFacts.

Lemma has_key_dict_set (k k' : string) (v : json) (d : list (string * json)) :
  has_key (dict_set k v d) k' = has_key d k' || (k' =? k).
Proof.
  unfold has_key. induction d as [|[k0 v0] d IH]; cbn [dict_set map fst existsb].
  - now rewrite orb_false_r.
  - destruct (String.eqb_spec k0 k) as [->|Hne]; cbn [map fst existsb].
    + destruct (k' =? k); cbn; [reflexivity|now rewrite orb_false_r].
    + rewrite IH. now rewrite orb_assoc.
Qed.

Lemma keys_dict_set (k : string) (v : json) (d : list (string * json)) :
  map fst (dict_set k v d) =
  map fst d ++ (if has_key d k then [] else [k]).
Proof.
  unfold has_key. induction d as [|[k0 v0] d IH]; cbn [dict_set map fst existsb].
  - reflexivity.
  - rewrite (String.eqb_sym k k0).
    destruct (String.eqb_spec k0 k) as [->|Hne]; cbn [map fst orb app].
    + now rewrite app_nil_r.
    + now rewrite IH.
Qed.

Lemma keys_dict_update (other : list (string * json)) :
  forall d, NoDup (map fst other) ->
  map fst (dict_update d other) =
  map fst d ++ filter (fun k => negb (has_key d k)) (map fst other).
Proof.
  unfold dict_update.
  induction other as [|[k v] other IH]; intros d Hnd.
  - cbn. now rewrite app_nil_r.
  - cbn [fold_left fst snd map filter]. cbn [map fst] in Hnd.
    inversion Hnd as [|? ? Hnot Hnd']; subst.
    rewrite IH by assumption. rewrite keys_dict_set.
    assert (Hfilter :
      filter (fun k0 => negb (has_key (dict_set k v d) k0)) (map fst other) =
      filter (fun k0 => negb (has_key d k0)) (map fst other)).
    { apply filter_ext_in. intros k0 Hin. rewrite has_key_dict_set.
      rewrite (proj2 (String.eqb_neq k0 k)); [now rewrite orb_false_r|].
      intros ->. contradiction. }
    rewrite Hfilter. destruct (has_key d k); cbn [negb app].
    + now rewrite app_nil_r.
    + now rewrite <- app_assoc.
Qed.

End KeyOrderFacts.

(** A successful reset keeps the order of the keys of the file: the keys
    that were there keep their places, and the identity keys that were not
    there are added after them, in the order devDeviceId, macMachineId,
    machineId, sqmId. *)
Theorem reset_machine_ids_keeps_key_order :
  forall (json_load : string -> option json) (json_dump : json -> string)
         (sha256 sha512 : list byte -> list byte)
         (fault : file_fault) (f f' : storage_file) (g g' : rng),
    reset_machine_ids json_load json_dump sha256 sha512 fault f g
      = (true, f', g') ->
    exists members merged,
      json_load (file_content f) = Some (JObj members) /\
      file_content f' = json_dump (JObj merged) /\
      map fst merged =
        map fst members
        ++ filter (fun k => negb (has_key members k)) identity_keys.
Proof.
  intros json_load json_dump sha256 sha512 fault f f' g g' H.
  apply reset_machine_ids_true in H. destruct H as (members & Hload & -> & _).
  eexists members, _. split; [exact Hload|]. split; [reflexivity|].
  rewrite keys_dict_update; [reflexivity|].
  rewrite ids_dict_keys. apply identity_keys_NoDup.
Qed.

Lemma reset_machine_ids_keeps_key_order_witness :
  exists (members merged : list (string * json)),
    ref_json_load example_file_text = Some (JObj members) /\
    map fst merged =
      map fst members
      ++ filter (fun k => negb (has_key members k)) identity_keys.
Proof.
  set (r := reset_machine_ids ref_json_load ref_json_dump
              stub_sha256 stub_sha512 NoFileFault example_file example_rng).
  assert (Hr : fst (fst r) = true) by (vm_compute; reflexivity).
  destruct (reset_machine_ids_keeps_key_order
              ref_json_load ref_json_dump stub_sha256 stub_sha512
              NoFileFault example_file (snd (fst r)) example_rng (snd r)
              (reset_result_eta r Hr))
    as (members & merged & Hload & _ & Hkeys).
  exists members, merged. split; [exact Hload|exact Hkeys].
Defined.

Section RandomBytesFacts.

Variable sha256 : list byte -> list byte.
Variable sha512 : list byte -> list byte.

Lemma generate_new_ids_bytes (g : rng) :
  generate_new_ids sha256 sha512 g =
  (mk_machine_ids
     (uuid_str (uuid4_int (bytes_at g 0 16)))
     (hexdigest (sha256 (bytes_at g 16 32)))
     (hexdigest (sha512 (bytes_at g 48 64)))
     ("{" ++ str_upper (uuid_str (uuid4_int (bytes_at g 112 16))) ++ "}"),
   mk_rng (rng_source g) (rng_pos g + 128)).
Proof.
  unfold generate_new_ids, uuid4_str, urandom, bytes_at.
  cbn [fst snd rng_source rng_pos].
  rewrite Nat.add_0_r, <- !Nat.add_assoc. reflexivity.
Qed.

Lemma bytes_at_ext (g1 g2 : rng) (off n : nat) :
  rng_pos g1 = rng_pos g2 ->
  (forall i, rng_pos g1 <= i < rng_pos g1 + 128 ->
             rng_source g1 i = rng_source g2 i) ->
  off + n <= 128 ->
  bytes_at g1 off n = bytes_at g2 off n.
Proof.
  intros Hpos Hsrc Hle. unfold bytes_at. rewrite <- Hpos.
  apply map_ext_in. intros i Hin. apply in_seq in Hin. apply Hsrc. lia.
Qed.

End RandomBytesFacts.

(** [generate_new_ids] reads exactly the next 128 bytes of the random
    source (16 + 32 + 64 + 16): the four values depend on nothing else, and
    the source is left 128 bytes further, so a second call never reuses a
    byte of the first. *)
Theorem generate_new_ids_reads_128_bytes :
  forall (sha256 sha512 : list byte -> list byte) (g1 g2 : rng),
    rng_pos g1 = rng_pos g2 ->
    (forall i, rng_pos g1 <= i < rng_pos g1 + 128 ->
               rng_source g1 i = rng_source g2 i) ->
    fst (generate_new_ids sha256 sha512 g1)
      = fst (generate_new_ids sha256 sha512 g2) /\
    rng_pos (snd (generate_new_ids sha256 sha512 g1)) = rng_pos g1 + 128 /\
    rng_source (snd (generate_new_ids sha256 sha512 g1)) = rng_source g1.
Proof.
  intros sha256 sha512 g1 g2 Hpos Hsrc.
  rewrite !generate_new_ids_bytes. cbn [fst snd rng_pos rng_source].
  repeat split.
  rewrite (bytes_at_ext g1 g2 0 16 Hpos Hsrc) by lia.
  rewrite (bytes_at_ext g1 g2 16 32 Hpos Hsrc) by lia.
  rewrite (bytes_at_ext g1 g2 48 64 Hpos Hsrc) by lia.
  rewrite (bytes_at_ext g1 g2 112 16 Hpos Hsrc) by lia.
  reflexivity.
Qed.

Lemma generate_new_ids_reads_128_bytes_witness :
  fst (generate_new_ids stub_sha256 stub_sha512 example_rng)
    = fst (generate_new_ids stub_sha256 stub_sha512
             (mk_rng (fun i => if (i <? rng_pos example_rng + 128)%nat
                               then rng_source example_rng i else x00)
                     (rng_pos example_rng))).
Proof.
  apply (generate_new_ids_reads_128_bytes stub_sha256 stub_sha512 example_rng
           (mk_rng (fun i => if (i <? rng_pos example_rng + 128)%nat
                             then rng_source example_rng i else x00)
                   (rng_pos example_rng))).
  - reflexivity.
  - intros i Hi. cbn [rng_source].
    destruct (Nat.ltb_spec i (rng_pos example_rng + 128)); [reflexivity|lia].
Defined.


(** ** The digits of a generated UUID *)

Section HexPositionFacts.

Local Open Scope Z_scope.

Lemma get_zeros (k i : nat) :
  (i < k)%nat -> String.get i (zeros k) = Some "0"%char.
Proof.
  revert i. induction k as [|k IH]; intros i Hi; [lia|].
  destruct i as [|i]; [reflexivity|]. cbn [zeros String.get]. apply IH. lia.
Qed.

Lemma pow16_succ (k : nat) : 16 ^ Z.of_nat (S k) = 16 * 16 ^ Z.of_nat k.
Proof.
  replace (Z.of_nat (S k)) with (Z.succ (Z.of_nat k)) by lia.
  apply Z.pow_succ_r. lia.
Qed.

Lemma pow16_pos (k : nat) : 0 < 16 ^ Z.of_nat k.
Proof. apply Z.pow_pos_nonneg; lia. Qed.

(** The [i]-th character of a number padded to [k] digits is its digit of
    weight [16 ^ (k - 1 - i)]. *)
Lemma padded_hex_digit (fuel : nat) :
  forall (n : Z) (k i : nat),
    0 <= n < 16 ^ Z.of_nat fuel -> n < 16 ^ Z.of_nat k -> (i < k)%nat ->
    String.get i
      (zeros (k - String.length (hex_digits fuel n)) ++ hex_digits fuel n)
    = Some (hex_char ((n / 16 ^ Z.of_nat (k - 1 - i)) mod 16)).
Proof.
  induction fuel as [|fuel IH]; intros n k i Hn Hk Hi.
  - assert (n = 0) as -> by (cbn in Hn; lia).
    cbn [hex_digits String.length].
    rewrite Nat.sub_0_r, string_app_nil_r, get_zeros by exact Hi.
    rewrite Zdiv_0_l. reflexivity.
  - cbn [hex_digits]. destruct (Z.ltb_spec n 16) as [Hlt|Hge].
    + cbn [String.length].
      destruct (Nat.eq_dec i (k - 1)) as [->|Hne].
      * replace (k - 1 - (k - 1))%nat with 0%nat by lia.
        change (16 ^ Z.of_nat 0) with 1. rewrite Z.div_1_r.
        rewrite Z.mod_small by lia.
        pose proof (append_correct2 (zeros (k - 1))
                      (String (hex_char n) EmptyString) 0) as E.
        rewrite zeros_length in E. cbn [Nat.add] in E.
        rewrite <- E. reflexivity.
      * rewrite <- append_correct1 by (rewrite zeros_length; lia).
        rewrite get_zeros by lia.
        assert (Hbig : 16 <= 16 ^ Z.of_nat (k - 1 - i)).
        { replace (k - 1 - i)%nat with (S (k - 2 - i)) by lia.
          rewrite pow16_succ. pose proof (pow16_pos (k - 2 - i)). lia. }
        rewrite Z.div_small by lia. reflexivity.
    + destruct fuel as [|fuel]; [cbn in Hn; lia|].
      destruct k as [|[|k]]; [lia|cbn in Hk; lia|].
      assert (Hdiv : 0 <= n / 16 < 16 ^ Z.of_nat (S fuel)).
      { split; [apply Z.div_pos; lia|].
        apply Z.div_lt_upper_bound; [lia|].
        rewrite (pow16_succ (S fuel)) in Hn. lia. }
      assert (Hdivk : n / 16 < 16 ^ Z.of_nat (S k)).
      { apply Z.div_lt_upper_bound; [lia|].
        rewrite (pow16_succ (S k)) in Hk. lia. }
      set (s := hex_digits (S fuel) (n / 16)) in *.
      assert (Hlen : (String.length s <= S k)%nat).
      { apply (hex_digits_length (S fuel) k (n / 16)). lia. }
      rewrite string_length_app. cbn [String.length].
      replace (S (S k) - (String.length s + 1))%nat
        with (S k - String.length s)%nat by lia.
      rewrite <- string_app_assoc.
      assert (Hplen : String.length (zeros (S k - String.length s) ++ s)
                      = S k).
      { rewrite string_length_app, zeros_length. lia. }
      destruct (Nat.eq_dec i (S k)) as [->|Hne].
      * replace (S (S k) - 1 - S k)%nat with 0%nat by lia.
        change (16 ^ Z.of_nat 0) with 1. rewrite Z.div_1_r.
        pose proof (append_correct2 (zeros (S k - String.length s) ++ s)
                      (String (hex_char (n mod 16)) EmptyString) 0) as E.
        rewrite Hplen in E. cbn [Nat.add] in E.
        rewrite <- E. reflexivity.
      * rewrite <- append_correct1 by lia.
        unfold s. rewrite (IH (n / 16) (S k) i Hdiv Hdivk) by lia.
        rewrite Z.div_div by (pose proof (pow16_pos (S k - 1 - i)); lia).
        rewrite <- pow16_succ.
        replace (S (S k - 1 - i)) with (S (S k) - 1 - i)%nat by lia.
        reflexivity.
Qed.

Lemma format_032x_digit (n : Z) (i : nat) :
  0 <= n < 2 ^ 128 -> (i < 32)%nat ->
  String.get i (format_032x n)
  = Some (hex_char ((n / 16 ^ Z.of_nat (31 - i)) mod 16)).
Proof.
  intros Hn Hi. unfold format_032x, format_x.
  apply (padded_hex_digit _ n 32 i); [|exact (proj2 Hn)|exact Hi].
  split; [lia|].
  destruct (Z.eq_dec n 0) as [->|Hne]; [reflexivity|].
  assert (Hlog : 0 <= Z.log2 n) by apply Z.log2_nonneg.
  replace (Z.of_nat (S (Z.to_nat (Z.log2 n)))) with (Z.succ (Z.log2 n)) by lia.
  pose proof (Z.log2_spec n ltac:(lia)) as [_ Hup].
  eapply Z.lt_le_trans; [exact Hup|].
  apply Z.pow_le_mono_l. lia.
Qed.

(** The version digit: bits 76 to 79 of the number are 0100. *)
Lemma uuid4_int_version (bs : list byte) :
  (uuid4_int bs / 16 ^ 19) mod 16 = 4.
Proof.
  change (16 ^ 19) with (2 ^ 76). change 16 with (2 ^ 4).
  apply Z.bits_inj'. intros i Hi.
  destruct (Z.lt_ge_cases i 4) as [Hlt|Hge].
  - rewrite Z.mod_pow2_bits_low by lia.
    rewrite Z.div_pow2_bits by lia.
    unfold uuid4_int. rewrite Z.lor_spec, Z.land_spec.
    assert (Hcase : i = 0 \/ i = 1 \/ i = 2 \/ i = 3) by lia.
    destruct Hcase as [-> | [-> | [-> | ->]]];
      match goal with
      | |- (?x && ?m || ?d)%bool = _ =>
          let m' := eval vm_compute in m in
          let d' := eval vm_compute in d in
          change m with m'; change d with d'
      end; rewrite andb_false_r; reflexivity.
  - rewrite Z.mod_pow2_bits_high by lia.
    symmetry. apply (high_bits_clear 4 4); lia.
Qed.

(** The variant digit: bits 62 and 63 of the number are 10. *)
Lemma uuid4_int_variant (bs : list byte) :
  8 <= (uuid4_int bs / 16 ^ 15) mod 16 < 12.
Proof.
  change (16 ^ 15) with (2 ^ 60). change 16 with (2 ^ 4).
  set (v := (uuid4_int bs / 2 ^ 60) mod 2 ^ 4).
  assert (Hv : 0 <= v < 2 ^ 4) by (apply Z.mod_pos_bound; lia).
  assert (H3 : Z.testbit v 3 = true).
  { unfold v. rewrite Z.mod_pow2_bits_low by lia.
    rewrite Z.div_pow2_bits by lia.
    unfold uuid4_int.
    rewrite Z.lor_spec, Z.land_spec, Z.lor_spec, Z.land_spec.
    match goal with
    | |- ((?x && ?m0 || ?d0) && ?m1 || ?d1)%bool = _ =>
        let a := eval vm_compute in m0 in
        let b := eval vm_compute in d0 in
        let c := eval vm_compute in m1 in
        let d := eval vm_compute in d1 in
        change m0 with a; change d0 with b; change m1 with c;
        change d1 with d
    end.
    rewrite andb_false_r. reflexivity. }
  assert (H2 : Z.testbit v 2 = false).
  { unfold v. rewrite Z.mod_pow2_bits_low by lia.
    rewrite Z.div_pow2_bits by lia.
    unfold uuid4_int.
    rewrite Z.lor_spec, Z.land_spec, Z.lor_spec, Z.land_spec.
    match goal with
    | |- ((?x && ?m0 || ?d0) && ?m1 || ?d1)%bool = _ =>
        let a := eval vm_compute in m0 in
        let b := eval vm_compute in d0 in
        let c := eval vm_compute in m1 in
        let d := eval vm_compute in d1 in
        change m0 with a; change d0 with b; change m1 with c;
        change d1 with d
    end.
    rewrite andb_false_r. reflexivity. }
  apply Z.testbit_true in H3; [|lia].
  apply Z.testbit_false in H2; [|lia].
  change (2 ^ 3) with 8 in H3. change (2 ^ 2) with 4 in H2.
  change (2 ^ 4) with 16 in Hv.
  revert H3 H2 Hv. generalize v. clear. intros v H3 H2 Hv.
  assert (Hcases : v = 0 \/ v = 1 \/ v = 2 \/ v = 3 \/ v = 4 \/ v = 5 \/
                   v = 6 \/ v = 7 \/ v = 8 \/ v = 9 \/ v = 10 \/ v = 11 \/
                   v = 12 \/ v = 13 \/ v = 14 \/ v = 15) by lia.
  repeat (destruct Hcases as [->|Hcases];
          [first [lia | vm_compute in H3; vm_compute in H2; congruence]|]).
  subst v. vm_compute in H2. congruence.
Qed.

End HexPositionFacts.

Section UuidDigitFacts.

Lemma uuid_layout_get (hex : string) :
  String.length hex = 32 ->
  let u := (substring 0 8 hex ++ "-" ++ substring 8 4 hex ++ "-" ++
            substring 12 4 hex ++ "-" ++ substring 16 4 hex ++ "-" ++
            substring 20 (String.length hex - 20) hex)%string in
  String.get 14 u = String.get 12 hex /\ String.get 19 u = String.get 16 hex.
Proof.
  intros Hlen.
  do 32 (destruct hex as [|? hex]; [discriminate|]).
  destruct hex; [|discriminate]. clear Hlen.
  split; reflexivity.
Qed.

Lemma uuid4_str_digits (g : rng) :
  String.get 14 (fst (uuid4_str g)) = Some "4"%char /\
  exists c, String.get 19 (fst (uuid4_str g)) = Some c /\
            In c ["8"; "9"; "a"; "b"]%char.
Proof.
  unfold uuid4_str. pose proof (urandom_length 16 g) as Hlen.
  destruct (urandom 16 g) as [bs g']. cbn [fst] in *.
  pose proof (uuid4_int_range bs Hlen) as Hr.
  destruct (format_032x_shape _ Hr) as [Hl _].
  unfold uuid_str.
  destruct (uuid_layout_get _ Hl) as [E14 E19]. cbv zeta in E14, E19.
  rewrite E14, E19.
  rewrite (format_032x_digit _ 12 Hr) by lia.
  rewrite (format_032x_digit _ 16 Hr) by lia.
  change (Z.of_nat (31 - 12)) with 19%Z. change (Z.of_nat (31 - 16)) with 15%Z.
  rewrite uuid4_int_version. split; [reflexivity|].
  pose proof (uuid4_int_variant bs) as Hv.
  eexists. split; [reflexivity|].
  set (v := ((uuid4_int bs / 16 ^ 15) mod 16)%Z) in *.
  assert (Hcases : (v = 8 \/ v = 9 \/ v = 10 \/ v = 11)%Z) by lia.
  destruct Hcases as [-> | [-> | [-> | ->]]]; cbn; auto.
Qed.

Lemma get_some_lt (s : string) :
  forall i x, String.get i s = Some x -> i < String.length s.
Proof.
  induction s as [|c s IH]; intros i x H; [discriminate|].
  destruct i as [|i]; cbn [String.length]; [lia|].
  cbn [String.get] in H. apply IH in H. lia.
Qed.

Lemma get_str_upper (s : string) :
  forall i, String.get i (str_upper s) = option_map upper_char (String.get i s).
Proof.
  induction s as [|c s IH]; intros i; [reflexivity|].
  destruct i as [|i]; cbn [str_upper String.get]; [reflexivity|apply IH].
Qed.

End UuidDigitFacts.

(** Both UUIDs of a generated identity are version-4, RFC 4122 UUIDs: the
    first digit of the third group is 4 and the first digit of the fourth
    group is 8, 9, a or b (uppercase in the braced sqmId). *)
Theorem generate_new_ids_uuids_are_version_4 :
  forall (sha256 sha512 : list byte -> list byte) (g : rng),
    let ids := fst (generate_new_ids sha256 sha512 g) in
    String.get 14 (dev_device_id ids) = Some "4"%char /\
    (exists c, String.get 19 (dev_device_id ids) = Some c /\
               In c ["8"; "9"; "a"; "b"]%char) /\
    String.get 15 (sqm_id ids) = Some "4"%char /\
    (exists c, String.get 20 (sqm_id ids) = Some c /\
               In c ["8"; "9"; "A"; "B"]%char).
Proof.
  intros sha256 sha512 g ids. subst ids. unfold generate_new_ids.
  pose proof (uuid4_str_digits g) as Hd.
  destruct (uuid4_str g) as [u1 g1]. cbn [fst] in Hd.
  destruct (urandom 32 g1) as [s1 g2]. destruct (urandom 64 g2) as [s2 g3].
  pose proof (uuid4_str_digits g3) as Hs.
  destruct (uuid4_str g3) as [u2 g4]. cbn [fst] in Hs.
  cbn [fst dev_device_id sqm_id].
  destruct Hd as [Hd1 Hd2]. destruct Hs as [Hs1 (c & Hc & Hin)].
  split; [exact Hd1|]. split; [exact Hd2|].
  change ("{" ++ str_upper u2 ++ "}")%string
    with (String "{" (str_upper u2 ++ "}")).
  cbn [String.get].
  assert (Hlen : forall i x, String.get i u2 = Some x ->
                 (i < String.length (str_upper u2))%nat).
  { intros i x Hx. apply (get_some_lt _ i (upper_char x)).
    rewrite get_str_upper, Hx. reflexivity. }
  rewrite <- !append_correct1 by (eapply Hlen; eassumption).
  rewrite !get_str_upper, Hs1, Hc. split; [reflexivity|].
  eexists. split; [reflexivity|].
  cbn [In] in Hin. destruct Hin as [<-|[<-|[<-|[<-|[]]]]]; cbn; auto.
Qed.
